(** * Cipherpack (elevator): the RSA1 encrypt-then-sign container codec

    A shallow embedding of [src/elevator/Crypto1.cpp]:
    [Cipherpack::encryptThenSign_RSA1] and
    [Cipherpack::checkSignThenDecrypt_RSA1], over a model of the file
    system, of the ASN.1 DER/BER layer and of the cryptographic primitive
    library the two functions call. *)

From Stdlib Require Import NArith ZArith List Lia Bool.
From Stdlib.Strings Require Import String Ascii Byte.
From stdpp Require Import base option list gmap strings.

Open Scope N_scope.

(** ** Octets *)

Global Instance byte_eq_dec : EqDecision byte := Byte.byte_eq_dec.

Module Octets.

Abbreviation bytes := (list byte).

(** The low eight bits of a number, as a C++ [static_cast<uint8_t>]. *)
Definition u8 (n : N) : byte :=
  match Byte.of_N (n mod 256) with
  | Some b => b
  | None => x00
  end.

(** [jau::put_uint32(buffer, byte_offset, v, littleEndian=true)]: stores
    the four octets of [v], least significant first, at [byte_offset]. *)
Definition put_uint32 (buffer : bytes) (byte_offset : nat) (v : N) : bytes :=
  take byte_offset buffer
    ++ [u8 v; u8 (v / 2^8); u8 (v / 2^16); u8 (v / 2^24)]
    ++ drop (byte_offset + 4)%nat buffer.

(** [jau::get_uint32(buffer, byte_offset, littleEndian=true)]. *)
Definition get_uint32 (buffer : bytes) (byte_offset : nat) : N :=
  match drop byte_offset buffer with
  | b0 :: b1 :: b2 :: b3 :: _ =>
      Byte.to_N b0 + 2^8 * Byte.to_N b1 + 2^16 * Byte.to_N b2
      + 2^24 * Byte.to_N b3
  | _ => 0
  end.

(** A [size_t] narrowed to [uint32_t]. *)
Definition to_uint32 (n : nat) : N := N.of_nat n mod 2^32.

(** Minimal base-256 digits of a number, least significant first. *)
Fixpoint le_digits (fuel : nat) (n : N) : bytes :=
  match fuel with
  | O => []
  | S fuel' => if n =? 0 then [] else u8 n :: le_digits fuel' (n / 256)
  end.

(** Minimal big-endian octets of a number ([[]] for zero). *)
Definition be_bytes (n : N) : bytes := rev (le_digits (N.size_nat n) n).

(** The number a big-endian octet string denotes. *)
Definition be_value (bs : bytes) : N :=
  fold_left (fun acc b => acc * 256 + Byte.to_N b) bs 0.

(** One octet with bit [i] (0 = least significant) inverted. *)
Definition flip_bit (i : N) (b : byte) : byte :=
  u8 (N.lxor (Byte.to_N b) (2 ^ (i mod 8))).

(** An octet string with bit [i] of the octet at [pos] inverted. *)
Definition flip_bit_at (pos : nat) (i : N) (bs : bytes) : bytes :=
  match bs !! pos with
  | Some b => <[pos := flip_bit i b]> bs
  | None => bs
  end.

Definition bytes_eqb (a b : bytes) : bool := bool_decide (a = b).

End Octets.
Export Octets.

(** ** Exceptions of the primitive library

    The C++ code distinguishes [Botan::Decoding_Error] (caught by the
    header handlers) from every other [std::exception] (caught by the
    outer handler of each operation). *)

Inductive exception : Type :=
| Decoding_Error
| Stream_IO_Error
| Invalid_Authentication_Tag
| Lookup_Error
| Invalid_Argument
| Internal_Error.

Global Instance exception_eq_dec : EqDecision exception.
Proof. solve_decision. Defined.

(** A value or a thrown exception. *)
Inductive result (A : Type) : Type :=
| Val (a : A)
| Exc (e : exception).
Arguments Val {A} a.
Arguments Exc {A} e.

(** ** ASN.1: the DER encoder and the BER decoder

    The subset of [Botan::DER_Encoder] and [Botan::BER_Decoder] that the
    codec uses: universal single-octet tags and definite lengths. *)

Module ASN1.

Definition OctetString : byte := x04.
Definition Integer : byte := x02.
Definition ObjectId : byte := x06.
Definition SequenceCons : byte := x30.

(** An object identifier, held as its content octets; the empty OID
    ([OID::empty()]) has none. *)
Definition OID := bytes.

(** [Botan::AlgorithmIdentifier]: an OID and raw, already encoded
    parameters. *)
Record AlgorithmIdentifier := {
  alg_oid : OID;
  alg_parameters : bytes
}.

(** The interface of [Botan::DER_Encoder] as the codec calls it. *)
Class DER_Encoder := {
  encode_octets : bytes -> bytes;
  encode_integer : N -> bytes;
  encode_oid : OID -> bytes;
  encode_alg_id : AlgorithmIdentifier -> bytes;
  (** [start_sequence() ... end_cons()] around encoded elements. *)
  encode_sequence : list bytes -> bytes
}.

(** *** DER, as [Botan::DER_Encoder] produces it *)

(** The length octets: short form up to 127, else the count of
    significant octets with the high bit set, then the octets. *)
Definition encode_length (len : nat) : bytes :=
  let n := N.of_nat len in
  if n <=? 127 then [u8 n]
  else let bs := be_bytes n in u8 (128 + N.of_nat (length bs)) :: bs.

(** [DER_Encoder::add_object]. *)
Definition add_object (tag : byte) (content : bytes) : bytes :=
  tag :: encode_length (length content) ++ content.

Definition der_octets (v : bytes) : bytes := add_object OctetString v.

(** [DER_Encoder::encode(size_t, Integer)]: zero is one zero octet; any
    other value its minimal octets, with a zero octet in front when the
    top bit is set. *)
Definition der_integer (n : N) : bytes :=
  if n =? 0 then add_object Integer [x00]
  else
    let bs := be_bytes n in
    match bs with
    | b :: _ => if 128 <=? Byte.to_N b then add_object Integer (x00 :: bs)
                else add_object Integer bs
    | [] => add_object Integer bs
    end.

Definition der_oid (o : OID) : bytes := add_object ObjectId o.

Definition der_sequence (elements : list bytes) : bytes :=
  add_object SequenceCons (concat elements).

(** [AlgorithmIdentifier::encode_into]: SEQUENCE { OID, raw parameters }. *)
Definition der_alg_id (a : AlgorithmIdentifier) : bytes :=
  der_sequence [der_oid (alg_oid a); alg_parameters a].

Definition Botan_DER : DER_Encoder := {|
  encode_octets := der_octets;
  encode_integer := der_integer;
  encode_oid := der_oid;
  encode_alg_id := der_alg_id;
  encode_sequence := der_sequence
|}.

(** *** BER decoding, as [Botan::BER_Decoder] reads it *)

(** A decoder reads from the front of its source and leaves the rest. *)
Definition decoder (A : Type) : Type := bytes -> result (A * bytes).

Definition dret {A} (a : A) : decoder A := fun s => Val (a, s).
Definition dbind {A B} (d : decoder A) (k : A -> decoder B) : decoder B :=
  fun s => match d s with
           | Val (a, s') => k a s'
           | Exc e => Exc e
           end.
Definition dfail {A} (e : exception) : decoder A := fun _ => Exc e.

(** The length octets: at most four octets of long form; the indefinite
    form is outside the modelled subset. *)
Definition decode_length : decoder nat := fun s =>
  match s with
  | [] => Exc Decoding_Error
  | b :: s' =>
      let n := Byte.to_N b in
      if n <? 128 then Val (N.to_nat n, s')
      else
        let k := N.to_nat (n - 128) in
        if (k =? 0)%nat then Exc Decoding_Error
        else if (4 <? k)%nat then Exc Decoding_Error
        else if (length s' <? k)%nat then Exc Decoding_Error
        else Val (N.to_nat (be_value (take k s')), drop k s')
  end.

(** [BER_Decoder::get_next_object] followed by [assert_is_a]: one
    object of the expected tag; its content and the rest of the source. *)
Definition get_object (tag : byte) : decoder bytes := fun s =>
  match s with
  | [] => Exc Decoding_Error
  | t :: s' =>
      if bool_decide (t = tag) then
        match decode_length s' with
        | Val (len, s'') =>
            if (length s'' <? len)%nat then Exc Decoding_Error
            else Val (take len s'', drop len s'')
        | Exc e => Exc e
        end
      else Exc Decoding_Error
  end.

Definition decode_octets : decoder bytes := get_object OctetString.

(** [BER_Decoder::decode(size_t&, Integer)]: a non-negative integer of
    at most 32 bits. *)
Definition decode_integer : decoder N :=
  dbind (get_object Integer) (fun c =>
    match c with
    | b :: _ =>
        if 128 <=? Byte.to_N b then dfail Decoding_Error
        else if 2^32 <=? be_value c then dfail Decoding_Error
        else dret (be_value c)
    | [] => dret 0
    end).

Definition decode_oid : decoder OID := get_object ObjectId.

(** [start_sequence()]: the content of the next SEQUENCE. *)
Definition start_sequence : decoder bytes := get_object SequenceCons.

(** [end_cons()]: the constructed value must be used up. *)
Definition end_cons {A} (a : A) : decoder A := fun s =>
  match s with
  | [] => Val (a, [])
  | _ :: _ => Exc Decoding_Error
  end.

(** A decoder run inside the content of a constructed value; the outer
    source continues after that value. *)
Definition within {A} (content : bytes) (d : decoder A) : decoder A :=
  fun rest => match d content with
              | Val (a, _) => Val (a, rest)
              | Exc e => Exc e
              end.

(** [AlgorithmIdentifier::decode_from]: SEQUENCE { OID, the remaining
    octets as raw parameters }. *)
Definition decode_alg_id : decoder AlgorithmIdentifier :=
  dbind start_sequence (fun content =>
    within content
      (dbind decode_oid (fun o params =>
         Val ({| alg_oid := o; alg_parameters := params |}, [])))).

End ASN1.
Export ASN1.

(** ** Configured constants

    The compile-time constants of the codec (RSA signing, padding and hash
    names, AEAD name and nonce size, buffer size, package magic) are
    declared in a header and are taken here as parameters. *)

Class Constants := {
  package_magic : string;
  rsa_sign_algo : string;
  rsa_padding_algo : string;
  rsa_hash_algo : string;
  aead_cipher_algo : string;
  ChaCha_Nonce_Size : nat;
  buffer_size : nat
}.

(** ** The cryptographic primitive library

    The operations of Botan that the codec calls: key parsing, the system
    random number generator, the OID registry, RSA encryption with EME
    padding, RSA signatures with EMSA padding, and the incremental AEAD. *)

Inductive Cipher_Dir := ENCRYPTION | DECRYPTION.

Class Botan := {
  Public_Key : Type;
  Private_Key : Type;
  (** The state of [Botan::system_rng()]. *)
  RandomNumberGenerator : Type;
  (** An AEAD object with its key, associated data and stream position. *)
  AEAD_Mode : Type;

  (** Key parsing, PEM or DER; [None] when the octets hold no key. *)
  public_key_of : bytes -> option Public_Key;
  private_key_of : bytes -> string -> option Private_Key;

  random_vec : RandomNumberGenerator -> nat -> bytes * RandomNumberGenerator;

  (** [OID::from_string] and [OIDS::oid2str_or_empty]. *)
  OID_from_string : string -> result OID;
  oid2str_or_empty : OID -> string;

  (** [PK_Encryptor_EME(key, rng, eme).encrypt(msg, rng)]. *)
  pk_encrypt : Public_Key -> string -> bytes -> RandomNumberGenerator ->
               result bytes * RandomNumberGenerator;
  (** The private-key operation and EME unpadding of [PK_Decryptor_EME];
      [None] when the ciphertext does not unpad. *)
  pk_decrypt : Private_Key -> string -> bytes -> option bytes;
  (** [PK_Signer(key, rng, emsa).sign_message(msg, rng)]. *)
  sign_message : Private_Key -> string -> bytes -> RandomNumberGenerator ->
                 bytes * RandomNumberGenerator;
  (** [PK_Verifier(key, emsa)]: [update(msg)], [check_signature(sig)]. *)
  check_signature : Public_Key -> string -> bytes -> bytes -> bool;

  (** [AEAD_Mode::create]; [None] is the null pointer. *)
  AEAD_create : string -> Cipher_Dir -> option AEAD_Mode;
  maximum_keylength : AEAD_Mode -> nat;
  set_key : AEAD_Mode -> bytes -> AEAD_Mode;
  set_associated_data_vec : AEAD_Mode -> bytes -> AEAD_Mode;
  start : AEAD_Mode -> bytes -> result AEAD_Mode;
  (** [update] and [finish] transform the buffer in place. *)
  update : AEAD_Mode -> bytes -> bytes * AEAD_Mode;
  finish : AEAD_Mode -> bytes -> result bytes
}.

(** ** The listener interface

    The callback surface of [CipherpackListener], as the JNI bridge
    [JNICipherpackListener] forwards it. *)

Inductive listener_call : Type :=
| notifyError (decrypt_mode : bool)
| notifyHeader (decrypt_mode : bool) (verified : bool)
| notifyProgress (decrypt_mode : bool) (content_size bytes_processed : N)
| notifyEnd (decrypt_mode : bool) (success : bool)
| getSendContent (decrypt_mode : bool)
| contentProcessed (decrypt_mode : bool) (is_header : bool) (is_final : bool).

(** ** Diagnostics

    One constructor for each [ERR_PRINT] of the two operations. *)

Inductive operation := Encrypt | Decrypt.

Inductive message : Type :=
| Failed_deletion_of_existing_output
| Not_overwriting_existing_output
| Output_file_not_open
| AEAD_algo_not_available
| No_OID_for_cipher_algo
| Header_bytes_differ_from_total
| Output_file_write_failed
| Written_bytes_differ_from_total
| Caught_exception (e : exception)
| Unknown_package_magic
| Expected_package_magic
| Expected_header1_size_element_of_4_bytes
| Header1a_invalid_input_file_format
| Expected_header1_size
| Signature_mismatch
| Invalid_input_file_format
| Unknown_filename
| Unknown_signing_algo
| Expected_signing_algo
| Expected_encryption_padding_algo
| Unknown_hash_function
| Expected_hash_function
| Unknown_hash_function_parameter
| Unknown_encryption_algo
| Expected_encryption_algo
| Cipher_algo_not_available.

Inductive event : Type :=
| ERR_PRINT (op : operation) (m : message)
| Listener (c : listener_call).

Global Instance message_eq_dec : EqDecision message.
Proof. solve_decision. Defined.
Global Instance operation_eq_dec : EqDecision operation.
Proof. solve_decision. Defined.

(** ** The world: files, the random number generator and the error stream *)

(** How a statement ends: it falls through with a value, the function
    returns, or an exception is in flight. *)
Inductive flow (A : Type) : Type :=
| Next (a : A)
| Return (b : bool)
| Throw (e : exception).
Arguments Next {A} a.
Arguments Return {A} b.
Arguments Throw {A} e.

Section World.
Context `{Botan}.

Record World := {
  files : gmap string bytes;
  (** Paths that cannot be opened for writing. *)
  unwritable : gset string;
  (** Whether a write of at least one octet fails. *)
  disk_full : bool;
  rng : RandomNumberGenerator;
  trace : list event
}.

Definition set_files (f : gmap string bytes -> gmap string bytes) (w : World) :=
  {| files := f (files w); unwritable := unwritable w;
     disk_full := disk_full w; rng := rng w; trace := trace w |}.
Definition set_rng (r : RandomNumberGenerator) (w : World) :=
  {| files := files w; unwritable := unwritable w;
     disk_full := disk_full w; rng := r; trace := trace w |}.
Definition add_event (e : event) (w : World) :=
  {| files := files w; unwritable := unwritable w;
     disk_full := disk_full w; rng := rng w; trace := trace w ++ [e] |}.

Definition M (A : Type) : Type := World -> flow A * World.

Global Instance M_ret : MRet M := fun A a w => (Next a, w).
Global Instance M_bind : MBind M := fun A B k m w =>
  match m w with
  | (Next a, w') => k a w'
  | (Return b, w') => (Return b, w')
  | (Throw e, w') => (Throw e, w')
  end.

Definition return_ {A} (b : bool) : M A := fun w => (Return b, w).
Definition throw {A} (e : exception) : M A := fun w => (Throw e, w).
Definition get_world : M World := fun w => (Next w, w).
Definition err_print (op : operation) (m : message) : M unit :=
  fun w => (Next tt, add_event (ERR_PRINT op m) w).

(** A value of the primitive library, or its exception thrown. *)
Definition lift {A} (r : result A) : M A :=
  match r with
  | Val a => mret a
  | Exc e => throw e
  end.

(** [try { body } catch (E& e) { handler }], [catches] telling which
    exceptions are of class [E]. *)
Definition try_catch {A} (body : M A) (catches : exception -> bool)
           (handler : exception -> M A) : M A :=
  fun w => match body w with
           | (Throw e, w') => if catches e then handler e w' else (Throw e, w')
           | r => r
           end.

Definition is_Decoding_Error (e : exception) : bool :=
  bool_decide (e = Decoding_Error).
Definition is_std_exception (e : exception) : bool := true.

(** [when c body]: [if (c) { body }]. *)
Definition when (c : bool) (body : M unit) : M unit :=
  if c then body else mret tt.

(** The result of a function whose body is [m] followed by
    [return true]. *)
Definition run_function (m : M unit) (w : World) : bool * World :=
  match m w with
  | (Next _, w') => (true, w')
  | (Return b, w') => (b, w')
  | (Throw _, w') => (false, w')
  end.

End World.

(** ** Streams *)

Section Streams.
Context `{Botan}.

(** [std::ofstream]: the path it writes, whether it is open, its fail
    bit and its put position. Written octets reach the file at once. *)
Record ofstream := {
  of_path : string;
  of_open : bool;
  of_fail : bool;
  of_pos : N
}.

(** [std::ofstream outfile(path, std::ios::out | std::ios::binary)]:
    creates the file, or truncates it, unless the path is unwritable. *)
Definition ofstream_open (path : string) : M ofstream := fun w =>
  if bool_decide (path ∈ unwritable w) then
    (Next {| of_path := path; of_open := false; of_fail := true; of_pos := 0 |}, w)
  else
    (Next {| of_path := path; of_open := true; of_fail := false; of_pos := 0 |},
     set_files (<[path := []]>) w).

Definition good (o : ofstream) : bool := negb (of_fail o).
Definition is_open (o : ofstream) : bool := of_open o.
Definition fail (o : ofstream) : bool := of_fail o.

(** [outfile.write(data, size)]. *)
Definition write (o : ofstream) (data : bytes) : M ofstream := fun w =>
  if of_fail o then (Next o, w)
  else if disk_full w && negb (bool_decide (data = [])) then
    (Next {| of_path := of_path o; of_open := of_open o; of_fail := true;
             of_pos := of_pos o |}, w)
  else
    (Next {| of_path := of_path o; of_open := of_open o; of_fail := false;
             of_pos := of_pos o + N.of_nat (length data) |},
     set_files (alter (fun c => c ++ data) (of_path o)) w).

(** [outfile.tellp()] as a [uint64_t]: the position, or -1 on failure. *)
Definition tellp (o : ofstream) : N :=
  if of_fail o then 2^64 - 1 else of_pos o mod 2^64.

(** [Botan::DataSource_Stream input(path, true)]: the octets still to
    be read; the constructor throws when the file cannot be opened. *)
Definition DataSource_Stream (path : string) : M bytes := fun w =>
  match files w !! path with
  | Some content => (Next content, w)
  | None => (Throw Stream_IO_Error, w)
  end.

(** [decoder] applied to a source: the value and the source after it. *)
Definition decode {A} (d : decoder A) (source : bytes) : M (A * bytes) :=
  lift (d source).

Definition system_random_vec (n : nat) : M bytes := fun w =>
  let '(v, r) := random_vec (rng w) n in (Next v, set_rng r w).

Fixpoint foldM {S A} (f : S -> A -> M S) (s : S) (l : list A) : M S :=
  match l with
  | [] => mret s
  | a :: l' => s' ← f s a; foldM f s' l'
  end.

End Streams.

(** ** IOUtil *)

Module IOUtil.
Section IOUtil.
Context `{Constants} `{Botan}.

(** Modelled from the spec: [IOUtil::file_exists], which is not among
    the sources; the file at the path is present. *)
Definition file_exists (path : string) : M bool := fun w =>
  (Next (bool_decide (is_Some (files w !! path))), w).

(** Modelled from the spec: [IOUtil::remove], which is not among the
    sources; removes the file at the path and tells whether it did. *)
Definition remove (path : string) : M bool := fun w =>
  (Next (bool_decide (is_Some (files w !! path))),
   set_files (delete path) w).

(** The reads of one stream: every full buffer that does not reach the
    end of the data is not final; the read that reaches it, possibly of
    no octets, is final. *)
Definition chunks (data : bytes) : list (bytes * bool) :=
  let q := (length data / buffer_size)%nat in
  map (fun i => (take buffer_size (drop (i * buffer_size) data), false))
      (seq 0 q)
  ++ [(drop (q * buffer_size) data, true)].

(** Modelled from the spec: [IOUtil::read_stream], which is not among
    the sources; reads into a buffer of [buffer_size] octets, invokes
    the sink with [is_final = false] for each non-final read and with
    [is_final = true] exactly once at the end of the data, and returns
    the total of octets read. *)
Definition read_stream {S} (input : bytes)
           (consumer_fn : S -> bytes -> bool -> M S) (s : S) : M (Z * S) :=
  s' ← foldM (fun s c => consumer_fn s c.1 c.2) s (chunks input);
  mret (Z.of_nat (length input), s').

(** Modelled from the spec: [IOUtil::read_file], which is not among the
    sources; [read_stream] over the file, or a negative value when the
    file cannot be read. *)
Definition read_file {S} (input_file : string)
           (consumer_fn : S -> bytes -> bool -> M S) (s : S) : M (Z * S) :=
  w ← get_world;
  match files w !! input_file with
  | Some content => read_stream content consumer_fn s
  | None => mret ((-1)%Z, s)
  end.

End IOUtil.
End IOUtil.

(** ** Cipherpack *)

Section Cipherpack.
Context `{Constants} `{Botan} `{DER_Encoder}.

(** Modelled from the spec: [Cipherpack::load_public_key], which is not
    among the sources; the key parsed from the file, or null. *)
Definition load_public_key (pubkey_fname : string) : M (option Public_Key) :=
  fun w => (Next (files w !! pubkey_fname ≫= public_key_of), w).

(** Modelled from the spec: [Cipherpack::load_private_key], which is
    not among the sources; the key parsed from the file under the
    passphrase, or null. *)
Definition load_private_key (privatekey_fname passphrase : string)
  : M (option Private_Key) :=
  fun w => (Next (files w !! privatekey_fname
                    ≫= fun c => private_key_of c passphrase), w).

Definition encrypt (enc_pub_key : Public_Key) (eme : string) (msg : bytes)
  : M bytes := fun w =>
  match pk_encrypt enc_pub_key eme msg (rng w) with
  | (Val c, r) => (Next c, set_rng r w)
  | (Exc e, r) => (Throw e, set_rng r w)
  end.

Definition sign (sign_sec_key : Private_Key) (emsa : string) (msg : bytes)
  : M bytes := fun w =>
  let '(s, r) := sign_message sign_sec_key emsa msg (rng w) in
  (Next s, set_rng r w).

(** [PK_Decryptor::decrypt_or_random]: a random vector of the expected
    length is drawn first and returned in place of the plaintext when
    the ciphertext does not unpad to that length. *)
Definition decrypt_or_random (dec_sec_key : Private_Key) (eme : string)
           (ciphertext : bytes) (expected_pt_len : nat) : M bytes :=
  fake_pms ← system_random_vec expected_pt_len;
  match pk_decrypt dec_sec_key eme ciphertext with
  | Some decoded =>
      if (length decoded =? expected_pt_len)%nat then mret decoded
      else mret fake_pms
  | None => mret fake_pms
  end.

(** [AEAD_Mode::create_or_throw]. *)
Definition create_or_throw (algo : string) (dir : Cipher_Dir)
  : M (option AEAD_Mode) :=
  match AEAD_create algo dir with
  | Some aead => mret (Some aead)
  | None => throw Lookup_Error
  end.

(** The fields of Header-1, in their order on the wire. *)
Record Header1 := {
  h_package_magic : bytes;
  h_header1_size_buffer : bytes;
  h_filename : bytes;
  h_payload_version : N;
  h_payload_version_parent : N;
  h_sign_algo : bytes;
  h_pk_alg_id : AlgorithmIdentifier;
  h_cipher_algo_oid : OID;
  h_encrypted_key : bytes;
  h_nonce : bytes
}.

(** The [DER_Encoder] chain of both encode passes. *)
Definition encode_header1 (h : Header1) : bytes :=
  encode_sequence
    [ encode_octets (h_package_magic h);
      encode_octets (h_header1_size_buffer h);
      encode_octets (h_filename h);
      encode_integer (h_payload_version h);
      encode_integer (h_payload_version_parent h);
      encode_octets (h_sign_algo h);
      encode_alg_id (h_pk_alg_id h);
      encode_oid (h_cipher_algo_oid h);
      encode_octets (h_encrypted_key h);
      encode_octets (h_nonce h) ].

Definition encode_header2 (signature : bytes) : bytes :=
  encode_sequence [encode_octets signature].

(** The snoop of Header-1: the package magic and the size field. *)
Definition snoop_header1 : decoder (bytes * bytes) :=
  dbind start_sequence (fun content =>
    within content
      (dbind decode_octets (fun package_magic_charvec =>
       dbind decode_octets (fun header1_size_buffer =>
       dret (package_magic_charvec, header1_size_buffer))))).

(** The [BER_Decoder] chain over the Header-1 buffer. *)
Definition decode_header1 : decoder Header1 :=
  dbind start_sequence (fun content =>
    within content
      (dbind decode_octets (fun package_magic_charvec =>
       dbind decode_octets (fun header1_size_buffer_dummy =>
       dbind decode_octets (fun filename_charvec =>
       dbind decode_integer (fun payload_version =>
       dbind decode_integer (fun payload_version_parent =>
       dbind decode_octets (fun sign_algo_charvec =>
       dbind decode_alg_id (fun pk_alg_id =>
       dbind decode_oid (fun cipher_algo_oid =>
       dbind decode_octets (fun encrypted_key =>
       dbind decode_octets (fun nonce =>
       end_cons
         {| h_package_magic := package_magic_charvec;
            h_header1_size_buffer := header1_size_buffer_dummy;
            h_filename := filename_charvec;
            h_payload_version := payload_version;
            h_payload_version_parent := payload_version_parent;
            h_sign_algo := sign_algo_charvec;
            h_pk_alg_id := pk_alg_id;
            h_cipher_algo_oid := cipher_algo_oid;
            h_encrypted_key := encrypted_key;
            h_nonce := nonce |})))))))))))).

(** The [BER_Decoder] chain over Header-2; the payload follows. *)
Definition decode_header2 : decoder bytes :=
  dbind start_sequence (fun content => within content decode_octets).

(** What the payload sink carries from chunk to chunk. *)
Record sink_state := {
  st_aead : AEAD_Mode;
  st_outfile : ofstream;
  st_out_bytes_payload : N
}.

(** The [consume_data] closure of both operations. *)
Definition consume_data (s : sink_state) (data : bytes) (is_final : bool)
  : M sink_state :=
  if negb is_final then
    let '(data', aead') := update (st_aead s) data in
    outfile ← write (st_outfile s) data';
    mret {| st_aead := aead'; st_outfile := outfile;
            st_out_bytes_payload :=
              (st_out_bytes_payload s + N.of_nat (length data')) mod 2^64 |}
  else
    data' ← lift (finish (st_aead s) data);
    outfile ← write (st_outfile s) data';
    mret {| st_aead := st_aead s; st_outfile := outfile;
            st_out_bytes_payload :=
              (st_out_bytes_payload s + N.of_nat (length data')) mod 2^64 |}.

(** The guard on the output file at the head of both operations. *)
Definition check_output (op : operation) (outfilename : string)
           (overwrite : bool) : M unit :=
  exists_ ← IOUtil.file_exists outfilename;
  when exists_
    (if overwrite then
       removed ← IOUtil.remove outfilename;
       when (negb removed)
         (err_print op Failed_deletion_of_existing_output;; return_ false)
     else
       err_print op Not_overwriting_existing_output;; return_ false).

Definition open_output (op : operation) (outfilename : string) : M ofstream :=
  outfile ← ofstream_open outfilename;
  when (negb (good outfile) || negb (is_open outfile))
    (err_print op Output_file_not_open;; return_ false);;
  mret outfile.

(** *** Encrypt

    [Cipherpack::encryptThenSign_RSA1], its body in the order of the
    source: keys and algorithms, key material and AEAD start, the two
    headers, the payload. *)

(** What the set-up leaves for the headers and the payload. *)
Record encrypt_setup := {
  es_sign_sec_key : Private_Key;
  es_pk_alg_id : AlgorithmIdentifier;
  es_cipher_algo_oid : OID;
  es_file_key : bytes;
  es_encrypted_key : bytes;
  es_nonce : bytes;
  es_aead : AEAD_Mode
}.

(** Keys, AEAD and OIDs, the file key and its wrapping, the nonce, and
    the start of the AEAD. *)
Definition encrypt_prepare (enc_pub_key_fname sign_sec_key_fname passphrase
                              : string) : M encrypt_setup :=
  enc_pub_key ← load_public_key enc_pub_key_fname;
  match enc_pub_key with
  | None => return_ false
  | Some enc_pub_key =>
  sign_sec_key ← load_private_key sign_sec_key_fname passphrase;
  match sign_sec_key with
  | None => return_ false
  | Some sign_sec_key =>
  match AEAD_create aead_cipher_algo ENCRYPTION with
  | None => err_print Encrypt AEAD_algo_not_available;; return_ false
  | Some aead =>
  cipher_algo_oid ← lift (OID_from_string aead_cipher_algo);
  when (bool_decide (cipher_algo_oid = []))
    (err_print Encrypt No_OID_for_cipher_algo;; return_ false);;
  hash_oid ← lift (OID_from_string rsa_hash_algo);
  let hash_id := {| alg_oid := hash_oid; alg_parameters := [] |} in
  pk_oid ← lift (OID_from_string ("RSA/" +:+ rsa_padding_algo));
  let pk_alg_id :=
    {| alg_oid := pk_oid; alg_parameters := encode_alg_id hash_id |} in
  let eme := rsa_padding_algo +:+ "(" +:+ rsa_hash_algo +:+ ")" in
  file_key ← system_random_vec (maximum_keylength aead);
  encrypted_key ← encrypt enc_pub_key eme file_key;
  nonce ← system_random_vec ChaCha_Nonce_Size;
  aead ← lift (start (set_associated_data_vec (set_key aead file_key)
                                              encrypted_key) nonce);
  mret {| es_sign_sec_key := sign_sec_key;
          es_pk_alg_id := pk_alg_id;
          es_cipher_algo_oid := cipher_algo_oid;
          es_file_key := file_key;
          es_encrypted_key := encrypted_key;
          es_nonce := nonce;
          es_aead := aead |}
  end end end.

(** Header-1 as both passes build it, for a given size field. *)
Definition make_header1 (data_fname : string) (es : encrypt_setup)
           (header1_size_buffer : bytes) : Header1 :=
  let payload_version := 1 in
  let payload_version_parent := 0 in
  {| h_package_magic := list_byte_of_string package_magic;
     h_header1_size_buffer := header1_size_buffer;
     h_filename := list_byte_of_string data_fname;
     h_payload_version := payload_version;
     h_payload_version_parent := payload_version_parent;
     h_sign_algo := list_byte_of_string rsa_sign_algo;
     h_pk_alg_id := es_pk_alg_id es;
     h_cipher_algo_oid := es_cipher_algo_oid es;
     h_encrypted_key := es_encrypted_key es;
     h_nonce := es_nonce es |}.

(** The two passes over Header-1: the first measures, the second
    carries the measured size. *)
Definition header1_pass1 (data_fname : string) (es : encrypt_setup) : bytes :=
  encode_header1 (make_header1 data_fname es (replicate 4 x00)).

Definition header1_pass2 (data_fname : string) (es : encrypt_setup) : bytes :=
  let header1_size_buffer := replicate 4 x00 in
  let header_buffer := header1_pass1 data_fname es in
  let header1_size := to_uint32 (length header_buffer) in
  let header1_size_buffer := put_uint32 header1_size_buffer 0 header1_size in
  encode_header1 (make_header1 data_fname es header1_size_buffer).

(** Header-1 and Header-2 written; the stream and the header octets
    counted. *)
Definition encrypt_headers (data_fname : string) (es : encrypt_setup)
           (outfile : ofstream) : M (ofstream * N) :=
  let header_buffer := header1_pass2 data_fname es in
  outfile ← write outfile header_buffer;
  let out_bytes_header := N.of_nat (length header_buffer) mod 2^64 in
  signature ← sign (es_sign_sec_key es) rsa_sign_algo header_buffer;
  let header_buffer := encode_header2 signature in
  outfile ← write outfile header_buffer;
  let out_bytes_header :=
    (out_bytes_header + N.of_nat (length header_buffer)) mod 2^64 in
  mret (outfile, out_bytes_header).

(** The payload streamed through the AEAD into the output. *)
Definition encrypt_payload (data_fname outfilename : string)
           (aead : AEAD_Mode) (outfile : ofstream) (out_bytes_header : N)
  : M unit :=
  let out_bytes_total := tellp outfile in
  when (negb (out_bytes_header =? out_bytes_total))
    (err_print Encrypt Header_bytes_differ_from_total);;
  '(in_bytes_total, st) ←
    IOUtil.read_file data_fname consume_data
      {| st_aead := aead; st_outfile := outfile; st_out_bytes_payload := 0 |};
  if (in_bytes_total <? 0)%Z || fail (st_outfile st) then
    err_print Encrypt Output_file_write_failed;;
    IOUtil.remove outfilename;;
    return_ false
  else
    let out_bytes_total := tellp (st_outfile st) in
    when (negb ((out_bytes_header + st_out_bytes_payload st) mod 2^64
                =? out_bytes_total))
      (err_print Encrypt Written_bytes_differ_from_total).

Definition encryptThenSign_RSA1
           (enc_pub_key_fname sign_sec_key_fname passphrase
              data_fname outfilename : string) (overwrite : bool)
  : World -> bool * World :=
  run_function (
    check_output Encrypt outfilename overwrite;;
    outfile ← open_output Encrypt outfilename;
    try_catch (
      es ← encrypt_prepare enc_pub_key_fname sign_sec_key_fname passphrase;
      '(outfile, out_bytes_header) ← encrypt_headers data_fname es outfile;
      encrypt_payload data_fname outfilename (es_aead es) outfile
                      out_bytes_header)
      is_std_exception
      (fun e =>
         err_print Encrypt (Caught_exception e);;
         IOUtil.remove outfilename;;
         return_ false)).

(** *** Decrypt

    [Cipherpack::checkSignThenDecrypt_RSA1], its body in the order of
    the source: keys, the snoop of the Header-1 size, both headers and
    the signature, the checks of the header fields, the payload. *)

(** A fatal error of decrypt: the message, the output removed, the
    function left with [false]. *)
Definition failed {A} (outfilename : string) (m : message) : M A :=
  err_print Decrypt m;; IOUtil.remove outfilename;; return_ false.

(** DER-Header-1 snoop: the declared size of Header-1. *)
Definition decrypt_snoop (data_fname outfilename : string) : M N :=
  try_catch (
    input ← DataSource_Stream data_fname;
    '(package_magic_charvec, header1_size_buffer, _) ←
      decode snoop_header1 input;
    let s := string_of_list_byte package_magic_charvec in
    when (bool_decide (s = "")) (failed outfilename Unknown_package_magic);;
    when (bool_decide (s ≠ package_magic))
      (failed outfilename Expected_package_magic);;
    when (bool_decide (4%nat ≠ length header1_size_buffer))
      (failed outfilename Expected_header1_size_element_of_4_bytes);;
    mret (get_uint32 header1_size_buffer 0))
    is_Decoding_Error
    (fun e => failed outfilename Header1a_invalid_input_file_format).

(** DER-Header-1 read into memory and decoded, DER-Header-2 decoded from
    the stream, the signature checked over the octets read. The decoded
    header and the stream at the payload are left. *)
Definition decrypt_headers (sign_pub_key : Public_Key)
           (outfilename : string) (header1_size : N) (input : bytes)
  : M (Header1 * bytes) :=
  try_catch (
    let header_buffer := take (N.to_nat header1_size) input in
    let input := drop (N.to_nat header1_size) input in
    let header1_size_read := N.of_nat (length header_buffer) in
    when (negb (header1_size_read =? header1_size))
      (failed outfilename Expected_header1_size);;
    '(h, _) ← decode decode_header1 header_buffer;
    '(signature, input) ← decode decode_header2 input;
    when (negb (check_signature sign_pub_key rsa_sign_algo
                                header_buffer signature))
      (failed outfilename Signature_mismatch);;
    mret (h, input))
    is_Decoding_Error
    (fun e => failed outfilename Invalid_input_file_format).

(** The checks of the decoded fields; the name of the cipher is left. *)
Definition decrypt_validate (outfilename : string) (h : Header1) : M string :=
  when (bool_decide (string_of_list_byte (h_filename h) = ""))
    (failed outfilename Unknown_filename);;
  let sign_algo := string_of_list_byte (h_sign_algo h) in
  when (bool_decide (sign_algo = ""))
    (failed outfilename Unknown_signing_algo);;
  when (bool_decide (sign_algo ≠ rsa_sign_algo))
    (failed outfilename Expected_signing_algo);;
  let padding_combo := "RSA/" +:+ rsa_padding_algo in
  let pk_algo_str := oid2str_or_empty (alg_oid (h_pk_alg_id h)) in
  when (bool_decide (pk_algo_str ≠ padding_combo))
    (failed outfilename Expected_encryption_padding_algo);;
  '(hash_algo_id, _) ←
    decode decode_alg_id (alg_parameters (h_pk_alg_id h));
  let hash_algo := oid2str_or_empty (alg_oid hash_algo_id) in
  when (bool_decide (hash_algo = ""))
    (failed outfilename Unknown_hash_function);;
  when (bool_decide (hash_algo ≠ rsa_hash_algo))
    (failed outfilename Expected_hash_function);;
  when (negb (bool_decide (alg_parameters hash_algo_id = [])))
    (failed outfilename Unknown_hash_function_parameter);;
  let cipher_algo := oid2str_or_empty (h_cipher_algo_oid h) in
  when (bool_decide (cipher_algo = ""))
    (failed outfilename Unknown_encryption_algo);;
  when (bool_decide (cipher_algo ≠ aead_cipher_algo))
    (failed outfilename Expected_encryption_algo);;
  mret cipher_algo.

(** The key unwrapped, the AEAD started, the payload streamed into the
    output. *)
Definition decrypt_payload (dec_sec_key : Private_Key)
           (outfilename : string) (h : Header1) (cipher_algo : string)
           (input : bytes) (outfile : ofstream) : M unit :=
  aead ← create_or_throw cipher_algo DECRYPTION;
  match aead with
  | None => err_print Decrypt Cipher_algo_not_available;; return_ false
  | Some aead =>
  let expected_keylen := maximum_keylength aead in
  let eme := rsa_padding_algo +:+ "(" +:+ rsa_hash_algo +:+ ")" in
  file_key ← decrypt_or_random dec_sec_key eme (h_encrypted_key h)
                               expected_keylen;
  aead ← lift (start (set_associated_data_vec (set_key aead file_key)
                                              (h_encrypted_key h))
                     (h_nonce h));
  '(in_bytes_total, st) ←
    IOUtil.read_stream input consume_data
      {| st_aead := aead; st_outfile := outfile; st_out_bytes_payload := 0 |};
  if (in_bytes_total <? 0)%Z || fail (st_outfile st) then
    failed outfilename Output_file_write_failed
  else
    let out_bytes_total := tellp (st_outfile st) in
    when (negb (st_out_bytes_payload st =? out_bytes_total))
      (err_print Decrypt Written_bytes_differ_from_total)
  end.

Definition checkSignThenDecrypt_RSA1
           (sign_pub_key_fname dec_sec_key_fname passphrase
              data_fname outfilename : string) (overwrite : bool)
  : World -> bool * World :=
  run_function (
    check_output Decrypt outfilename overwrite;;
    outfile ← open_output Decrypt outfilename;
    try_catch (
      sign_pub_key ← load_public_key sign_pub_key_fname;
      match sign_pub_key with
      | None => return_ false
      | Some sign_pub_key =>
      dec_sec_key ← load_private_key dec_sec_key_fname passphrase;
      match dec_sec_key with
      | None => return_ false
      | Some dec_sec_key =>
      header1_size ← decrypt_snoop data_fname outfilename;
      input ← DataSource_Stream data_fname;
      '(h, input) ← decrypt_headers sign_pub_key outfilename header1_size input;
      cipher_algo ← decrypt_validate outfilename h;
      decrypt_payload dec_sec_key outfilename h cipher_algo input outfile
      end end)
      is_std_exception
      (fun e => failed outfilename (Caught_exception e))).

End Cipherpack.

(** ** A sample instance

    A small, executable instance of the constants and of the primitive
    library, on which the operations can be run. Its "RSA" prefixes the
    reversed message with the key, its signature is the key followed by
    the reversed message, and its AEAD is an additive stream cipher with
    a two-octet running checksum as tag, which, like a streaming
    ChaCha20Poly1305, needs the whole tag in the final buffer. *)

Module Sample.

Definition constants : Constants := {|
  package_magic := "ZAF_ELEVATOR_0002";
  rsa_sign_algo := "EMSA1(SHA-256)";
  rsa_padding_algo := "OAEP";
  rsa_hash_algo := "SHA-256";
  aead_cipher_algo := "ChaCha20Poly1305";
  ChaCha_Nonce_Size := 12;
  buffer_size := 16
|}.

(** The registry: names and the content octets of their OIDs. *)
Definition oid_table : list (string * OID) :=
  [ ("RSA/OAEP", [x2a; x86; x48; x86; xf7; x0d; x01; x01; x07]);
    ("SHA-256", [x60; x86; x48; x01; x65; x03; x04; x02; x01]);
    ("ChaCha20Poly1305",
     [x2a; x86; x48; x86; xf7; x0d; x01; x09; x10; x03; x12]) ].

Definition str2oid (s : string) : result OID :=
  match list_find (fun e => e.1 = s) oid_table with
  | Some (_, (_, o)) => Val o
  | None => Exc Lookup_Error
  end.

Definition oid2str (o : OID) : string :=
  match list_find (fun e => e.2 = o) oid_table with
  | Some (_, (s, _)) => s
  | None => ""
  end.

Definition sum_bytes (bs : bytes) : N :=
  fold_left (fun acc b => acc + Byte.to_N b) bs 0.

(** A key file holds a one-octet kind, ['P'] or ['S'], and the key. *)
Definition parse_public (c : bytes) : option bytes :=
  match c with
  | x50 :: k => Some k
  | _ => None
  end.
Definition parse_private (c : bytes) (passphrase : string) : option bytes :=
  match c with
  | x53 :: k => Some k
  | _ => None
  end.

Definition prng (r : N) (n : nat) : bytes * N :=
  (map (fun i => u8 (r * 251 + 17 * N.of_nat i + 3)) (seq 0 n),
   r + N.of_nat n + 1).

Definition wrap (pk : bytes) (eme : string) (msg : bytes) (r : N)
  : result bytes * N :=
  (Val (pk ++ rev msg), r).

Definition unwrap (sk : bytes) (eme : string) (c : bytes) : option bytes :=
  if bool_decide (take (length sk) c = sk)
  then Some (rev (drop (length sk) c))
  else None.

Definition make_signature (sk : bytes) (emsa : string) (msg : bytes) (r : N)
  : bytes * N :=
  (sk ++ rev msg, r).

Definition verify (vk : bytes) (emsa : string) (msg sig : bytes) : bool :=
  bool_decide (sig = vk ++ rev msg).

Record aead := {
  a_dir : Cipher_Dir;
  a_key : bytes;
  a_ad : bytes;
  a_nonce : bytes;
  a_pos : N;
  a_mac : N
}.

Definition tag_size : nat := 2.

Definition keystream (a : aead) (j : N) : N :=
  (sum_bytes (a_key a) + 3 * sum_bytes (a_nonce a) + 7 * j + 1) mod 256.

Definition mac_step (m : N) (c : byte) : N :=
  (m * 31 + Byte.to_N c + 1) mod 65521.

Definition tag_of (a : aead) : bytes :=
  let m := (a_mac a + 257 * sum_bytes (a_key a)) mod 65536 in
  [u8 (m / 256); u8 m].

(** One buffer through the cipher; the checksum runs over ciphertext. *)
Fixpoint process (a : aead) (data : bytes) : bytes * aead :=
  match data with
  | [] => ([], a)
  | b :: data' =>
      let k := keystream a (a_pos a) in
      let out := match a_dir a with
                 | ENCRYPTION => u8 (Byte.to_N b + k)
                 | DECRYPTION => u8 (Byte.to_N b + 256 - k)
                 end in
      let c := match a_dir a with ENCRYPTION => out | DECRYPTION => b end in
      let a' := {| a_dir := a_dir a; a_key := a_key a; a_ad := a_ad a;
                   a_nonce := a_nonce a; a_pos := a_pos a + 1;
                   a_mac := mac_step (a_mac a) c |} in
      let '(outs, a'') := process a' data' in
      (out :: outs, a'')
  end.

Definition aead_create (name : string) (dir : Cipher_Dir) : option aead :=
  if bool_decide (name = "ChaCha20Poly1305") then
    Some {| a_dir := dir; a_key := []; a_ad := []; a_nonce := [];
            a_pos := 0; a_mac := 0 |}
  else None.

Definition aead_set_key (a : aead) (k : bytes) : aead :=
  {| a_dir := a_dir a; a_key := k; a_ad := a_ad a; a_nonce := a_nonce a;
     a_pos := a_pos a; a_mac := a_mac a |}.

Definition aead_set_ad (a : aead) (ad : bytes) : aead :=
  {| a_dir := a_dir a; a_key := a_key a; a_ad := ad; a_nonce := a_nonce a;
     a_pos := a_pos a; a_mac := a_mac a |}.

Definition aead_start (a : aead) (nonce : bytes) : result aead :=
  if (length nonce =? 12)%nat then
    Val {| a_dir := a_dir a; a_key := a_key a; a_ad := a_ad a;
           a_nonce := nonce; a_pos := 0;
           a_mac := fold_left mac_step (a_ad a) 7 |}
  else Exc Invalid_Argument.

Definition aead_finish (a : aead) (data : bytes) : result bytes :=
  match a_dir a with
  | ENCRYPTION =>
      let '(out, a') := process a data in Val (out ++ tag_of a')
  | DECRYPTION =>
      if (length data <? tag_size)%nat then Exc Invalid_Argument
      else
        let remaining := (length data - tag_size)%nat in
        let '(out, a') := process a (take remaining data) in
        if bool_decide (drop remaining data = tag_of a') then Val out
        else Exc Invalid_Authentication_Tag
  end.

Definition botan : Botan := {|
  Public_Key := bytes;
  Private_Key := bytes;
  RandomNumberGenerator := N;
  AEAD_Mode := aead;
  public_key_of := parse_public;
  private_key_of := parse_private;
  random_vec := prng;
  OID_from_string := str2oid;
  oid2str_or_empty := oid2str;
  pk_encrypt := wrap;
  pk_decrypt := unwrap;
  sign_message := make_signature;
  check_signature := verify;
  AEAD_create := aead_create;
  maximum_keylength := fun _ => 32%nat;
  set_key := aead_set_key;
  set_associated_data_vec := aead_set_ad;
  start := aead_start;
  update := process;
  finish := aead_finish
|}.

(** A world with an encryption key pair ([enc.pub], [enc.sec]), a
    signing key pair ([sign.pub], [sign.sec]), a second private key
    ([other.sec]) and a plaintext ([data]). *)
Definition key1 : bytes := [x11; x22; x33].
Definition key2 : bytes := [x44; x55].
Definition key3 : bytes := [x66; x77; x88].

Definition world (plaintext : bytes) : @World botan :=
  @Build_World botan
    (list_to_map
       [ ("enc.pub", x50 :: key1); ("enc.sec", x53 :: key1);
         ("sign.pub", x50 :: key2); ("sign.sec", x53 :: key2);
         ("other.sec", x53 :: key3);
         ("data", plaintext) ])
    ∅ false 5 [].

Definition encrypted (plaintext : bytes) : bool * @World botan :=
  @encryptThenSign_RSA1 constants botan Botan_DER
    "enc.pub" "sign.sec" "" "data" "data.enc" false (world plaintext).

Definition decrypted (w : @World botan) : bool * @World botan :=
  @checkSignThenDecrypt_RSA1 constants botan
    "sign.pub" "enc.sec" "" "data.enc" "data.out" false w.

End Sample.


(** * Properties *)

(** ** Octets and numbers *)

Section OctetFacts.

Lemma to_N_u8 (n : N) : Byte.to_N (u8 n) = n mod 256.
Proof.
unfold u8. destruct (Byte.of_N (n mod 256)) as [b|] eqn:E.
- by apply Byte.to_of_N.
- apply Byte.of_N_None_iff in E.
  pose proof (N.mod_upper_bound n 256). lia.
Qed.

Lemma to_N_lt (b : byte) : Byte.to_N b < 256.
Proof. pose proof (Byte.to_N_bounded b). lia. Qed.

Lemma u8_to_N (b : byte) : u8 (Byte.to_N b) = b.
Proof.
unfold u8. rewrite N.mod_small by apply to_N_lt.
by rewrite Byte.of_to_N.
Qed.

Lemma be_fold_acc (l : bytes) (acc : N) :
fold_left (fun acc b => acc * 256 + Byte.to_N b) l acc
= acc * 256 ^ N.of_nat (length l) + be_value l.
Proof.
unfold be_value. revert acc. induction l as [|x l IH]; intros acc.
- simpl. lia.
- cbn [fold_left length]. rewrite IH, (IH (0 * 256 + _)).
  replace (N.of_nat (S (length l))) with (N.succ (N.of_nat (length l))) by lia.
  rewrite N.pow_succ_r'. lia.
Qed.

Lemma be_value_app (a b : bytes) :
be_value (a ++ b) = be_value a * 256 ^ N.of_nat (length b) + be_value b.
Proof.
unfold be_value at 1. rewrite fold_left_app, be_fold_acc. reflexivity.
Qed.

Lemma le_digits_value (fuel : nat) (n : N) :
n < 2 ^ N.of_nat fuel -> be_value (rev (le_digits fuel n)) = n.
Proof.
revert n. induction fuel as [|f IH]; intros n Hn.
- simpl in *. assert (n = 0) by lia. subst. reflexivity.
- cbn [le_digits]. destruct (N.eqb_spec n 0) as [->|Hne]; [reflexivity|].
  cbn [rev]. rewrite be_value_app. cbn [length].
  rewrite IH.
  + unfold be_value at 1. simpl. rewrite to_N_u8.
    pose proof (N.div_mod n 256). lia.
  + replace (N.of_nat (S f)) with (N.succ (N.of_nat f)) in Hn by lia.
    rewrite N.pow_succ_r' in Hn.
    destruct (N.eq_dec (N.of_nat f) 0) as [E|E].
    * rewrite E in *. simpl in *. assert (n = 1) by lia. subst. reflexivity.
    * apply N.Div0.div_lt_upper_bound.
      assert (2 ^ N.of_nat f <= 128 * 2 ^ N.of_nat f) by lia. lia.
Qed.

Lemma size_nat_size (n : N) : N.of_nat (N.size_nat n) = N.size n.
Proof.
destruct n as [|p]; [reflexivity|]. simpl.
induction p as [p IH|p IH|]; simpl; try lia.
Qed.

Lemma be_value_be_bytes (n : N) : be_value (be_bytes n) = n.
Proof.
unfold be_bytes. apply le_digits_value.
rewrite size_nat_size. apply N.size_gt.
Qed.

Lemma le_digits_length (fuel : nat) (n : N) (k : nat) :
n < 256 ^ N.of_nat k -> (length (le_digits fuel n) <= k)%nat.
Proof.
revert n k. induction fuel as [|f IH]; intros n k Hn; [simpl; lia|].
cbn [le_digits]. destruct (N.eqb_spec n 0) as [->|Hne]; [simpl; lia|].
destruct k as [|k]; [simpl in Hn; lia|].
cbn [length]. apply le_n_S, IH.
replace (N.of_nat (S k)) with (N.succ (N.of_nat k)) in Hn by lia.
rewrite N.pow_succ_r' in Hn.
apply N.Div0.div_lt_upper_bound. lia.
Qed.

Lemma be_bytes_length (n : N) (k : nat) :
n < 256 ^ N.of_nat k -> (length (be_bytes n) <= k)%nat.
Proof.
intros Hn. unfold be_bytes. rewrite length_rev. by apply le_digits_length.
Qed.

Lemma be_bytes_nonempty (n : N) : n <> 0 -> be_bytes n <> [].
Proof.
intros Hn E. pose proof (be_value_be_bytes n) as Hv.
rewrite E in Hv. unfold be_value in Hv. simpl in Hv. congruence.
Qed.

End OctetFacts.

(** ** DER written is BER read back *)

Section DERFacts.

Lemma decode_encode_length (len : nat) (rest : bytes) :
N.of_nat len < 2 ^ 32 ->
decode_length (encode_length len ++ rest) = Val (len, rest).
Proof.
intros Hlen. unfold encode_length.
destruct (N.leb_spec (N.of_nat len) 127) as [Hs|Hl].
- cbn [app decode_length]. rewrite to_N_u8, N.mod_small by lia.
  destruct (N.ltb_spec (N.of_nat len) 128); [|lia].
  by rewrite Nat2N.id.
- set (bs := be_bytes (N.of_nat len)).
  assert (Hk : (length bs <= 4)%nat) by (apply be_bytes_length; simpl; lia).
  assert (Hne : bs <> []) by (apply be_bytes_nonempty; lia).
  assert (Hk0 : (0 < length bs)%nat) by (destruct bs; [done|simpl; lia]).
  cbn [app decode_length]. rewrite to_N_u8, N.mod_small by lia.
  destruct (N.ltb_spec (128 + N.of_nat (length bs)) 128); [lia|].
  replace (N.to_nat (128 + N.of_nat (length bs) - 128)) with (length bs) by lia.
  destruct (Nat.eqb_spec (length bs) 0); [lia|].
  destruct (Nat.ltb_spec 4 (length bs)); [lia|].
  rewrite length_app.
  destruct (Nat.ltb_spec (length bs + length rest) (length bs)); [lia|].
  rewrite take_app_length, drop_app_length.
  unfold bs. by rewrite be_value_be_bytes, Nat2N.id.
Qed.

Lemma encode_length_length_le (len : nat) :
(1 <= length (encode_length len))%nat.
Proof. unfold encode_length. destruct (_ <=? _); simpl; lia. Qed.

Lemma get_object_add_object (tag : byte) (content rest : bytes) :
N.of_nat (length content) < 2 ^ 32 ->
get_object tag (add_object tag content ++ rest) = Val (content, rest).
Proof.
intros Hlen. unfold add_object, get_object. cbn [app].
rewrite bool_decide_eq_true_2 by done.
rewrite <- app_assoc, decode_encode_length by done.
rewrite length_app.
destruct (Nat.ltb_spec (length content + length rest) (length content)); [lia|].
by rewrite take_app_length, drop_app_length.
Qed.

Lemma add_object_length (tag : byte) (c1 c2 : bytes) :
length c1 = length c2 ->
length (add_object tag c1) = length (add_object tag c2).
Proof. intros E. unfold add_object. cbn [length]. rewrite !length_app, E. done. Qed.

Lemma add_object_length_gt (tag : byte) (c : bytes) :
(length c < length (add_object tag c))%nat.
Proof. unfold add_object. cbn [length]. rewrite length_app. lia. Qed.

Lemma decode_der_octets (v rest : bytes) :
N.of_nat (length v) < 2 ^ 32 ->
decode_octets (der_octets v ++ rest) = Val (v, rest).
Proof. apply get_object_add_object. Qed.

Lemma decode_der_oid (o : OID) (rest : bytes) :
N.of_nat (length o) < 2 ^ 32 ->
decode_oid (der_oid o ++ rest) = Val (o, rest).
Proof. apply get_object_add_object. Qed.

Lemma be_value_cons0 (bs : bytes) : be_value (x00 :: bs) = be_value bs.
Proof. reflexivity. Qed.

Lemma decode_der_integer (n : N) (rest : bytes) :
n < 2 ^ 32 ->
decode_integer (der_integer n ++ rest) = Val (n, rest).
Proof.
intros Hn. unfold der_integer, decode_integer, dbind.
destruct (N.eqb_spec n 0) as [->|Hne]; [reflexivity|].
pose proof (be_bytes_length n 4 ltac:(simpl; lia)) as Hl.
pose proof (be_bytes_nonempty n Hne) as Hne'.
pose proof (be_value_be_bytes n) as Hv.
destruct (be_bytes n) as [|b bs] eqn:E; [done|].
destruct (N.leb_spec 128 (Byte.to_N b)) as [Hb|Hb].
- rewrite get_object_add_object by (simpl in *; lia).
  change (Byte.to_N x00) with 0. cbn [N.leb N.compare].
  rewrite be_value_cons0, Hv.
  destruct (N.leb_spec (2^32) n); [lia|]. reflexivity.
- rewrite get_object_add_object by (simpl in *; lia).
  destruct (N.leb_spec 128 (Byte.to_N b)); [lia|].
  rewrite Hv. destruct (N.leb_spec (2^32) n); [lia|]. reflexivity.
Qed.

Lemma decode_der_alg_id (a : AlgorithmIdentifier) (rest : bytes) :
N.of_nat (length (der_alg_id a)) < 2 ^ 32 ->
decode_alg_id (der_alg_id a ++ rest) = Val (a, rest).
Proof.
intros Hlen. unfold der_alg_id, der_sequence in *.
pose proof (add_object_length_gt SequenceCons
              (concat [der_oid (alg_oid a); alg_parameters a])) as Hc.
cbn [concat] in *. rewrite app_nil_r in *.
pose proof (add_object_length_gt ObjectId (alg_oid a)) as Ho.
rewrite length_app in Hc. fold (der_oid (alg_oid a)) in Ho.
unfold decode_alg_id, dbind, start_sequence.
rewrite get_object_add_object by (rewrite length_app; lia).
unfold within. rewrite decode_der_oid by lia.
by destruct a.
Qed.

Lemma decode_encode_header1 (h : Header1) (rest : bytes) :
N.of_nat (length (@encode_header1 Botan_DER h)) < 2 ^ 32 ->
h_payload_version h < 2 ^ 32 ->
h_payload_version_parent h < 2 ^ 32 ->
decode_header1 (@encode_header1 Botan_DER h ++ rest) = Val (h, rest).
Proof.
intros Hlen Hv Hp. unfold encode_header1 in *.
cbn [encode_sequence encode_octets encode_integer encode_alg_id encode_oid
     Botan_DER] in *.
unfold der_sequence in *.
match type of Hlen with
| context [add_object _ ?c] =>
    pose proof (add_object_length_gt SequenceCons c) as Hc
end.
cbn [concat] in *. rewrite ?app_nil_r in *.
pose proof (add_object_length_gt OctetString (h_package_magic h)).
pose proof (add_object_length_gt OctetString (h_header1_size_buffer h)).
pose proof (add_object_length_gt OctetString (h_filename h)).
pose proof (add_object_length_gt OctetString (h_sign_algo h)).
pose proof (add_object_length_gt ObjectId (h_cipher_algo_oid h)).
pose proof (add_object_length_gt OctetString (h_encrypted_key h)).
pose proof (add_object_length_gt OctetString (h_nonce h)).
fold (der_octets (h_package_magic h)) (der_octets (h_header1_size_buffer h))
     (der_octets (h_filename h)) (der_octets (h_sign_algo h))
     (der_oid (h_cipher_algo_oid h)) (der_octets (h_encrypted_key h))
     (der_octets (h_nonce h)) in *.
rewrite !length_app in Hc.
unfold decode_header1, dbind at 1, start_sequence.
rewrite get_object_add_object by (rewrite !length_app; lia).
unfold within, dbind.
rewrite decode_der_octets by lia.
rewrite decode_der_octets by lia.
rewrite decode_der_octets by lia.
rewrite decode_der_integer by lia.
rewrite decode_der_integer by lia.
rewrite decode_der_octets by lia.
rewrite decode_der_alg_id by lia.
rewrite decode_der_oid by lia.
rewrite decode_der_octets by lia.
rewrite <- (app_nil_r (der_octets (h_nonce h))).
rewrite decode_der_octets by lia.
cbn [end_cons]. by destruct h.
Qed.

Lemma snoop_encode_header1 (h : Header1) (rest : bytes) :
N.of_nat (length (@encode_header1 Botan_DER h)) < 2 ^ 32 ->
snoop_header1 (@encode_header1 Botan_DER h ++ rest)
= Val ((h_package_magic h, h_header1_size_buffer h), rest).
Proof.
intros Hlen. unfold encode_header1 in *.
cbn [encode_sequence encode_octets encode_integer encode_alg_id encode_oid
     Botan_DER] in *.
unfold der_sequence in *.
match type of Hlen with
| context [add_object _ ?c] =>
    pose proof (add_object_length_gt SequenceCons c) as Hc
end.
cbn [concat] in *.
pose proof (add_object_length_gt OctetString (h_package_magic h)).
pose proof (add_object_length_gt OctetString (h_header1_size_buffer h)).
fold (der_octets (h_package_magic h)) (der_octets (h_header1_size_buffer h)) in *.
rewrite !length_app in Hc.
unfold snoop_header1, dbind at 1, start_sequence.
rewrite get_object_add_object by (rewrite !length_app; lia).
unfold within, dbind.
rewrite decode_der_octets by lia.
rewrite decode_der_octets by lia.
reflexivity.
Qed.

Lemma decode_encode_header2 (signature rest : bytes) :
N.of_nat (length (@encode_header2 Botan_DER signature)) < 2 ^ 32 ->
decode_header2 (@encode_header2 Botan_DER signature ++ rest)
= Val (signature, rest).
Proof.
intros Hlen. unfold encode_header2 in *.
cbn [encode_sequence encode_octets Botan_DER] in *.
unfold der_sequence in *.
match type of Hlen with
| context [add_object _ ?c] =>
    pose proof (add_object_length_gt SequenceCons c) as Hc
end.
cbn [concat] in *. rewrite app_nil_r in *.
pose proof (add_object_length_gt OctetString signature).
fold (der_octets signature) in *.
unfold decode_header2, dbind, start_sequence.
rewrite get_object_add_object by lia.
unfold within.
rewrite <- (app_nil_r (der_octets signature)).
by rewrite decode_der_octets by lia.
Qed.

End DERFacts.

(** ** The size field *)

Section SizeFieldFacts.

Lemma put_uint32_length (buffer : bytes) (v : N) :
length buffer = 4%nat -> length (put_uint32 buffer 0 v) = 4%nat.
Proof.
intros Hl. unfold put_uint32. rewrite take_0. cbn [app length].
rewrite length_drop. lia.
Qed.

Lemma get_put_uint32 (buffer : bytes) (v : N) :
get_uint32 (put_uint32 buffer 0 v) 0 = v mod 2 ^ 32.
Proof.
unfold put_uint32, get_uint32. rewrite take_0, drop_0. cbn [app].
rewrite !to_N_u8.
change (2 ^ 8) with 256. change (2 ^ 16) with (256 * 256).
change (2 ^ 24) with (256 * 256 * 256).
change (2 ^ 32) with (256 * (256 * (256 * 256))).
rewrite <- !N.Div0.div_div.
rewrite !N.Div0.mod_mul_r. lia.
Qed.

Lemma to_uint32_small (n : nat) : N.of_nat n < 2 ^ 32 -> N.to_nat (to_uint32 n) = n.
Proof. intros H. unfold to_uint32. rewrite N.mod_small by done. lia. Qed.

End SizeFieldFacts.

(** ** Reasoning about statements *)

Section Logic.
Context `{Botan}.

(** The weakest precondition of a statement for three postconditions:
    on falling through, on returning, on throwing. *)
Definition wp {A} (m : M A) (QN : A -> World -> Prop)
           (QR : bool -> World -> Prop) (QT : exception -> World -> Prop)
           (w : World) : Prop :=
  match m w with
  | (Next a, w') => QN a w'
  | (Return b, w') => QR b w'
  | (Throw e, w') => QT e w'
  end.

Lemma wp_mono {A} (m : M A) QN QR QT (QN' : A -> World -> Prop)
      (QR' : bool -> World -> Prop) (QT' : exception -> World -> Prop) w :
  wp m QN QR QT w ->
  (forall a w', QN a w' -> QN' a w') ->
  (forall b w', QR b w' -> QR' b w') ->
  (forall e w', QT e w' -> QT' e w') ->
  wp m QN' QR' QT' w.
Proof. unfold wp. destruct (m w) as [[a|b|e] w']; eauto. Qed.

Lemma wp_ret {A} (a : A) (QN : A -> World -> Prop) (QR : bool -> World -> Prop) (QT : exception -> World -> Prop) w : QN a w -> wp (mret a) QN QR QT w.
Proof. done. Qed.

Lemma wp_bind {A B} (m : M A) (k : A -> M B) (QN : B -> World -> Prop) (QR : bool -> World -> Prop) (QT : exception -> World -> Prop) w :
  wp m (fun a w' => wp (k a) QN QR QT w') QR QT w ->
  wp (m ≫= k) QN QR QT w.
Proof.
  unfold wp, mbind, M_bind. destruct (m w) as [[a|b|e] w']; done.
Qed.

Lemma wp_return {A} (b : bool) (QN : A -> World -> Prop) (QR : bool -> World -> Prop) (QT : exception -> World -> Prop) w :
  QR b w -> wp (return_ b : M A) QN QR QT w.
Proof. done. Qed.

Lemma wp_throw {A} (e : exception) (QN : A -> World -> Prop) (QR : bool -> World -> Prop) (QT : exception -> World -> Prop) w :
  QT e w -> wp (throw e : M A) QN QR QT w.
Proof. done. Qed.

Lemma wp_lift {A} (r : result A) (QN : A -> World -> Prop) (QR : bool -> World -> Prop) (QT : exception -> World -> Prop) w :
  match r with Val a => QN a w | Exc e => QT e w end ->
  wp (lift r) QN QR QT w.
Proof. by destruct r. Qed.

Lemma wp_err_print op m (QN : unit -> World -> Prop) (QR : bool -> World -> Prop) (QT : exception -> World -> Prop) w :
  QN tt (add_event (ERR_PRINT op m) w) -> wp (err_print op m) QN QR QT w.
Proof. done. Qed.

Lemma wp_when (c : bool) (body : M unit) (QN : unit -> World -> Prop) (QR : bool -> World -> Prop) (QT : exception -> World -> Prop) w :
  (c = true -> wp body QN QR QT w) ->
  (c = false -> QN tt w) ->
  wp (when c body) QN QR QT w.
Proof. destruct c; simpl; intros H1 H2; [by apply H1 | by apply H2]. Qed.

Lemma wp_try_catch {A} (body : M A) (catches : exception -> bool)
      (handler : exception -> M A) (QN : A -> World -> Prop) (QR : bool -> World -> Prop) (QT : exception -> World -> Prop) w :
  wp body QN QR
     (fun e w' => if catches e then wp (handler e) QN QR QT w' else QT e w') w ->
  wp (try_catch body catches handler) QN QR QT w.
Proof.
  unfold wp, try_catch. destruct (body w) as [[a|b|e] w']; try done.
  destruct (catches e); done.
Qed.

Lemma wp_get_world (QN : World -> World -> Prop) (QR : bool -> World -> Prop) (QT : exception -> World -> Prop) w : QN w w -> wp get_world QN QR QT w.
Proof. done. Qed.

Lemma wp_foldM {S A} (f : S -> A -> M S) (l : list A) (I : S -> World -> Prop)
      QR QT s w :
  I s w ->
  (forall s a w, I s w -> wp (f s a) I QR QT w) ->
  wp (foldM f s l) I QR QT w.
Proof.
  intros HI Hf. revert s w HI. induction l as [|a l IH]; intros s w HI.
  - done.
  - cbn [foldM]. apply wp_bind. eapply wp_mono; [apply Hf, HI|..]; eauto.
Qed.

Lemma run_function_wp (m : M unit) (P : bool -> World -> Prop) w :
  wp m (fun _ w' => P true w') P (fun _ w' => P false w') w ->
  P (run_function m w).1 (run_function m w).2.
Proof.
  unfold wp, run_function. destruct (m w) as [[a|b|e] w']; done.
Qed.

(** Equations for running a bind. *)
Lemma bind_Next {A B} (m : M A) (k : A -> M B) w a w' :
  m w = (Next a, w') -> (m ≫= k) w = k a w'.
Proof. unfold mbind, M_bind. by intros ->. Qed.

Lemma bind_Return {A B} (m : M A) (k : A -> M B) w b w' :
  m w = (Return b, w') -> (m ≫= k) w = (Return b, w').
Proof. unfold mbind, M_bind. by intros ->. Qed.

Lemma bind_Throw {A B} (m : M A) (k : A -> M B) w e w' :
  m w = (Throw e, w') -> (m ≫= k) w = (Throw e, w').
Proof. unfold mbind, M_bind. by intros ->. Qed.

Lemma bind_Next_inv {A B} (m : M A) (k : A -> M B) w b w2 :
  (m ≫= k) w = (Next b, w2) ->
  exists a w1, m w = (Next a, w1) /\ k a w1 = (Next b, w2).
Proof.
  unfold mbind, M_bind. destruct (m w) as [[a|r|e] w1]; try done. eauto.
Qed.

End Logic.

(** ** What every step keeps *)

(** The listener calls among the events of a trace. *)
Definition listener_calls (t : list event) : list listener_call :=
  omap (fun e => match e with Listener c => Some c | ERR_PRINT _ _ => None end) t.

(** The order of calls that the listener documentation describes: on
    success [notifyHeader] once, [notifyProgress] any number of times,
    [notifyEnd] with success once; on failure [notifyError] once, then
    [notifyEnd] without success once. *)
Fixpoint progress_then_end (cs : list listener_call) : bool :=
  match cs with
  | [notifyEnd _ true] => true
  | notifyProgress _ _ _ :: cs' => progress_then_end cs'
  | _ => false
  end.

Definition listener_order (success : bool) (cs : list listener_call) : bool :=
  if success then
    match cs with
    | notifyHeader _ _ :: cs' => progress_then_end cs'
    | _ => false
    end
  else
    match cs with
    | [notifyError _; notifyEnd _ false] => true
    | _ => false
    end.

Section Preserves.
Context `{Constants} `{Botan} `{DER_Encoder}.

(** A relation between the world before and after that every step of
    the operations keeps. *)
Class StepInvariant (R : World -> World -> Prop) := {
  inv_refl : forall w, R w w;
  inv_trans : forall w1 w2 w3, R w1 w2 -> R w2 w3 -> R w1 w3;
  inv_event : forall w op m, R w (add_event (ERR_PRINT op m) w);
  inv_files : forall w f, R w (set_files f w);
  inv_rng : forall w r, R w (set_rng r w)
}.

Context (R : World -> World -> Prop) `{!StepInvariant R}.

Definition preserves {A} (m : M A) : Prop :=
  forall w, wp m (fun _ => R w) (fun _ => R w) (fun _ => R w) w.

Lemma preserves_ret {A} (a : A) : preserves (mret a).
Proof. intros w. hnf. apply inv_refl. Qed.

Lemma preserves_return {A} (b : bool) : preserves (return_ b : M A).
Proof. intros w. hnf. apply inv_refl. Qed.

Lemma preserves_throw {A} (e : exception) : preserves (throw e : M A).
Proof. intros w. hnf. apply inv_refl. Qed.

Lemma preserves_lift {A} (r : result A) : preserves (lift r).
Proof. intros w. destruct r; hnf; apply inv_refl. Qed.

Lemma preserves_bind {A B} (m : M A) (k : A -> M B) :
  preserves m -> (forall a, preserves (k a)) -> preserves (m ≫= k).
Proof.
  intros Hm Hk w. apply wp_bind.
  eapply wp_mono; [apply Hm|..]; cbn beta; [|done..].
  intros a w' Hw'.
  eapply wp_mono; [apply Hk|..]; cbn beta;
    intros ? w'' ?; eapply inv_trans; eassumption.
Qed.

Lemma preserves_when (c : bool) (body : M unit) :
  preserves body -> preserves (when c body).
Proof. intros Hb. destruct c; [done|apply preserves_ret]. Qed.

Lemma preserves_try_catch {A} (body : M A) catches handler :
  preserves body -> (forall e, preserves (handler e)) ->
  preserves (try_catch body catches handler).
Proof.
  intros Hb Hh w. apply wp_try_catch.
  eapply wp_mono; [apply Hb|..]; cbn beta; [done..|].
  intros e w' Hw'. destruct (catches e); [|done].
  eapply wp_mono; [apply Hh|..]; cbn beta;
    intros ? w'' ?; eapply inv_trans; eassumption.
Qed.

Lemma preserves_foldM {S A} (f : S -> A -> M S) (s : S) (l : list A) :
  (forall s a, preserves (f s a)) -> preserves (foldM f s l).
Proof.
  intros Hf. revert s. induction l as [|a l IH]; intros s.
  - apply preserves_ret.
  - cbn [foldM]. apply preserves_bind; auto.
Qed.

Lemma preserves_err_print op m : preserves (err_print op m).
Proof. intros w. hnf. apply inv_event. Qed.

Lemma preserves_get_world : preserves get_world.
Proof. intros w. hnf. apply inv_refl. Qed.

Lemma preserves_file_exists path : preserves (IOUtil.file_exists path).
Proof. intros w. hnf. apply inv_refl. Qed.

Lemma preserves_remove path : preserves (IOUtil.remove path).
Proof.
  intros w. apply inv_files.
Qed.

Lemma preserves_ofstream_open path : preserves (ofstream_open path).
Proof.
  intros w. unfold wp, ofstream_open.
  case_bool_decide; [apply inv_refl|apply inv_files].
Qed.

Lemma preserves_write o data : preserves (write o data).
Proof.
  intros w. unfold wp, write.
  destruct (of_fail o); [apply inv_refl|].
  destruct (_ && _); [apply inv_refl|apply inv_files].
Qed.

Lemma preserves_DataSource_Stream path : preserves (DataSource_Stream path).
Proof.
  intros w. unfold wp, DataSource_Stream.
  destruct (files w !! path); apply inv_refl.
Qed.

Lemma preserves_system_random_vec n : preserves (system_random_vec n).
Proof.
  intros w. unfold wp, system_random_vec.
  destruct (random_vec (rng w) n). apply inv_rng.
Qed.

Lemma preserves_load_public_key f : preserves (load_public_key f).
Proof. intros w. hnf. apply inv_refl. Qed.

Lemma preserves_load_private_key f p : preserves (load_private_key f p).
Proof. intros w. hnf. apply inv_refl. Qed.

Lemma preserves_encrypt k eme msg : preserves (encrypt k eme msg).
Proof.
  intros w. unfold wp, encrypt.
  destruct (pk_encrypt k eme msg (rng w)) as [[c|e] r]; apply inv_rng.
Qed.

Lemma preserves_sign k emsa msg : preserves (sign k emsa msg).
Proof.
  intros w. unfold wp, sign.
  destruct (sign_message k emsa msg (rng w)). apply inv_rng.
Qed.

Lemma preserves_decode {A} (d : decoder A) src : preserves (decode d src).
Proof. apply preserves_lift. Qed.

Lemma preserves_create_or_throw algo dir : preserves (create_or_throw algo dir).
Proof.
  unfold create_or_throw. destruct (AEAD_create algo dir);
    [apply preserves_ret|apply preserves_throw].
Qed.

Local Ltac step :=
  first
    [ apply preserves_ret | apply preserves_return | apply preserves_throw
    | apply preserves_lift | apply preserves_err_print
    | apply preserves_get_world | apply preserves_file_exists
    | apply preserves_remove | apply preserves_ofstream_open
    | apply preserves_write | apply preserves_DataSource_Stream
    | apply preserves_system_random_vec | apply preserves_load_public_key
    | apply preserves_load_private_key | apply preserves_encrypt
    | apply preserves_sign | apply preserves_decode
    | apply preserves_create_or_throw
    | apply preserves_when
    | apply preserves_foldM; intros
    | apply preserves_try_catch; [|intros]
    | apply preserves_bind; [|intros] ].

Local Ltac steps :=
  repeat first
    [ step
    | match goal with
      | |- preserves (match ?x with _ => _ end) => destruct x
      | |- preserves (if ?c then _ else _) => destruct c
      | |- preserves (let '(_, _) := ?x in _) => destruct x
      end ].

Lemma preserves_decrypt_or_random k eme c n :
  preserves (decrypt_or_random k eme c n).
Proof. unfold decrypt_or_random. steps. Qed.

Lemma preserves_consume_data s data is_final :
  preserves (consume_data s data is_final).
Proof. unfold consume_data. steps. Qed.

Lemma preserves_read_stream {S} input (f : S -> bytes -> bool -> M S) s :
  (forall s d b, preserves (f s d b)) ->
  preserves (IOUtil.read_stream input f s).
Proof. intros Hf. unfold IOUtil.read_stream. steps. apply Hf. Qed.

Lemma preserves_read_file {S} path (f : S -> bytes -> bool -> M S) s :
  (forall s d b, preserves (f s d b)) ->
  preserves (IOUtil.read_file path f s).
Proof.
  intros Hf. unfold IOUtil.read_file. steps. apply Hf.
Qed.

Lemma preserves_failed {A} out m : preserves (failed out m : M A).
Proof. unfold failed. steps. Qed.

Local Ltac finish :=
  steps;
  first [ apply preserves_failed | apply preserves_consume_data
        | apply preserves_decrypt_or_random ].

Lemma preserves_encrypt_body k1 k2 p d out o :
  preserves (es ← encrypt_prepare k1 k2 p;
             '(outfile, out_bytes_header) ← encrypt_headers d es o;
             encrypt_payload d out (es_aead es) outfile out_bytes_header).
Proof.
  unfold encrypt_prepare, encrypt_headers, encrypt_payload. finish.
Qed.

Lemma preserves_decrypt_snoop d out : preserves (decrypt_snoop d out).
Proof. unfold decrypt_snoop. finish. Qed.

Lemma preserves_decrypt_headers k out n input :
  preserves (decrypt_headers k out n input).
Proof. unfold decrypt_headers. finish. Qed.

Lemma preserves_decrypt_validate out h : preserves (decrypt_validate out h).
Proof. unfold decrypt_validate. finish. Qed.

Lemma preserves_decrypt_payload k out h c input o :
  preserves (decrypt_payload k out h c input o).
Proof. unfold decrypt_payload. finish. Qed.

Lemma preserves_run (m : M unit) w :
  preserves m -> R w (run_function m w).2.
Proof.
  intros Hm. specialize (Hm w). unfold wp, run_function in *.
  by destruct (m w) as [[a|b|e] w'].
Qed.

Lemma encrypt_preserves k1 k2 p d out ow w :
  R w (encryptThenSign_RSA1 k1 k2 p d out ow w).2.
Proof.
  apply preserves_run. unfold check_output, open_output.
  apply preserves_bind; [steps|intros _].
  apply preserves_bind; [steps|intros o].
  apply preserves_try_catch; [apply preserves_encrypt_body|intros; steps].
Qed.

Lemma decrypt_preserves k1 k2 p d out ow w :
  R w (checkSignThenDecrypt_RSA1 k1 k2 p d out ow w).2.
Proof.
  apply preserves_run. unfold check_output, open_output.
  apply preserves_bind; [steps|intros _].
  apply preserves_bind; [steps|intros o].
  apply preserves_try_catch; [|intros; apply preserves_failed].
  apply preserves_bind; [steps|intros [vk|]; [|steps]].
  apply preserves_bind; [steps|intros [dk|]; [|steps]].
  apply preserves_bind; [apply preserves_decrypt_snoop|intros n].
  apply preserves_bind; [steps|intros input].
  apply preserves_bind; [apply preserves_decrypt_headers|intros [h input']].
  apply preserves_bind; [apply preserves_decrypt_validate|intros c].
  apply preserves_decrypt_payload.
Qed.

End Preserves.

(** ** The operations, block by block *)

Section Prologue.
Context `{Constants} `{Botan} `{DER_Encoder}.

(** The world once the output file has been created or truncated. *)
Definition opened (outfilename : string) (w : World) : World :=
  set_files (<[outfilename := []]>) w.

(** The stream on the output file just opened. *)
Definition fresh_stream (outfilename : string) : ofstream :=
  {| of_path := outfilename; of_open := true; of_fail := false; of_pos := 0 |}.

(** The world a fatal error of decrypt leaves. *)
Definition failed_world (outfilename : string) (m : message) (w : World)
  : World :=
  set_files (delete outfilename) (add_event (ERR_PRINT Decrypt m) w).

Lemma failed_run {A} outfilename m w :
  (failed outfilename m : M A) w
  = (Return false, failed_world outfilename m w).
Proof. reflexivity. Qed.

Lemma set_files_id (f : gmap string bytes -> gmap string bytes) w :
  f (files w) = files w -> set_files f w = w.
Proof. destruct w. unfold set_files. simpl. by intros ->. Qed.

Lemma check_output_refuses (op : operation) (outfilename : string) w :
  is_Some (files w !! outfilename) ->
  check_output op outfilename false w
  = (Return false, add_event (ERR_PRINT op Not_overwriting_existing_output) w).
Proof.
  intros Hex. unfold check_output, mbind, M_bind, IOUtil.file_exists.
  rewrite bool_decide_eq_true_2 by done. reflexivity.
Qed.

Lemma check_output_passes op outfilename overwrite w :
  files w !! outfilename = None \/ overwrite = true ->
  check_output op outfilename overwrite w
  = (Next tt, set_files (delete outfilename) w).
Proof.
  intros Hok. unfold check_output, mbind, M_bind, IOUtil.file_exists.
  case_bool_decide as Hex.
  - destruct Hok as [Hn| ->]; [rewrite Hn in Hex; by destruct Hex|].
    cbn. rewrite bool_decide_eq_true_2 by done. reflexivity.
  - cbn. rewrite set_files_id; [done|].
    apply delete_id. by apply eq_None_not_Some.
Qed.

Lemma open_output_passes op outfilename w :
  outfilename ∉ unwritable w ->
  open_output op outfilename (set_files (delete outfilename) w)
  = (Next (fresh_stream outfilename), opened outfilename w).
Proof.
  intros Hw. unfold open_output, mbind, M_bind, ofstream_open.
  cbn [unwritable set_files]. rewrite bool_decide_eq_false_2 by done.
  cbn. unfold opened, set_files. cbn. by rewrite insert_delete_eq.
Qed.

Lemma open_output_refused op outfilename w :
  outfilename ∈ unwritable w ->
  open_output op outfilename w
  = (Return false, add_event (ERR_PRINT op Output_file_not_open) w).
Proof.
  intros Hw. unfold open_output, mbind, M_bind, ofstream_open.
  rewrite bool_decide_eq_true_2 by done. reflexivity.
Qed.

(** What is left of encrypt once the output is open. *)
Definition encrypt_body (enc_pub_key_fname sign_sec_key_fname passphrase
                           data_fname outfilename : string)
           (outfile : ofstream) : M unit :=
  try_catch (
      es ← encrypt_prepare enc_pub_key_fname sign_sec_key_fname passphrase;
      '(outfile, out_bytes_header) ← encrypt_headers data_fname es outfile;
      encrypt_payload data_fname outfilename (es_aead es) outfile
                      out_bytes_header)
      is_std_exception
      (fun e =>
         err_print Encrypt (Caught_exception e);;
         IOUtil.remove outfilename;;
         return_ false).

Lemma encrypt_after_open k1 k2 p d out ow w :
  files w !! out = None \/ ow = true ->
  out ∉ unwritable w ->
  encryptThenSign_RSA1 k1 k2 p d out ow w
  = run_function (encrypt_body k1 k2 p d out (fresh_stream out)) (opened out w).
Proof.
  intros Hok Hw. unfold encryptThenSign_RSA1, run_function.
  rewrite (bind_Next _ _ _ _ _ (check_output_passes _ _ _ _ Hok)).
  rewrite (bind_Next _ _ _ _ _ (open_output_passes _ _ _ Hw)).
  reflexivity.
Qed.

(** What is left of decrypt once the output is open and both keys are
    loaded. *)
Definition decrypt_body (sign_pub_key : Public_Key)
           (dec_sec_key : Private_Key) (data_fname outfilename : string)
           (outfile : ofstream) : M unit :=
  header1_size ← decrypt_snoop data_fname outfilename;
  input ← DataSource_Stream data_fname;
  '(h, input) ← decrypt_headers sign_pub_key outfilename header1_size input;
  cipher_algo ← decrypt_validate outfilename h;
  decrypt_payload dec_sec_key outfilename h cipher_algo input outfile.

Lemma decrypt_after_keys k1 k2 p d out ow w vk dk :
  files w !! out = None \/ ow = true ->
  out ∉ unwritable w ->
  files (opened out w) !! k1 ≫= public_key_of = Some vk ->
  (files (opened out w) !! k2 ≫= fun c => private_key_of c p) = Some dk ->
  checkSignThenDecrypt_RSA1 k1 k2 p d out ow w
  = run_function
      (try_catch (decrypt_body vk dk d out (fresh_stream out))
                 is_std_exception
                 (fun e => failed out (Caught_exception e)))
      (opened out w).
Proof.
  intros Hok Hw Hvk Hdk. unfold checkSignThenDecrypt_RSA1, run_function.
  rewrite (bind_Next _ _ _ _ _ (check_output_passes _ _ _ _ Hok)).
  rewrite (bind_Next _ _ _ _ _ (open_output_passes _ _ _ Hw)).
  unfold try_catch, mbind at 1 3, M_bind at 1 3, load_public_key.
  rewrite Hvk.
  unfold mbind at 1 2, M_bind at 1 2, load_private_key.
  rewrite Hdk. reflexivity.
Qed.

Lemma decrypt_key_load_failure k1 k2 p d out ow w :
  files w !! out = None \/ ow = true ->
  out ∉ unwritable w ->
  files (opened out w) !! k1 ≫= public_key_of = None ->
  checkSignThenDecrypt_RSA1 k1 k2 p d out ow w = (false, opened out w).
Proof.
  intros Hok Hw Hvk. unfold checkSignThenDecrypt_RSA1, run_function.
  rewrite (bind_Next _ _ _ _ _ (check_output_passes _ _ _ _ Hok)).
  rewrite (bind_Next _ _ _ _ _ (open_output_passes _ _ _ Hw)).
  unfold try_catch, mbind, M_bind, load_public_key.
  rewrite Hvk. reflexivity.
Qed.

Lemma encrypt_key_load_failure k1 k2 p d out ow w :
  files w !! out = None \/ ow = true ->
  out ∉ unwritable w ->
  files (opened out w) !! k1 ≫= public_key_of = None ->
  encryptThenSign_RSA1 k1 k2 p d out ow w = (false, opened out w).
Proof.
  intros Hok Hw Hvk. rewrite encrypt_after_open by done.
  unfold run_function, encrypt_body, try_catch, encrypt_prepare.
  unfold mbind, M_bind, load_public_key.
  rewrite Hvk. reflexivity.
Qed.

End Prologue.

Section DecryptBlocks.
Context `{Constants} `{Botan} `{DER_Encoder}.

Lemma DataSource_Stream_run path c w :
  files w !! path = Some c -> DataSource_Stream path w = (Next c, w).
Proof. unfold DataSource_Stream. by intros ->. Qed.

Lemma decrypt_snoop_run data_fname outfilename c w :
  files w !! data_fname = Some c ->
  decrypt_snoop data_fname outfilename w =
  match snoop_header1 c with
  | Val ((package_magic_charvec, header1_size_buffer), _) =>
      let s := string_of_list_byte package_magic_charvec in
      if bool_decide (s = "") then
        failed outfilename Unknown_package_magic w
      else if bool_decide (s ≠ package_magic) then
        failed outfilename Expected_package_magic w
      else if bool_decide (4%nat ≠ length header1_size_buffer) then
        failed outfilename Expected_header1_size_element_of_4_bytes w
      else (Next (get_uint32 header1_size_buffer 0), w)
  | Exc e =>
      if is_Decoding_Error e then
        failed outfilename Header1a_invalid_input_file_format w
      else (Throw e, w)
  end.
Proof.
  intros Hc. unfold decrypt_snoop, try_catch.
  rewrite (bind_Next _ _ _ _ _ (DataSource_Stream_run _ _ _ Hc)).
  unfold decode, mbind at 1, M_bind at 1.
  destruct (snoop_header1 c) as [[[magic szbuf] r]|e]; cbn [lift].
  - unfold mret, M_ret. cbn beta iota.
    unfold mbind, M_bind.
    repeat (case_bool_decide; cbn [when]; try reflexivity).
  - unfold throw. reflexivity.
Qed.

Lemma decrypt_headers_run sign_pub_key outfilename header1_size input w :
  decrypt_headers sign_pub_key outfilename header1_size input w =
  let header_buffer := take (N.to_nat header1_size) input in
  if negb (N.of_nat (length header_buffer) =? header1_size) then
    failed outfilename Expected_header1_size w
  else
    match decode_header1 header_buffer with
    | Val (h, _) =>
        match decode_header2 (drop (N.to_nat header1_size) input) with
        | Val (signature, payload) =>
            if check_signature sign_pub_key rsa_sign_algo header_buffer
                               signature
            then (Next (h, payload), w)
            else failed outfilename Signature_mismatch w
        | Exc e =>
            if is_Decoding_Error e then
              failed outfilename Invalid_input_file_format w
            else (Throw e, w)
        end
    | Exc e =>
        if is_Decoding_Error e then
          failed outfilename Invalid_input_file_format w
        else (Throw e, w)
    end.
Proof.
  unfold decrypt_headers, try_catch. cbn zeta.
  unfold mbind at 1, M_bind at 1.
  destruct (negb _); cbn [when]; [reflexivity|].
  unfold mret at 1, M_ret at 1. cbn beta iota.
  unfold decode, mbind at 1, M_bind at 1.
  destruct (decode_header1 _) as [[h r]|e]; cbn [lift];
    [|unfold throw; reflexivity].
  unfold mret at 1, M_ret at 1. cbn beta iota.
  unfold mbind at 1, M_bind at 1.
  destruct (decode_header2 _) as [[sig payload]|e]; cbn [lift];
    [|unfold throw; reflexivity].
  unfold mret at 1, M_ret at 1. cbn beta iota.
  unfold mbind, M_bind.
  destruct (check_signature _ _ _ _); reflexivity.
Qed.

(** The fields of a header that pass the checks of decrypt. *)
Definition header_fields_valid (h : Header1) : Prop :=
  string_of_list_byte (h_filename h) ≠ ""
  /\ string_of_list_byte (h_sign_algo h) = rsa_sign_algo
  /\ rsa_sign_algo ≠ ""
  /\ oid2str_or_empty (alg_oid (h_pk_alg_id h)) = "RSA/" +:+ rsa_padding_algo
  /\ (exists hash_oid rest,
        decode_alg_id (alg_parameters (h_pk_alg_id h))
        = Val ({| alg_oid := hash_oid; alg_parameters := [] |}, rest)
        /\ oid2str_or_empty hash_oid = rsa_hash_algo
        /\ rsa_hash_algo ≠ "")
  /\ oid2str_or_empty (h_cipher_algo_oid h) = aead_cipher_algo
  /\ aead_cipher_algo ≠ "".

(** The messages of the checks of the header fields. *)
Definition validation_messages : list message :=
  [ Unknown_filename; Unknown_signing_algo; Expected_signing_algo;
    Expected_encryption_padding_algo; Unknown_hash_function;
    Expected_hash_function; Unknown_hash_function_parameter;
    Unknown_encryption_algo; Expected_encryption_algo ].

Lemma decrypt_validate_valid outfilename h w :
  header_fields_valid h ->
  decrypt_validate outfilename h w = (Next aead_cipher_algo, w).
Proof.
  intros (Hf & Hs & Hs0 & Hpk & (ho & r & Hd & Hh & Hh0) & Hc & Hc0).
  unfold decrypt_validate, mbind, M_bind.
  rewrite bool_decide_eq_false_2 by done. cbn [when mret M_ret].
  rewrite Hs.
  rewrite bool_decide_eq_false_2 by done. cbn [when mret M_ret].
  rewrite bool_decide_eq_false_2 by (intros E; by apply E).
  cbn [when mret M_ret].
  rewrite Hpk.
  rewrite bool_decide_eq_false_2 by (intros E; by apply E).
  cbn [when mret M_ret].
  unfold decode. rewrite Hd. cbn [lift mret M_ret alg_oid alg_parameters].
  rewrite Hh.
  rewrite bool_decide_eq_false_2 by done. cbn [when mret M_ret].
  rewrite bool_decide_eq_false_2 by (intros E; by apply E).
  cbn [when mret M_ret].
  rewrite bool_decide_eq_true_2 by done. cbn [negb when mret M_ret].
  rewrite Hc.
  rewrite bool_decide_eq_false_2 by done. cbn [when mret M_ret].
  rewrite bool_decide_eq_false_2 by (intros E; by apply E).
  reflexivity.
Qed.

(** The checks of the fields end in one of three ways: every field is
    as expected; or a check fails with its message and the output is
    removed; or the parameters of [pk_alg_id] do not decode, which
    throws. *)
Lemma decrypt_validate_cases outfilename h w :
  (header_fields_valid h
   /\ decrypt_validate outfilename h w = (Next aead_cipher_algo, w))
  \/ (~ header_fields_valid h
      /\ exists m, m ∈ validation_messages
         /\ decrypt_validate outfilename h w
            = (Return false, failed_world outfilename m w))
  \/ (~ header_fields_valid h
      /\ exists e, decode_alg_id (alg_parameters (h_pk_alg_id h)) = Exc e
         /\ decrypt_validate outfilename h w = (Throw e, w)).
Proof.
  unfold decrypt_validate, validation_messages, header_fields_valid.
  unfold mbind, M_bind.
  case_bool_decide as Hf; cbn [when mret M_ret].
  { right; left. split; [tauto|]. eexists; split; [|apply failed_run].
    set_solver. }
  case_bool_decide as Hs0; cbn [when mret M_ret].
  { right; left. split; [intros (_ & E & E0 & _); congruence|].
    eexists; split; [|apply failed_run]. set_solver. }
  case_bool_decide as Hs; cbn [when mret M_ret].
  { right; left. split; [tauto|]. eexists; split; [|apply failed_run].
    set_solver. }
  case_bool_decide as Hpk; cbn [when mret M_ret].
  { right; left. split; [tauto|]. eexists; split; [|apply failed_run].
    set_solver. }
  unfold decode.
  destruct (decode_alg_id _) as [[[ho hp] r]|e] eqn:Hd;
    cbn [lift mret M_ret throw alg_oid alg_parameters].
  2:{ right; right. split; [|eauto].
      intros (_ & _ & _ & _ & (? & ? & ? & _) & _). congruence. }
  case_bool_decide as Hh0; cbn [when mret M_ret].
  { right; left. split.
    - intros (_ & _ & _ & _ & (? & ? & E & E1 & E2) & _).
      simplify_eq; try congruence.
    - eexists; split; [|apply failed_run]. set_solver. }
  case_bool_decide as Hh; cbn [when mret M_ret].
  { right; left. split.
    - intros (_ & _ & _ & _ & (? & ? & E & E1 & E2) & _).
      simplify_eq; try congruence.
    - eexists; split; [|apply failed_run]. set_solver. }
  case_bool_decide as Hp; cbn [negb when mret M_ret].
  2:{ right; left. split.
    - intros (_ & _ & _ & _ & (? & ? & E & E1 & E2) & _).
      simplify_eq; try congruence.
    - eexists; split; [|apply failed_run]. set_solver. }
  case_bool_decide as Hc0; cbn [when mret M_ret].
  { right; left. split; [intros (_ & _ & _ & _ & _ & E & E0); congruence|].
    eexists; split; [|apply failed_run]. set_solver. }
  case_bool_decide as Hc; cbn [when mret M_ret].
  { right; left. split; [tauto|]. eexists; split; [|apply failed_run].
    set_solver. }
  left.
  subst hp. rewrite Hc. split; [|done].
  repeat split; try done; try congruence.
  exists ho, r. repeat split; congruence.
Qed.

End DecryptBlocks.

Section Payload.
Context `{Constants} `{Botan} `{DER_Encoder}.

(** The world with the octets of one file replaced. *)
Definition with_file (path : string) (content : bytes) (w : World) : World :=
  set_files (<[path := content]>) w.

Lemma with_file_with_file path c1 c2 w :
  with_file path c2 (with_file path c1 w) = with_file path c2 w.
Proof.
  unfold with_file, set_files. cbn. by rewrite insert_insert_eq.
Qed.

Lemma with_file_id path c w :
  files w !! path = Some c -> with_file path c w = w.
Proof. intros Hc. apply set_files_id. by apply insert_id. Qed.

Lemma alter_present (f : bytes -> bytes) path c (m : gmap string bytes) :
  m !! path = Some c -> alter f path m = <[path := f c]> m.
Proof.
  intros Hc. rewrite <- (insert_id m path c Hc) at 1.
  apply alter_insert_eq.
Qed.

Lemma write_run o data c0 w :
  of_fail o = false -> disk_full w = false ->
  files w !! of_path o = Some c0 ->
  write o data w
  = (Next {| of_path := of_path o; of_open := of_open o; of_fail := false;
             of_pos := of_pos o + N.of_nat (length data) |},
     with_file (of_path o) (c0 ++ data) w).
Proof.
  intros Hf Hd Hc. unfold write. rewrite Hf, Hd. cbn [andb].
  unfold with_file, set_files. by rewrite (alter_present _ _ c0).
Qed.

Lemma write_fails o data w :
  of_fail o = false -> disk_full w = true -> data <> [] ->
  write o data w
  = (Next {| of_path := of_path o; of_open := of_open o; of_fail := true;
             of_pos := of_pos o |}, w).
Proof.
  intros Hf Hd Hne. unfold write. rewrite Hf, Hd.
  by rewrite bool_decide_eq_false_2.
Qed.

Lemma write_failed o data w : of_fail o = true -> write o data w = (Next o, w).
Proof. intros Hf. unfold write. by rewrite Hf. Qed.

(** The octets the payload sink writes for the chunks of a stream, and
    the exception, if any, that ends it: [consume_data] along the
    chunks, without the output stream. *)
Fixpoint aead_run (aead : AEAD_Mode) (cs : list (bytes * bool))
  : bytes * option exception :=
  match cs with
  | [] => ([], None)
  | (data, is_final) :: cs' =>
      if negb is_final then
        let '(out, aead') := update aead data in
        let '(outs, r) := aead_run aead' cs' in (out ++ outs, r)
      else
        match finish aead data with
        | Val out => let '(outs, r) := aead_run aead cs' in (out ++ outs, r)
        | Exc e => ([], Some e)
        end
  end.

(** The payload written for an input stream. *)
Definition aead_stream (aead : AEAD_Mode) (input : bytes)
  : bytes * option exception :=
  aead_run aead (IOUtil.chunks input).

Lemma consume_data_update st data out aead' c0 w :
  of_fail (st_outfile st) = false -> disk_full w = false ->
  files w !! of_path (st_outfile st) = Some c0 ->
  update (st_aead st) data = (out, aead') ->
  exists o, consume_data st data false w
    = (Next {| st_aead := aead'; st_outfile := o;
               st_out_bytes_payload :=
                 (st_out_bytes_payload st + N.of_nat (length out)) mod 2^64 |},
       with_file (of_path (st_outfile st)) (c0 ++ out) w)
    /\ of_fail o = false /\ of_path o = of_path (st_outfile st).
Proof.
  intros Hf Hd Hc Hup. unfold consume_data. cbn [negb]. rewrite Hup.
  unfold mbind, M_bind. rewrite (write_run _ _ c0) by done.
  eexists. split; [reflexivity|done].
Qed.

Lemma consume_data_finish st data out c0 w :
  of_fail (st_outfile st) = false -> disk_full w = false ->
  files w !! of_path (st_outfile st) = Some c0 ->
  finish (st_aead st) data = Val out ->
  exists o, consume_data st data true w
    = (Next {| st_aead := st_aead st; st_outfile := o;
               st_out_bytes_payload :=
                 (st_out_bytes_payload st + N.of_nat (length out)) mod 2^64 |},
       with_file (of_path (st_outfile st)) (c0 ++ out) w)
    /\ of_fail o = false /\ of_path o = of_path (st_outfile st).
Proof.
  intros Hf Hd Hc Hfin. unfold consume_data. cbn [negb]. rewrite Hfin.
  unfold mbind, M_bind. cbn [lift mret M_ret].
  rewrite (write_run _ _ c0) by done.
  eexists. split; [reflexivity|done].
Qed.

Lemma consume_data_finish_throws st data e w :
  finish (st_aead st) data = Exc e ->
  consume_data st data true w = (Throw e, w).
Proof.
  intros Hfin. unfold consume_data. cbn [negb]. rewrite Hfin. reflexivity.
Qed.

Lemma consume_all_run cs : forall st w c0,
  of_fail (st_outfile st) = false -> disk_full w = false ->
  files w !! of_path (st_outfile st) = Some c0 ->
  exists st',
    foldM (fun s c => consume_data s c.1 c.2) st cs w
    = (match (aead_run (st_aead st) cs).2 with
       | None => Next st'
       | Some e => Throw e
       end,
       with_file (of_path (st_outfile st))
                 (c0 ++ (aead_run (st_aead st) cs).1) w)
    /\ of_fail (st_outfile st') = false.
Proof.
  induction cs as [|[data is_final] cs IH]; intros st w c0 Hf Hd Hc.
  - exists st. cbn. rewrite app_nil_r, with_file_id by done. done.
  - cbn [foldM aead_run fst snd].
    destruct is_final; cbn [negb].
    + destruct (finish (st_aead st) data) as [out|e] eqn:Hfin.
      * destruct (consume_data_finish st data out c0 w Hf Hd Hc Hfin)
          as (o & Hstep & Hfo & Hpo).
        rewrite (bind_Next _ _ _ _ _ Hstep).
        match goal with
        | |- context [foldM _ ?st1 cs ?w1] =>
            destruct (IH st1 w1 (c0 ++ out)) as (st' & Hrun & Hf')
        end.
        { done. } { done. }
        { cbn [st_outfile]. rewrite Hpo. unfold with_file. cbn.
          by rewrite lookup_insert_eq. }
        exists st'. cbn [st_aead st_outfile] in Hrun.
        rewrite Hrun, Hpo. destruct (aead_run (st_aead st) cs) as [outs r].
        cbn [fst snd]. rewrite with_file_with_file, app_assoc. done.
      * exists st.
        rewrite (bind_Throw _ _ _ _ _ (consume_data_finish_throws _ _ _ _ Hfin)).
        cbn [fst snd]. rewrite app_nil_r, with_file_id by done. done.
    + destruct (update (st_aead st) data) as [out aead'] eqn:Hup.
      destruct (consume_data_update st data out aead' c0 w Hf Hd Hc Hup)
        as (o & Hstep & Hfo & Hpo).
      rewrite (bind_Next _ _ _ _ _ Hstep).
      match goal with
      | |- context [foldM _ ?st1 cs ?w1] =>
          destruct (IH st1 w1 (c0 ++ out)) as (st' & Hrun & Hf')
      end.
      { done. } { done. }
      { cbn [st_outfile]. rewrite Hpo. unfold with_file. cbn.
        by rewrite lookup_insert_eq. }
      exists st'. cbn [st_aead st_outfile] in Hrun.
      rewrite Hrun, Hpo. destruct (aead_run aead' cs) as [outs r].
      cbn [fst snd]. rewrite with_file_with_file, app_assoc. done.
Qed.

End Payload.

Section EncryptBlocks.
Context `{Constants} `{Botan} `{DER_Encoder}.

Definition eme_name : string :=
  rsa_padding_algo +:+ "(" +:+ rsa_hash_algo +:+ ")".

(** What a completed set-up of encrypt has established. *)
Definition prepared (w : World) (enc_pub_key_fname sign_sec_key_fname
                                   passphrase : string)
           (es : encrypt_setup) (w' : World) : Prop :=
  exists enc_pub_key aead hash_oid pk_oid r2,
    files w !! enc_pub_key_fname ≫= public_key_of = Some enc_pub_key
    /\ (files w !! sign_sec_key_fname ≫= fun c => private_key_of c passphrase)
       = Some (es_sign_sec_key es)
    /\ AEAD_create aead_cipher_algo ENCRYPTION = Some aead
    /\ OID_from_string aead_cipher_algo = Val (es_cipher_algo_oid es)
    /\ es_cipher_algo_oid es <> []
    /\ OID_from_string rsa_hash_algo = Val hash_oid
    /\ OID_from_string ("RSA/" +:+ rsa_padding_algo) = Val pk_oid
    /\ es_pk_alg_id es
       = {| alg_oid := pk_oid;
            alg_parameters :=
              encode_alg_id {| alg_oid := hash_oid; alg_parameters := [] |} |}
    /\ es_file_key es = (random_vec (rng w) (maximum_keylength aead)).1
    /\ pk_encrypt enc_pub_key eme_name (es_file_key es)
                  (random_vec (rng w) (maximum_keylength aead)).2
       = (Val (es_encrypted_key es), r2)
    /\ es_nonce es = (random_vec r2 ChaCha_Nonce_Size).1
    /\ start (set_associated_data_vec (set_key aead (es_file_key es))
                                      (es_encrypted_key es))
             (es_nonce es)
       = Val (es_aead es)
    /\ w' = set_rng (random_vec r2 ChaCha_Nonce_Size).2 w.

Lemma wp_load_public_key f w (QN : option Public_Key -> World -> Prop)
      (QR : bool -> World -> Prop) (QT : exception -> World -> Prop) :
  QN (files w !! f ≫= public_key_of) w -> wp (load_public_key f) QN QR QT w.
Proof. done. Qed.

Lemma wp_load_private_key f p w (QN : option Private_Key -> World -> Prop)
      (QR : bool -> World -> Prop) (QT : exception -> World -> Prop) :
  QN (files w !! f ≫= fun c => private_key_of c p) w ->
  wp (load_private_key f p) QN QR QT w.
Proof. done. Qed.

Lemma wp_system_random_vec n w (QN : bytes -> World -> Prop)
      (QR : bool -> World -> Prop) (QT : exception -> World -> Prop) :
  QN (random_vec (rng w) n).1 (set_rng (random_vec (rng w) n).2 w) ->
  wp (system_random_vec n) QN QR QT w.
Proof.
  unfold wp, system_random_vec. by destruct (random_vec (rng w) n).
Qed.

Lemma wp_encrypt k eme msg w (QN : bytes -> World -> Prop)
      (QR : bool -> World -> Prop) (QT : exception -> World -> Prop) :
  (forall c r, pk_encrypt k eme msg (rng w) = (Val c, r) -> QN c (set_rng r w)) ->
  (forall e r, pk_encrypt k eme msg (rng w) = (Exc e, r) -> QT e (set_rng r w)) ->
  wp (encrypt k eme msg) QN QR QT w.
Proof.
  intros HN HT. unfold wp, encrypt.
  destruct (pk_encrypt k eme msg (rng w)) as [[c|e] r]; auto.
Qed.

Lemma wp_sign k emsa msg w (QN : bytes -> World -> Prop)
      (QR : bool -> World -> Prop) (QT : exception -> World -> Prop) :
  QN (sign_message k emsa msg (rng w)).1
     (set_rng (sign_message k emsa msg (rng w)).2 w) ->
  wp (sign k emsa msg) QN QR QT w.
Proof.
  unfold wp, sign. by destruct (sign_message k emsa msg (rng w)).
Qed.

Lemma wp_encrypt_prepare k1 k2 p w (QN : encrypt_setup -> World -> Prop)
      (QR : bool -> World -> Prop) (QT : exception -> World -> Prop) :
  (forall es w', prepared w k1 k2 p es w' -> QN es w') ->
  (forall w', files w' = files w -> disk_full w' = disk_full w ->
              unwritable w' = unwritable w -> QR false w') ->
  (forall e w', files w' = files w -> disk_full w' = disk_full w ->
                unwritable w' = unwritable w -> QT e w') ->
  wp (encrypt_prepare k1 k2 p) QN QR QT w.
Proof.
  intros HN HR HT. unfold encrypt_prepare.
  apply wp_bind, wp_load_public_key.
  destruct (files w !! k1 ≫= public_key_of) as [ek|] eqn:Hek;
    [|by apply wp_return, HR].
  apply wp_bind, wp_load_private_key.
  destruct (files w !! k2 ≫= _) as [sk|] eqn:Hsk; [|by apply wp_return, HR].
  destruct (AEAD_create aead_cipher_algo ENCRYPTION) as [aead|] eqn:Ha.
  2:{ apply wp_bind, wp_err_print, wp_return. by apply HR. }
  apply wp_bind, wp_lift.
  destruct (OID_from_string aead_cipher_algo) as [coid|e] eqn:Hc;
    [|by apply HT].
  apply wp_bind, wp_when; intros Hne.
  { apply wp_bind, wp_err_print, wp_return. by apply HR. }
  apply bool_decide_eq_false in Hne.
  apply wp_bind, wp_lift.
  destruct (OID_from_string rsa_hash_algo) as [hoid|e] eqn:Hh; [|by apply HT].
  cbn zeta. apply wp_bind, wp_lift.
  destruct (OID_from_string ("RSA/" +:+ rsa_padding_algo)) as [poid|e] eqn:Hp;
    [|by apply HT].
  cbn zeta. fold eme_name.
  apply wp_bind, wp_system_random_vec.
  apply wp_bind, wp_encrypt; cbn [rng set_rng]; [|intros; by apply HT].
  intros ekey r2 He.
  apply wp_bind, wp_system_random_vec. cbn [rng set_rng].
  apply wp_bind, wp_lift.
  destruct (start _ _) as [aead'|e] eqn:Hs; [|by apply HT].
  apply wp_ret, HN. exists ek, aead, hoid, poid, r2.
  cbn [es_sign_sec_key es_pk_alg_id es_cipher_algo_oid es_file_key
       es_encrypted_key es_nonce es_aead].
  repeat split; done.
Qed.

End EncryptBlocks.

Abbreviation der_encrypt_headers := (@encrypt_headers _ _ Botan_DER).
Abbreviation der_header1_pass2 := (@header1_pass2 _ _ Botan_DER).
Abbreviation der_header2 := (@encode_header2 Botan_DER).
Abbreviation der_encrypt := (@encryptThenSign_RSA1 _ _ Botan_DER).
Abbreviation der_prepared := (@prepared _ _ Botan_DER).

Section EncryptRun.
Context `{Constants} `{Botan}.

Lemma der_header1_nonempty data_fname es :
  der_header1_pass2 data_fname es <> [].
Proof. done. Qed.

(** The signature encrypt puts into Header-2. *)
Definition header2_signature (data_fname : string) (es : encrypt_setup)
           (w : World) : bytes :=
  (sign_message (es_sign_sec_key es) rsa_sign_algo
                (der_header1_pass2 data_fname es) (rng w)).1.

Lemma encrypt_headers_run data_fname es o c0 w :
  of_fail o = false -> disk_full w = false ->
  files w !! of_path o = Some c0 ->
  exists o' n w',
    der_encrypt_headers data_fname es o w = (Next (o', n), w')
    /\ of_fail o' = false /\ of_path o' = of_path o
    /\ files w' = <[of_path o :=
                      c0 ++ der_header1_pass2 data_fname es
                         ++ der_header2 (header2_signature data_fname es w)]>
                    (files w)
    /\ disk_full w' = false /\ unwritable w' = unwritable w.
Proof.
  intros Hf Hd Hc. unfold encrypt_headers. cbn zeta.
  rewrite (bind_Next _ _ _ _ _ (write_run _ _ c0 _ Hf Hd Hc)).
  unfold mbind at 1, M_bind at 1, sign. cbn [rng with_file set_files].
  unfold header2_signature.
  destruct (sign_message _ _ _ (rng w)) as [sig r] eqn:Hs. cbn [fst].
  erewrite bind_Next; cycle 1.
  { apply (write_run _ _ (c0 ++ der_header1_pass2 data_fname es)); cbn.
    - done. - done. - by rewrite lookup_insert_eq. }
  eexists _, _, _. split; [reflexivity|].
  cbn. rewrite insert_insert_eq, <- app_assoc. done.
Qed.

Lemma encrypt_headers_disk_full data_fname es o w :
  of_fail o = false -> disk_full w = true ->
  exists o' n w',
    der_encrypt_headers data_fname es o w = (Next (o', n), w')
    /\ of_fail o' = true.
Proof.
  intros Hf Hd. unfold encrypt_headers. cbn zeta.
  rewrite (bind_Next _ _ _ _ _
             (write_fails _ _ _ Hf Hd (der_header1_nonempty data_fname es))).
  unfold mbind at 1, M_bind at 1, sign. cbn [rng].
  destruct (sign_message _ _ _ (rng w)) as [sig r] eqn:Hs.
  erewrite bind_Next; cycle 1.
  { by apply write_failed. }
  eexists _, _, _. split; [reflexivity|done].
Qed.

Lemma wp_consume_failed st data is_final w :
  of_fail (st_outfile st) = true ->
  wp (consume_data st data is_final)
     (fun st' _ => of_fail (st_outfile st') = true)
     (fun _ _ => False) (fun _ _ => True) w.
Proof.
  intros Hf. unfold consume_data. destruct is_final; cbn [negb].
  - apply wp_bind, wp_lift. destruct (finish _ _); [|done].
    unfold wp, mbind, M_bind. by rewrite write_failed.
  - destruct (update _ _) as [out a].
    unfold wp, mbind, M_bind. by rewrite write_failed.
Qed.

Lemma wp_encrypt_payload_failed data_fname outfilename aead o n w :
  of_fail o = true ->
  wp (encrypt_payload data_fname outfilename aead o n)
     (fun _ _ => False) (fun b _ => b = false) (fun _ _ => True) w.
Proof.
  intros Hf. unfold encrypt_payload. cbn zeta.
  apply wp_bind, wp_when; intros _;
    [apply wp_err_print|];
    ( apply wp_bind; unfold IOUtil.read_file;
      apply wp_bind, wp_get_world;
      match goal with
      | |- context [files ?w0 !! data_fname] =>
          destruct (files w0 !! data_fname) as [pt|]
      end;
      [ unfold IOUtil.read_stream; apply wp_bind;
        eapply wp_mono;
        [ apply (wp_foldM _ _ (fun st _ => of_fail (st_outfile st) = true));
          [done|]; intros; by apply wp_consume_failed
        | cbn beta; intros st w' Hst; apply wp_ret;
          unfold fail; cbn [snd]; rewrite Hst, orb_true_r;
          apply wp_bind, wp_err_print, wp_bind; done
        | done | done ]
      | apply wp_ret; cbn [fst snd Z.ltb Z.compare orb];
        apply wp_bind, wp_err_print, wp_bind; done ] ).
Qed.

End EncryptRun.

Section PayloadRun.
Context `{Constants} `{Botan} `{DER_Encoder}.

Lemma length_not_negative (l : bytes) : (Z.of_nat (length l) <? 0)%Z = false.
Proof. apply Z.ltb_ge. lia. Qed.

Lemma wp_read_stream input st c0 w (QN : Z * sink_state -> World -> Prop)
      (QR : bool -> World -> Prop) (QT : exception -> World -> Prop) :
  of_fail (st_outfile st) = false -> disk_full w = false ->
  files w !! of_path (st_outfile st) = Some c0 ->
  (forall st', (aead_stream (st_aead st) input).2 = None ->
               of_fail (st_outfile st') = false ->
               QN (Z.of_nat (length input), st')
                  (with_file (of_path (st_outfile st))
                             (c0 ++ (aead_stream (st_aead st) input).1) w)) ->
  (forall e, (aead_stream (st_aead st) input).2 = Some e ->
             QT e (with_file (of_path (st_outfile st))
                             (c0 ++ (aead_stream (st_aead st) input).1) w)) ->
  wp (IOUtil.read_stream input consume_data st) QN QR QT w.
Proof.
  intros Hf Hd Hc HN HT. unfold IOUtil.read_stream. apply wp_bind.
  destruct (consume_all_run (IOUtil.chunks input) st w c0 Hf Hd Hc)
    as (st' & Hrun & Hf').
  unfold wp at 1. rewrite Hrun. unfold aead_stream in *.
  destruct (aead_run (st_aead st) (IOUtil.chunks input)) as [outs [e|]];
    cbn [fst snd] in *.
  - by apply HT.
  - apply wp_ret. by apply HN.
Qed.

Lemma wp_encrypt_payload data_fname outfilename aead o n c0 w
      (QN : unit -> World -> Prop) (QR : bool -> World -> Prop)
      (QT : exception -> World -> Prop) :
  of_fail o = false -> disk_full w = false ->
  of_path o = outfilename ->
  files w !! outfilename = Some c0 ->
  (forall pt w',
      files w !! data_fname = Some pt ->
      (aead_stream aead pt).2 = None ->
      files w' = <[outfilename := c0 ++ (aead_stream aead pt).1]> (files w) ->
      disk_full w' = false -> unwritable w' = unwritable w ->
      QN tt w') ->
  (forall w', QR false w') -> (forall e w', QT e w') ->
  wp (encrypt_payload data_fname outfilename aead o n) QN QR QT w.
Proof.
  intros Hf Hd Hp Hc HN HR HT. unfold encrypt_payload. cbn zeta.
  assert (Hrest : forall w0, files w0 = files w -> disk_full w0 = false ->
                             unwritable w0 = unwritable w ->
    wp ('(in_bytes_total, st) ←
          IOUtil.read_file data_fname consume_data
            {| st_aead := aead; st_outfile := o; st_out_bytes_payload := 0 |};
        if (in_bytes_total <? 0)%Z || fail (st_outfile st) then
          err_print Encrypt Output_file_write_failed;;
          IOUtil.remove outfilename;; return_ false
        else
          when (negb ((n + st_out_bytes_payload st) mod 2^64
                      =? tellp (st_outfile st)))
            (err_print Encrypt Written_bytes_differ_from_total))
       QN QR QT w0).
  { intros w0 Hfiles Hd0 Hu0. apply wp_bind. unfold IOUtil.read_file.
    apply wp_bind, wp_get_world. rewrite Hfiles.
    destruct (files w !! data_fname) as [pt|] eqn:Hpt.
    - apply (wp_read_stream _ _ c0); cbn [st_outfile st_aead].
      + done. + done. + by rewrite Hp, Hfiles.
      + intros st' Hrun Hf'. cbn [fst snd]. unfold fail. rewrite Hf'.
        rewrite length_not_negative.
        cbn [orb]. rewrite Hp.
        apply wp_when; intros _; [apply wp_err_print|];
          (eapply HN; [done|done|cbn; by rewrite Hfiles|done|done]).
      + intros. apply HT.
    - apply wp_ret. cbn [fst snd Z.ltb Z.compare orb].
      apply wp_bind, wp_err_print, wp_bind.
      unfold wp; cbn. apply HR. }
  apply wp_bind, wp_when; intros _; [apply wp_err_print|]; by apply Hrest.
Qed.

Definition unwrapped_key (dec_sec_key : Private_Key) (encrypted_key : bytes)
           (expected_keylen : nat) (r : RandomNumberGenerator) : bytes :=
  match pk_decrypt dec_sec_key eme_name encrypted_key with
  | Some decoded =>
      if (length decoded =? expected_keylen)%nat then decoded
      else (random_vec r expected_keylen).1
  | None => (random_vec r expected_keylen).1
  end.

Lemma decrypt_or_random_run dec_sec_key ct n w :
  decrypt_or_random dec_sec_key eme_name ct n w
  = (Next (unwrapped_key dec_sec_key ct n (rng w)),
     set_rng (random_vec (rng w) n).2 w).
Proof.
  unfold decrypt_or_random, unwrapped_key, mbind, M_bind, system_random_vec.
  destruct (random_vec (rng w) n) as [fake r]. cbn [fst snd].
  destruct (pk_decrypt _ _ _) as [k|]; [|done].
  by destruct (_ =? _)%nat.
Qed.

(** The payload stage of decrypt: the AEAD it starts, and then the
    stream of the input through it. *)
Lemma wp_decrypt_payload dec_sec_key outfilename h input o aead0 c0 w
      (QN : unit -> World -> Prop) (QR : bool -> World -> Prop)
      (QT : exception -> World -> Prop) :
  AEAD_create aead_cipher_algo DECRYPTION = Some aead0 ->
  of_fail o = false -> disk_full w = false ->
  of_path o = outfilename ->
  files w !! outfilename = Some c0 ->
  let file_key := unwrapped_key dec_sec_key (h_encrypted_key h)
                                (maximum_keylength aead0) (rng w) in
  let started := start (set_associated_data_vec (set_key aead0 file_key)
                                                (h_encrypted_key h))
                       (h_nonce h) in
  (forall aead w',
      started = Val aead ->
      (aead_stream aead input).2 = None ->
      files w' = <[outfilename := c0 ++ (aead_stream aead input).1]> (files w) ->
      disk_full w' = false -> unwritable w' = unwritable w ->
      trace w' = trace w
      \/ trace w' = trace w ++ [ERR_PRINT Decrypt Written_bytes_differ_from_total] ->
      QN tt w') ->
  (forall aead e w',
      started = Val aead ->
      (aead_stream aead input).2 = Some e ->
      files w' !! outfilename = Some (c0 ++ (aead_stream aead input).1) ->
      trace w' = trace w ->
      QT e w') ->
  (forall e w', started = Exc e -> files w' = files w -> trace w' = trace w ->
                QT e w') ->
  wp (decrypt_payload dec_sec_key outfilename h aead_cipher_algo input o)
     QN QR QT w.
Proof.
  intros Ha Hf Hd Hp Hc file_key started HN HT1 HT2.
  unfold decrypt_payload, create_or_throw. rewrite Ha.
  apply wp_bind, wp_ret. cbn zeta. fold eme_name.
  apply wp_bind. unfold wp at 1. rewrite decrypt_or_random_run.
  fold file_key. apply wp_bind, wp_lift. fold started.
  destruct started as [aead|e] eqn:Hs; [|by apply HT2].
  apply wp_bind, (wp_read_stream _ _ c0); cbn [st_outfile st_aead].
  - done. - done. - by rewrite Hp.
  - intros st' Hrun Hf'. cbn [fst snd]. unfold fail. rewrite Hf'.
    rewrite length_not_negative.
    cbn [orb]. rewrite Hp.
    apply wp_when; intros _; [apply wp_err_print|];
      (eapply HN; [done|done|done|done|done|]); cbn; auto.
  - intros e Hrun. eapply HT1; [done|done| |done].
    rewrite Hp. cbn. by rewrite lookup_insert_eq.
Qed.

End PayloadRun.

Section Strengthen.
Context `{Botan}.

Lemma wp_strengthen {A} (m : M A) (QN : A -> World -> Prop)
      (QR : bool -> World -> Prop) (QT : exception -> World -> Prop) w :
  wp m QN QR QT w ->
  wp m (fun a w' => m w = (Next a, w') /\ QN a w')
       (fun b w' => m w = (Return b, w') /\ QR b w')
       (fun e w' => m w = (Throw e, w') /\ QT e w') w.
Proof. unfold wp. by destruct (m w) as [[a|b|e] w']. Qed.

End Strengthen.

Section EncryptSuccess.
Context `{Constants} `{Botan}.

(** What a successful encrypt has done. *)
Definition encrypted_as (k1 k2 p d out : string) (w w1 : World)
           (es : encrypt_setup) (w0 : World) (pt : bytes) : Prop :=
  der_prepared (opened out w) k1 k2 p es w0
  /\ files (opened out w) !! d = Some pt
  /\ (aead_stream (es_aead es) pt).2 = None
  /\ files w1
     = <[out := der_header1_pass2 d es
                ++ der_header2 (header2_signature d es w0)
                ++ (aead_stream (es_aead es) pt).1]> (files w)
  /\ disk_full w1 = false /\ unwritable w1 = unwritable w.

Lemma prepared_frame k1 k2 p es (w w' : World) :
  der_prepared w k1 k2 p es w' ->
  files w' = files w /\ disk_full w' = disk_full w
  /\ unwritable w' = unwritable w /\ trace w' = trace w.
Proof.
  intros (?&?&?&?&?&?&?&?&?&?&?&?&?&?&?&?&?& ->). done.
Qed.

Lemma encrypt_body_success k1 k2 p d out w :
  files w !! out = Some [] -> d <> out ->
  let r := run_function (@encrypt_body _ _ Botan_DER k1 k2 p d out
                                       (fresh_stream out)) w in
  r.1 = true ->
  disk_full w = false /\
  exists es w0 pt,
    @encrypt_prepare _ _ Botan_DER k1 k2 p w = (Next es, w0)
    /\ der_prepared w k1 k2 p es w0
    /\ files w !! d = Some pt
    /\ (aead_stream (es_aead es) pt).2 = None
    /\ files r.2
       = <[out := der_header1_pass2 d es
                  ++ der_header2 (header2_signature d es w0)
                  ++ (aead_stream (es_aead es) pt).1]> (files w)
    /\ disk_full r.2 = false /\ unwritable r.2 = unwritable w.
Proof.
  intros Hc Hdo r. subst r.
  set (P := fun (b : bool) (w1 : World) =>
    b = true ->
    disk_full w = false /\
    exists es w0 pt,
      @encrypt_prepare _ _ Botan_DER k1 k2 p w = (Next es, w0)
      /\ der_prepared w k1 k2 p es w0 /\ files w !! d = Some pt
      /\ (aead_stream (es_aead es) pt).2 = None
      /\ files w1
         = <[out := der_header1_pass2 d es
                    ++ der_header2 (header2_signature d es w0)
                    ++ (aead_stream (es_aead es) pt).1]> (files w)
      /\ disk_full w1 = false /\ unwritable w1 = unwritable w).
  apply (run_function_wp _ P).
  assert (Hfalse : forall w', P false w') by done.
  unfold encrypt_body. apply wp_try_catch, wp_bind.
  eapply wp_mono;
    [apply wp_strengthen,
       (wp_encrypt_prepare k1 k2 p w (der_prepared w k1 k2 p)
          (fun b _ => b = false) (fun _ _ => True)); done|cbn beta..].
  - intros es w0 [Heq Hprep].
    destruct (prepared_frame _ _ _ _ _ _ Hprep) as (Hfi & Hdi & Hun & _).
    destruct (disk_full w) eqn:Hd.
    + destruct (encrypt_headers_disk_full d es (fresh_stream out) w0)
        as (o' & n & w' & Hrun & Hf'); [done|congruence|].
      apply wp_bind. unfold wp at 1. rewrite Hrun.
      eapply wp_mono;
        [apply wp_encrypt_payload_failed, Hf'|cbn beta..]; try done.
      intros b w'' ->. apply Hfalse.
    + destruct (encrypt_headers_run d es (fresh_stream out) [] w0)
        as (o' & n & w' & Hrun & Hf' & Hp' & Hfi' & Hd' & Hu');
        [done|congruence|by rewrite Hfi|].
      apply wp_bind. unfold wp at 1. rewrite Hrun.
      cbn [fresh_stream of_path] in *.
      eapply (wp_encrypt_payload _ _ _ _ _ _); [done|done|done| | | |].
      * rewrite Hfi'. apply lookup_insert_eq.
      * intros pt w'' Hpt Hrun' Hfi'' Hd'' Hu'' _. split; [done|].
        exists es, w0, pt. split; [done|]. split; [done|].
        rewrite Hfi', lookup_insert_ne, Hfi in Hpt by done.
        split; [done|]. split; [done|].
        rewrite Hfi'', Hfi', insert_insert_eq, Hfi, Hu'', Hu', Hun.
        rewrite app_nil_l, <- app_assoc. done.
      * intros. apply Hfalse.
      * intros. cbn. apply Hfalse.
  - intros b w' [_ ->]. apply Hfalse.
  - intros. cbn. apply Hfalse.
Qed.

End EncryptSuccess.

Abbreviation der_header1_pass1 := (@header1_pass1 _ _ Botan_DER).
Abbreviation der_encode_header1 := (@encode_header1 Botan_DER).

Section TwoPass.
Context `{Constants} `{Botan}.

Lemma add_object_length_eq (tag : byte) (c : bytes) :
  length (add_object tag c)
  = S (length (encode_length (length c)) + length c).
Proof. unfold add_object. cbn [length]. by rewrite length_app. Qed.

Lemma header1_length_size_field data_fname es (b1 b2 : bytes) :
  length b1 = length b2 ->
  length (der_encode_header1 (make_header1 data_fname es b1))
  = length (der_encode_header1 (make_header1 data_fname es b2)).
Proof.
  intros Hb. unfold encode_header1, make_header1.
  cbn [encode_sequence encode_octets encode_integer encode_alg_id encode_oid
       Botan_DER h_package_magic h_header1_size_buffer h_filename
       h_payload_version h_payload_version_parent h_sign_algo h_pk_alg_id
       h_cipher_algo_oid h_encrypted_key h_nonce].
  unfold der_sequence. apply add_object_length. cbn [concat].
  rewrite !length_app. f_equal. f_equal.
  unfold der_octets. by apply add_object_length.
Qed.

Lemma two_pass_length data_fname es :
  length (der_header1_pass2 data_fname es)
  = length (der_header1_pass1 data_fname es).
Proof.
  unfold header1_pass2, header1_pass1. cbn zeta.
  apply header1_length_size_field.
  by rewrite put_uint32_length.
Qed.

Lemma header1_pass2_eq data_fname es :
  N.of_nat (length (der_header1_pass2 data_fname es)) < 2 ^ 32 ->
  exists szbuf,
    der_header1_pass2 data_fname es
    = der_encode_header1 (make_header1 data_fname es szbuf)
    /\ length szbuf = 4%nat
    /\ get_uint32 szbuf 0 = N.of_nat (length (der_header1_pass2 data_fname es)).
Proof.
  intros Hlen.
  exists (put_uint32 (replicate 4 x00) 0
                     (to_uint32 (length (der_header1_pass1 data_fname es)))).
  split; [reflexivity|]. split; [by rewrite put_uint32_length|].
  rewrite get_put_uint32. unfold to_uint32.
  rewrite N.Div0.mod_mod, two_pass_length in *.
  by rewrite N.mod_small.
Qed.

End TwoPass.

Section DecryptEncrypted.
Context `{Constants} `{Botan}.

(** The names of the configured algorithms and the package magic are
    not empty. *)
Definition constants_wf : Prop :=
  package_magic ≠ "" /\ rsa_sign_algo ≠ "" /\ rsa_hash_algo ≠ ""
  /\ aead_cipher_algo ≠ "".

(** The OID registry gives back the name an OID was found under. *)
Definition registry_consistent : Prop :=
  forall s o, OID_from_string s = Val o -> oid2str_or_empty o = s.

Lemma made_header_valid data_fname es szbuf w k1 k2 p w0 :
  constants_wf -> registry_consistent ->
  data_fname ≠ "" ->
  der_prepared w k1 k2 p es w0 ->
  N.of_nat (length (der_encode_header1 (make_header1 data_fname es szbuf)))
  < 2 ^ 32 ->
  header_fields_valid (make_header1 data_fname es szbuf).
Proof.
  intros (Hm & Hs & Hh & Hc) Hreg Hd
         (ek & aead & hoid & poid & r2 & _ & _ & _ & Hco & _ & Hho & Hpo
          & Hpk & _) Hlen.
  unfold header_fields_valid, make_header1.
  cbn [h_filename h_sign_algo h_pk_alg_id h_cipher_algo_oid].
  rewrite !string_of_list_byte_of_string, Hpk.
  cbn [alg_oid alg_parameters encode_alg_id Botan_DER].
  repeat split; try done.
  - by apply Hreg.
  - exists hoid, []. split; [|split; [by apply Hreg|done]].
    rewrite <- (app_nil_r (der_alg_id _)). apply decode_der_alg_id.
    unfold encode_header1, make_header1 in Hlen.
    cbn [encode_sequence encode_octets encode_integer encode_alg_id encode_oid
         Botan_DER h_package_magic h_header1_size_buffer h_filename
         h_payload_version h_payload_version_parent h_sign_algo h_pk_alg_id
         h_cipher_algo_oid h_encrypted_key h_nonce] in Hlen.
    rewrite Hpk in Hlen. unfold der_sequence at 1 in Hlen.
    rewrite add_object_length_eq in Hlen. cbn [concat] in Hlen.
    rewrite !length_app in Hlen.
    match type of Hlen with
    | context [length (der_alg_id ?a)] =>
        pose proof (add_object_length_gt SequenceCons
                      (concat [der_oid (alg_oid a); alg_parameters a])) as Hg;
        fold (der_sequence [der_oid (alg_oid a); alg_parameters a]) in Hg;
        fold (der_alg_id a) in Hg;
        cbn [concat alg_oid alg_parameters] in Hg;
        rewrite app_nil_r, length_app in Hg
    end.
    cbn [encode_alg_id Botan_DER] in *. lia.
  - by apply Hreg.
Qed.

End DecryptEncrypted.

Section DecryptWellFormed.
Context `{Constants} `{Botan}.

(** Decrypt on an input made of a DER Header-1 whose size field holds
    its length, a DER Header-2 and a payload: the snoop and the header
    decoders succeed, and what follows depends on the signature. *)
Lemma decrypt_body_wellformed vk dk data_fname outfilename o (w : World)
      (h : Header1) (sig ct : bytes) :
  files w !! data_fname
  = Some (der_encode_header1 h ++ der_header2 sig ++ ct) ->
  N.of_nat (length (der_encode_header1 h)) < 2 ^ 32 ->
  N.of_nat (length (der_header2 sig)) < 2 ^ 32 ->
  h_payload_version h < 2 ^ 32 ->
  h_payload_version_parent h < 2 ^ 32 ->
  string_of_list_byte (h_package_magic h) = package_magic ->
  package_magic ≠ "" ->
  length (h_header1_size_buffer h) = 4%nat ->
  get_uint32 (h_header1_size_buffer h) 0
  = N.of_nat (length (der_encode_header1 h)) ->
  decrypt_body vk dk data_fname outfilename o w
  = if check_signature vk rsa_sign_algo (der_encode_header1 h) sig then
      (cipher_algo ← decrypt_validate outfilename h;
       decrypt_payload dk outfilename h cipher_algo ct o) w
    else failed outfilename Signature_mismatch w.
Proof.
  intros Hfile Hl1 Hl2 Hv Hp Hmagic Hm0 Hsz Hsize. unfold decrypt_body.
  erewrite bind_Next; cycle 1.
  { rewrite (decrypt_snoop_run _ _ _ _ Hfile).
    rewrite snoop_encode_header1 by done. cbn zeta. rewrite Hmagic.
    rewrite bool_decide_eq_false_2 by done.
    rewrite bool_decide_eq_false_2 by (intros E; by apply E).
    rewrite bool_decide_eq_false_2 by (intros E; by apply E).
    reflexivity. }
  rewrite (bind_Next _ _ _ _ _ (DataSource_Stream_run _ _ _ Hfile)).
  unfold mbind at 1, M_bind at 1.
  rewrite decrypt_headers_run. cbn zeta.
  rewrite Hsize, !Nat2N.id, take_app_length, drop_app_length, N.eqb_refl.
  cbn [negb].
  rewrite <- (app_nil_r (der_encode_header1 h)) at 1.
  rewrite decode_encode_header1 by done.
  rewrite decode_encode_header2 by done.
  by destruct (check_signature _ _ _ _).
Qed.

End DecryptWellFormed.


(** ** The reads of the payload *)

Section Reads.
Context `{Constants} `{Botan}.

(** The reads of a stream as the sink is given them: the ones that are
    not final, in order, and the final one. *)
Definition reads (pieces : list bytes) (last : bytes) : list (bytes * bool) :=
  map (fun p => (p, false)) pieces ++ [(last, true)].

(** The full buffers that [IOUtil::read_stream] hands over before the
    end of the data, and its final read. *)
Definition full_reads (data : bytes) : list bytes :=
  map (fun i => take buffer_size (drop (i * buffer_size) data))
      (seq 0 (length data / buffer_size)).

Definition final_read (data : bytes) : bytes :=
  drop (length data / buffer_size * buffer_size) data.

Lemma chunks_reads data :
  IOUtil.chunks data = reads (full_reads data) (final_read data).
Proof.
  unfold IOUtil.chunks, reads, full_reads, final_read. by rewrite map_map.
Qed.

Lemma concat_buffers (data : bytes) (b q : nat) :
  concat (map (fun i => take b (drop (i * b) data)) (seq 0 q))
  = take (q * b) data.
Proof.
  induction q as [|q IH]; [done|].
  rewrite seq_S, map_app, concat_app, IH. cbn [map concat Nat.add].
  rewrite app_nil_r.
  replace (S q * b)%nat with (q * b + b)%nat by lia.
  by rewrite take_take_drop.
Qed.

Lemma concat_full_reads data : concat (full_reads data) ++ final_read data = data.
Proof.
  unfold full_reads, final_read. rewrite concat_buffers. apply take_drop.
Qed.

Lemma final_read_length data :
  length (final_read data) = (length data mod buffer_size)%nat.
Proof.
  unfold final_read. rewrite length_drop, Nat.Div0.mod_eq. lia.
Qed.


(** [AEAD_Mode::output_length]: what an encrypting AEAD returns for a
    stream, however it is cut into reads, is as long as the stream and
    the tag. *)
Definition appends_tag (tag_size : nat) (enc : AEAD_Mode) : Prop :=
  forall pieces last out,
    aead_run enc (reads pieces last) = (out, None) ->
    length out = (length (concat pieces ++ last) + tag_size)%nat.

(** [AEAD_Mode::minimum_final_size]: a decrypting AEAD throws when the
    input of [finish] is shorter than the tag. *)
Definition needs_tag (tag_size : nat) (dec : AEAD_Mode) : Prop :=
  forall pieces last,
    (length last < tag_size)%nat ->
    (aead_run dec (reads pieces last)).2 <> None.

(** The decrypting AEAD [dec] undoes the encrypting AEAD [enc]: given
    the output of [enc] for a stream, in any reads of which the final
    one holds the tag, it returns the stream. *)
Definition inverts (tag_size : nat) (enc dec : AEAD_Mode) : Prop :=
  forall pieces last out pieces' last',
    aead_run enc (reads pieces last) = (out, None) ->
    concat pieces' ++ last' = out ->
    (tag_size <= length last')%nat ->
    aead_run dec (reads pieces' last') = (concat pieces ++ last, None).

Lemma aead_stream_length tag_size enc pt :
  appends_tag tag_size enc ->
  (aead_stream enc pt).2 = None ->
  length (aead_stream enc pt).1 = (length pt + tag_size)%nat.
Proof.
  intros Hlen Hok. unfold aead_stream in *. rewrite chunks_reads in *.
  rewrite (Hlen (full_reads pt) (final_read pt) _
             (eq_trans (surjective_pairing _) (f_equal _ Hok))).
  by rewrite concat_full_reads.
Qed.

(** The final read of the payload holds the tag. *)
Lemma aead_stream_inverts tag_size enc dec pt :
  appends_tag tag_size enc -> inverts tag_size enc dec ->
  (aead_stream enc pt).2 = None ->
  (tag_size <= (length pt + tag_size) mod buffer_size)%nat ->
  aead_stream dec (aead_stream enc pt).1 = (pt, None).
Proof.
  intros Hlen Hinv Hok Htag.
  pose proof (aead_stream_length _ _ _ Hlen Hok) as Hl.
  unfold aead_stream in *.
  rewrite (chunks_reads (aead_run _ _).1).
  rewrite (Hinv (full_reads pt) (final_read pt) (aead_run enc (IOUtil.chunks pt)).1).
  - by rewrite concat_full_reads.
  - rewrite chunks_reads in *.
    exact (eq_trans (surjective_pairing _) (f_equal _ Hok)).
  - apply concat_full_reads.
  - by rewrite final_read_length, Hl.
Qed.

(** The final read of the payload is shorter than the tag. *)
Lemma aead_stream_cut tag_size enc dec pt :
  appends_tag tag_size enc -> needs_tag tag_size dec ->
  (aead_stream enc pt).2 = None ->
  ((length pt + tag_size) mod buffer_size < tag_size)%nat ->
  (aead_stream dec (aead_stream enc pt).1).2 <> None.
Proof.
  intros Hlen Hneed Hok Htag.
  pose proof (aead_stream_length _ _ _ Hlen Hok) as Hl.
  unfold aead_stream in *. rewrite (chunks_reads (aead_run _ _).1).
  apply Hneed. by rewrite final_read_length, Hl.
Qed.

End Reads.


(** ** Encrypt, then decrypt *)

Section RoundTrip.
Context `{Constants} `{Botan}.

Lemma encrypt_success k1 k2 p d out ow (w w1 : World) :
  der_encrypt k1 k2 p d out ow w = (true, w1) ->
  d <> out ->
  (files w !! out = None \/ ow = true)
  /\ (out ∉ unwritable w)
  /\ disk_full w = false
  /\ exists es w0 pt,
      @encrypt_prepare _ _ Botan_DER k1 k2 p (opened out w) = (Next es, w0)
      /\ der_prepared (opened out w) k1 k2 p es w0
      /\ files w !! d = Some pt
      /\ (aead_stream (es_aead es) pt).2 = None
      /\ files w1
         = <[out := der_header1_pass2 d es
                    ++ der_header2 (header2_signature d es w0)
                    ++ (aead_stream (es_aead es) pt).1]> (files w)
      /\ disk_full w1 = false /\ unwritable w1 = unwritable w.
Proof.
  intros Hrun Hdo.
  assert (Hok : files w !! out = None \/ ow = true).
  { destruct (files w !! out) as [c|] eqn:Hc; [|by left].
    destruct ow; [by right|].
    unfold encryptThenSign_RSA1, run_function in Hrun.
    rewrite (bind_Return _ _ _ _ _
               (check_output_refuses Encrypt out w ltac:(by rewrite Hc)))
      in Hrun.
    done. }
  assert (Hw : out ∉ unwritable w).
  { intros Hin.
    unfold encryptThenSign_RSA1, run_function in Hrun.
    rewrite (bind_Next _ _ _ _ _ (check_output_passes _ _ _ _ Hok)) in Hrun.
    erewrite bind_Return in Hrun; [|by apply open_output_refused].
    done. }
  rewrite encrypt_after_open in Hrun by done.
  pose proof (encrypt_body_success k1 k2 p d out (opened out w)) as Hb.
  cbn zeta in Hb. rewrite Hrun in Hb. cbn [fst snd] in Hb.
  destruct Hb as (Hd & es & w0 & pt & Heq & Hprep & Hpt & Hst & Hfi & Hd1 & Hu);
    [apply lookup_insert_eq|done|done|].
  repeat split; try done.
  exists es, w0, pt. repeat split; try done.
  - cbn in Hpt. by rewrite lookup_insert_ne in Hpt.
  - rewrite Hfi. cbn. by rewrite insert_insert_eq.
Qed.

(** A decryption key that undoes every encryption under the public
    key. *)
Definition valid_enc_pair (ek : Public_Key) (dk : Private_Key) : Prop :=
  forall eme m r c r',
    pk_encrypt ek eme m r = (Val c, r') -> pk_decrypt dk eme c = Some m.

(** A verification key that accepts every signature made with the
    signing key. *)
Definition valid_sign_pair (sk : Private_Key) (vk : Public_Key) : Prop :=
  forall emsa m r,
    check_signature vk emsa m (sign_message sk emsa m r).1 = true.

(** Both headers are shorter than 2^32 octets. *)
Definition headers_fit (data_fname : string) (es : encrypt_setup)
           (w0 : World) : Prop :=
  N.of_nat (length (der_header1_pass2 data_fname es)) < 2 ^ 32
  /\ N.of_nat (length (der_header2 (header2_signature data_fname es w0)))
     < 2 ^ 32.

(** The AEAD pair of a setup: the encrypting AEAD appends a tag of
    [tag_size] octets, and the decrypting AEAD of the configured
    algorithm, started with the key, the associated data and the nonce
    of the encrypting one, undoes it. *)
Definition aead_pair (tag_size : nat) (es : encrypt_setup) : Prop :=
  appends_tag tag_size (es_aead es)
  /\ exists ad sd,
      AEAD_create aead_cipher_algo DECRYPTION = Some ad
      /\ maximum_keylength ad = length (es_file_key es)
      /\ start (set_associated_data_vec (set_key ad (es_file_key es))
                                        (es_encrypted_key es))
               (es_nonce es) = Val sd
      /\ inverts tag_size (es_aead es) sd.

(** X22: when encrypt succeeds on a plaintext whose payload ends with a
    final read that holds the whole tag, and decrypt is given the
    verification key of the signing key and the decryption key of the
    encryption key, with headers that fit their size fields and an AEAD
    pair, decrypt succeeds, the file it writes is the plaintext, and the
    header of the encrypted file carries the filename given to encrypt,
    payload version 1 and parent version 0. *)
Theorem roundtrip_when_tag_in_final_read
        (enc_pub_key_fname sign_sec_key_fname passphrase data_fname
           outfilename : string) (overwrite : bool)
        (sign_pub_key_fname dec_sec_key_fname passphrase' outfilename'
           : string) (overwrite' : bool)
        (w w1 : World) (plaintext : bytes)
        (sign_pub_key : Public_Key) (dec_sec_key : Private_Key)
        (tag_size : nat) :
  constants_wf -> registry_consistent ->
  der_encrypt enc_pub_key_fname sign_sec_key_fname passphrase data_fname
              outfilename overwrite w = (true, w1) ->
  files w !! data_fname = Some plaintext ->
  (tag_size <= (length plaintext + tag_size) mod buffer_size)%nat ->
  data_fname <> "" -> data_fname <> outfilename ->
  enc_pub_key_fname <> outfilename -> sign_sec_key_fname <> outfilename ->
  (forall ek, files w !! enc_pub_key_fname ≫= public_key_of = Some ek ->
              valid_enc_pair ek dec_sec_key) ->
  (forall sk, (files w !! sign_sec_key_fname
                 ≫= fun c => private_key_of c passphrase) = Some sk ->
              valid_sign_pair sk sign_pub_key) ->
  (forall es w0,
      @encrypt_prepare _ _ Botan_DER enc_pub_key_fname sign_sec_key_fname
                       passphrase (opened outfilename w) = (Next es, w0) ->
      headers_fit data_fname es w0 /\ aead_pair tag_size es) ->
  files w1 !! sign_pub_key_fname ≫= public_key_of = Some sign_pub_key ->
  (files w1 !! dec_sec_key_fname ≫= fun c => private_key_of c passphrase')
  = Some dec_sec_key ->
  outfilename' <> outfilename -> outfilename' <> sign_pub_key_fname ->
  outfilename' <> dec_sec_key_fname ->
  files w1 !! outfilename' = None \/ overwrite' = true ->
  outfilename' ∉ unwritable w1 ->
  exists w2 content h rest,
    checkSignThenDecrypt_RSA1 sign_pub_key_fname dec_sec_key_fname
                              passphrase' outfilename outfilename'
                              overwrite' w1 = (true, w2)
    /\ files w2 !! outfilename' = Some plaintext
    /\ files w1 !! outfilename = Some content
    /\ decode_header1 content = Val (h, rest)
    /\ h_filename h = list_byte_of_string data_fname
    /\ h_payload_version h = 1
    /\ h_payload_version_parent h = 0.
Proof.
  intros Hcwf Hreg Hrun Hpt Htag Hd0 Hdo Hk1 Hk2 Henc Hsig Hfit Hvk Hdk
         Ho1 Ho2 Ho3 Hok' Hw'.
  destruct (encrypt_success _ _ _ _ _ _ _ _ Hrun Hdo)
    as (Hok & Hw & Hd & es & w0 & pt & Heq & Hprep & Hpt' & Hst & Hfi & Hd1 & Hu).
  assert (pt = plaintext) as -> by congruence.
  destruct (Hfit es w0 Heq)
    as [[Hl1 Hl2] (Hlen & ad & sd & Had & Hkl & Hsd & Hund)].
  pose proof (aead_stream_inverts tag_size (es_aead es) sd plaintext
                Hlen Hund Hst Htag) as Hinv.
  destruct (header1_pass2_eq data_fname es Hl1) as (szbuf & HH1 & Hsz & Hget).
  set (h := make_header1 data_fname es szbuf) in *.
  set (sig := header2_signature data_fname es w0) in *.
  set (ct := (aead_stream (es_aead es) plaintext).1) in *.
  assert (Hcontent : files w1 !! outfilename
                     = Some (der_encode_header1 h ++ der_header2 sig ++ ct)).
  { rewrite Hfi, lookup_insert_eq, HH1. done. }
  pose proof Hprep as Hprep'.
  destruct Hprep' as (ek & aead & hoid & poid & r2 & Hek & Hsk & Ha & Hco & Hcne
                     & Hho & Hpo & Hpk & Hfk & Hpe & Hno & Hstart & Hw0).
  cbn [opened set_files files] in Hek, Hsk.
  rewrite lookup_insert_ne in Hek by done.
  rewrite lookup_insert_ne in Hsk by done.
  assert (Hvalid : header_fields_valid h).
  { apply (made_header_valid data_fname es szbuf _ _ _ _ _ Hcwf Hreg Hd0 Hprep).
    fold h. rewrite <- HH1. exact Hl1. }
  assert (Hcheck : check_signature sign_pub_key rsa_sign_algo
                                   (der_encode_header1 h) sig = true).
  { unfold sig, header2_signature. rewrite HH1. by apply Hsig. }
  assert (Hkey : unwrapped_key dec_sec_key (h_encrypted_key h)
                               (maximum_keylength ad)
                               (rng (opened outfilename' w1))
                 = es_file_key es).
  { unfold unwrapped_key. cbn [h make_header1 h_encrypted_key].
    rewrite (Henc ek Hek _ _ _ _ _ Hpe), Hkl, Nat.eqb_refl. done. }
  assert (Hl1' : N.of_nat (length (der_encode_header1 h)) < 2 ^ 32)
    by (rewrite <- HH1; exact Hl1).
  assert (Hget' : get_uint32 (h_header1_size_buffer h) 0
                  = N.of_nat (length (der_encode_header1 h)))
    by (rewrite <- HH1; exact Hget).
  assert (Hfile' : files (opened outfilename' w1) !! outfilename
                   = Some (der_encode_header1 h ++ der_header2 sig ++ ct)).
  { cbn [opened set_files files]. rewrite lookup_insert_ne by exact Ho1.
    exact Hcontent. }
  assert (Hv1 : h_payload_version h < 2 ^ 32) by (cbn; lia).
  assert (Hv0 : h_payload_version_parent h < 2 ^ 32) by (cbn; lia).
  assert (Hmagic : string_of_list_byte (h_package_magic h) = package_magic)
    by apply string_of_list_byte_of_string.
  pose proof (decrypt_body_wellformed sign_pub_key dec_sec_key outfilename
                outfilename' (fresh_stream outfilename')
                (opened outfilename' w1) h sig ct Hfile' Hl1' Hl2 Hv1 Hv0
                Hmagic (proj1 Hcwf) Hsz Hget') as Hbody.
  rewrite Hcheck in Hbody.
  rewrite (bind_Next _ _ _ _ _ (decrypt_validate_valid _ _ _ Hvalid)) in Hbody.
  set (P := fun (b : bool) (w2 : World) =>
              b = true /\ files w2 !! outfilename' = Some plaintext).
  assert (HP : P (checkSignThenDecrypt_RSA1 sign_pub_key_fname dec_sec_key_fname
                    passphrase' outfilename outfilename' overwrite' w1).1
                 (checkSignThenDecrypt_RSA1 sign_pub_key_fname dec_sec_key_fname
                    passphrase' outfilename outfilename' overwrite' w1).2).
  { rewrite (decrypt_after_keys _ _ _ _ _ _ _ sign_pub_key dec_sec_key
               Hok' Hw').
    2:{ cbn [opened set_files files]. rewrite lookup_insert_ne by exact Ho2.
        exact Hvk. }
    2:{ cbn [opened set_files files]. rewrite lookup_insert_ne by exact Ho3.
        exact Hdk. }
    apply run_function_wp, wp_try_catch.
    unfold wp at 1. rewrite Hbody.
    apply (wp_decrypt_payload dec_sec_key outfilename' h ct
             (fresh_stream outfilename') ad []).
    - exact Had.
    - reflexivity.
    - exact Hd1.
    - reflexivity.
    - cbn [opened set_files files]. apply lookup_insert_eq.
    - cbn zeta. rewrite Hkey.
      change (h_encrypted_key h) with (es_encrypted_key es).
      change (h_nonce h) with (es_nonce es). rewrite Hsd.
      intros aead' w' [= <-] _ Hfiles _ _ _. split; [reflexivity|].
      rewrite Hfiles, lookup_insert_eq. fold ct. rewrite Hinv. reflexivity.
    - cbn zeta. rewrite Hkey.
      change (h_encrypted_key h) with (es_encrypted_key es).
      change (h_nonce h) with (es_nonce es). rewrite Hsd.
      intros aead' e w' [= <-] He. fold ct in He. rewrite Hinv in He.
      discriminate He.
    - cbn zeta. rewrite Hkey.
      change (h_encrypted_key h) with (es_encrypted_key es).
      change (h_nonce h) with (es_nonce es). rewrite Hsd.
      intros e w' He. discriminate He. }
  unfold P in HP.
  destruct (checkSignThenDecrypt_RSA1 _ _ _ _ _ _ w1) as [b w2].
  cbn [fst snd] in HP. destruct HP as [-> Hout].
  exists w2, (der_encode_header1 h ++ der_header2 sig ++ ct), h,
         (der_header2 sig ++ ct).
  split; [reflexivity|]. split; [exact Hout|]. split; [exact Hcontent|].
  split; [exact (decode_encode_header1 h _ Hl1' Hv1 Hv0)|].
  split; [reflexivity|]. split; reflexivity.
Qed.

End RoundTrip.


Section DecoderExceptions.

Lemma decode_length_exc s e : decode_length s = Exc e -> e = Decoding_Error.
Proof.
  unfold decode_length. destruct s as [|b s]; [congruence|].
  repeat (case_match; try congruence).
Qed.

Lemma get_object_exc tag s e : get_object tag s = Exc e -> e = Decoding_Error.
Proof.
  unfold get_object. destruct s as [|t s]; [congruence|].
  case_bool_decide; [|congruence].
  destruct (decode_length s) as [[len s'']|e'] eqn:Hl.
  - case_match; congruence.
  - intros [= <-]. by apply decode_length_exc in Hl.
Qed.

Lemma decode_integer_exc s e : decode_integer s = Exc e -> e = Decoding_Error.
Proof.
  unfold decode_integer, dbind, dfail, dret.
  destruct (get_object Integer s) as [[c s']|e'] eqn:Hg.
  - repeat (case_match; try congruence).
  - intros [= <-]. by apply get_object_exc in Hg.
Qed.

Lemma decode_alg_id_exc s e : decode_alg_id s = Exc e -> e = Decoding_Error.
Proof.
  unfold decode_alg_id, dbind, start_sequence, within, decode_oid.
  destruct (get_object SequenceCons s) as [[c s']|e'] eqn:Hg.
  - destruct (get_object ObjectId c) as [[o ps]|e''] eqn:Ho; [congruence|].
    intros [= <-]. by apply get_object_exc in Ho.
  - intros [= <-]. by apply get_object_exc in Hg.
Qed.

Lemma snoop_header1_exc s e : snoop_header1 s = Exc e -> e = Decoding_Error.
Proof.
  unfold snoop_header1, dbind, start_sequence, within, decode_octets, dret.
  destruct (get_object SequenceCons s) as [[c s']|e'] eqn:Hg.
  - destruct (get_object OctetString c) as [[m c1]|e1] eqn:H1.
    + destruct (get_object OctetString c1) as [[z c2]|e2] eqn:H2;
        [congruence|].
      intros [= <-]. by apply get_object_exc in H2.
    + intros [= <-]. by apply get_object_exc in H1.
  - intros [= <-]. by apply get_object_exc in Hg.
Qed.

Lemma decode_header2_exc s e : decode_header2 s = Exc e -> e = Decoding_Error.
Proof.
  unfold decode_header2, dbind, start_sequence, within, decode_octets.
  destruct (get_object SequenceCons s) as [[c s']|e'] eqn:Hg.
  - destruct (get_object OctetString c) as [[m c1]|e1] eqn:H1; [congruence|].
    intros [= <-]. by apply get_object_exc in H1.
  - intros [= <-]. by apply get_object_exc in Hg.
Qed.

Ltac decoder_step :=
  match goal with
  | |- context [get_object ?t ?s] =>
      let H := fresh "Hg" in
      destruct (get_object t s) as [[? ?]|?] eqn:H;
      [|intros [= <-]; by apply get_object_exc in H]
  | |- context [decode_integer ?s] =>
      let H := fresh "Hi" in
      destruct (decode_integer s) as [[? ?]|?] eqn:H;
      [|intros [= <-]; by apply decode_integer_exc in H]
  | |- context [decode_alg_id ?s] =>
      let H := fresh "Ha" in
      destruct (decode_alg_id s) as [[? ?]|?] eqn:H;
      [|intros [= <-]; by apply decode_alg_id_exc in H]
  end.

Lemma decode_header1_exc s e : decode_header1 s = Exc e -> e = Decoding_Error.
Proof.
  unfold decode_header1, dbind at 1, start_sequence.
  decoder_step. unfold within, dbind, decode_octets, decode_oid.
  repeat decoder_step.
  unfold end_cons. repeat case_match; simplify_eq; congruence.
Qed.

End DecoderExceptions.

Section HeaderStage.
Context `{Constants} `{Botan} `{DER_Encoder}.

(** The input passes the header stage of decrypt: the snoop finds the
    package magic and a size field of four octets, that many octets are
    there and decode to the header [h], Header-2 decodes right after
    them, and its signature verifies over the octets read. The payload
    [ct] follows. *)
Definition accepted_headers (sign_pub_key : Public_Key) (c : bytes)
           (h : Header1) (ct : bytes) : Prop :=
  exists magic szbuf r0 r1 sig,
    snoop_header1 c = Val ((magic, szbuf), r0)
    /\ string_of_list_byte magic = package_magic
    /\ string_of_list_byte magic ≠ ""
    /\ length szbuf = 4%nat
    /\ (N.to_nat (get_uint32 szbuf 0) <= length c)%nat
    /\ decode_header1 (take (N.to_nat (get_uint32 szbuf 0)) c) = Val (h, r1)
    /\ decode_header2 (drop (N.to_nat (get_uint32 szbuf 0)) c) = Val (sig, ct)
    /\ check_signature sign_pub_key rsa_sign_algo
                       (take (N.to_nat (get_uint32 szbuf 0)) c) sig = true.

(** The failures of the header stage, each with its message. *)
Inductive header_failure (sign_pub_key : Public_Key) (c : bytes)
  : message -> Prop :=
| hf_snoop :
    snoop_header1 c = Exc Decoding_Error ->
    header_failure sign_pub_key c Header1a_invalid_input_file_format
| hf_no_magic magic szbuf r0 :
    snoop_header1 c = Val ((magic, szbuf), r0) ->
    string_of_list_byte magic = "" ->
    header_failure sign_pub_key c Unknown_package_magic
| hf_magic magic szbuf r0 :
    snoop_header1 c = Val ((magic, szbuf), r0) ->
    string_of_list_byte magic ≠ package_magic ->
    header_failure sign_pub_key c Expected_package_magic
| hf_size_field magic szbuf r0 :
    snoop_header1 c = Val ((magic, szbuf), r0) ->
    length szbuf ≠ 4%nat ->
    header_failure sign_pub_key c Expected_header1_size_element_of_4_bytes
| hf_short magic szbuf r0 :
    snoop_header1 c = Val ((magic, szbuf), r0) ->
    (length c < N.to_nat (get_uint32 szbuf 0))%nat ->
    header_failure sign_pub_key c Expected_header1_size
| hf_header1 magic szbuf r0 :
    snoop_header1 c = Val ((magic, szbuf), r0) ->
    decode_header1 (take (N.to_nat (get_uint32 szbuf 0)) c)
    = Exc Decoding_Error ->
    header_failure sign_pub_key c Invalid_input_file_format
| hf_header2 magic szbuf r0 :
    snoop_header1 c = Val ((magic, szbuf), r0) ->
    decode_header2 (drop (N.to_nat (get_uint32 szbuf 0)) c)
    = Exc Decoding_Error ->
    header_failure sign_pub_key c Invalid_input_file_format
| hf_signature magic szbuf r0 h r1 sig ct :
    snoop_header1 c = Val ((magic, szbuf), r0) ->
    string_of_list_byte magic = package_magic ->
    length szbuf = 4%nat ->
    (N.to_nat (get_uint32 szbuf 0) <= length c)%nat ->
    decode_header1 (take (N.to_nat (get_uint32 szbuf 0)) c) = Val (h, r1) ->
    decode_header2 (drop (N.to_nat (get_uint32 szbuf 0)) c) = Val (sig, ct) ->
    check_signature sign_pub_key rsa_sign_algo
                    (take (N.to_nat (get_uint32 szbuf 0)) c) sig = false ->
    header_failure sign_pub_key c Signature_mismatch.

(** The header stage either fails, with its message and the output
    removed, or accepts the headers and goes on to the checks of the
    fields and the payload. *)
Lemma decrypt_body_stage vk dk data_fname outfilename o (w : World) c :
  files w !! data_fname = Some c ->
  (exists m, header_failure vk c m
     /\ decrypt_body vk dk data_fname outfilename o w
        = (Return false, failed_world outfilename m w))
  \/ (exists h ct, accepted_headers vk c h ct
        /\ decrypt_body vk dk data_fname outfilename o w
           = (cipher_algo ← decrypt_validate outfilename h;
              decrypt_payload dk outfilename h cipher_algo ct o) w).
Proof.
  intros Hfile.
  remember (decrypt_body vk dk data_fname outfilename o w) as X eqn:HX.
  unfold decrypt_body in HX.
  pose proof (decrypt_snoop_run data_fname outfilename c w Hfile) as Hs.
  destruct (snoop_header1 c) as [[[magic szbuf] r0]|e] eqn:Hsn.
  2:{ pose proof (snoop_header1_exc _ _ Hsn) as ->. cbn in Hs.
      rewrite (bind_Return _ _ _ _ _ Hs) in HX.
      left. eexists. split; [by apply hf_snoop|done]. }
  cbn zeta in Hs.
  case_bool_decide as Hm0.
  { rewrite (bind_Return _ _ _ _ _ Hs) in HX.
    left. eexists. split; [by eapply hf_no_magic|done]. }
  case_bool_decide as Hm.
  { rewrite (bind_Return _ _ _ _ _ Hs) in HX.
    left. eexists. split; [by eapply hf_magic|done]. }
  case_bool_decide as Hz.
  { rewrite (bind_Return _ _ _ _ _ Hs) in HX.
    left. eexists. split; [eapply hf_size_field; [done|congruence]|done]. }
  rewrite (bind_Next _ _ _ _ _ Hs) in HX.
  rewrite (bind_Next _ _ _ _ _ (DataSource_Stream_run _ _ _ Hfile)) in HX.
  unfold mbind at 1, M_bind at 1 in HX.
  rewrite decrypt_headers_run in HX. cbn zeta in HX.
  set (n := N.to_nat (get_uint32 szbuf 0)) in *.
  destruct (N.eqb_spec (N.of_nat (length (take n c))) (get_uint32 szbuf 0))
    as [Hn|Hn]; cbn [negb] in HX.
  2:{ left. eexists. split; [|exact HX].
      eapply hf_short; [done|]. fold n.
      rewrite length_take in Hn. lia. }
  assert (Hle : (n <= length c)%nat) by (rewrite length_take in Hn; lia).
  destruct (decode_header1 (take n c)) as [[h r1]|e] eqn:Hh.
  2:{ pose proof (decode_header1_exc _ _ Hh) as ->. cbn in HX.
      left. eexists. split; [|exact HX]. by eapply hf_header1. }
  destruct (decode_header2 (drop n c)) as [[sig ct]|e] eqn:H2.
  2:{ pose proof (decode_header2_exc _ _ H2) as ->. cbn in HX.
      left. eexists. split; [|exact HX]. by eapply hf_header2. }
  destruct (check_signature vk rsa_sign_algo (take n c) sig) eqn:Hc.
  - right. exists h, ct. split; [|exact HX].
    exists magic, szbuf, r0, r1, sig. repeat split; done.
  - left. eexists. split; [|exact HX].
    eapply hf_signature; done.
Qed.

(** The messages of the header stage. *)
Definition header_stage_messages : list message :=
  [ Unknown_package_magic; Expected_package_magic;
    Expected_header1_size_element_of_4_bytes;
    Header1a_invalid_input_file_format; Expected_header1_size;
    Invalid_input_file_format; Signature_mismatch ].

Lemma header_failure_message vk c m :
  header_failure vk c m -> m ∈ header_stage_messages.
Proof. unfold header_stage_messages. destruct 1; set_solver. Qed.

End HeaderStage.

Section FieldChecks.
Context `{Constants} `{Botan} `{DER_Encoder}.

(** The failures of the checks of the header fields, each with its
    message. *)
Inductive field_mismatch (h : Header1) : message -> Prop :=
| fm_filename :
    string_of_list_byte (h_filename h) = "" ->
    field_mismatch h Unknown_filename
| fm_no_sign_algo :
    string_of_list_byte (h_sign_algo h) = "" ->
    field_mismatch h Unknown_signing_algo
| fm_sign_algo :
    string_of_list_byte (h_sign_algo h) ≠ rsa_sign_algo ->
    field_mismatch h Expected_signing_algo
| fm_pk_algo :
    oid2str_or_empty (alg_oid (h_pk_alg_id h)) ≠ "RSA/" +:+ rsa_padding_algo ->
    field_mismatch h Expected_encryption_padding_algo
| fm_hash_decode e :
    decode_alg_id (alg_parameters (h_pk_alg_id h)) = Exc e ->
    field_mismatch h (Caught_exception e)
| fm_no_hash hash_algo_id r :
    decode_alg_id (alg_parameters (h_pk_alg_id h)) = Val (hash_algo_id, r) ->
    oid2str_or_empty (alg_oid hash_algo_id) = "" ->
    field_mismatch h Unknown_hash_function
| fm_hash hash_algo_id r :
    decode_alg_id (alg_parameters (h_pk_alg_id h)) = Val (hash_algo_id, r) ->
    oid2str_or_empty (alg_oid hash_algo_id) ≠ rsa_hash_algo ->
    field_mismatch h Expected_hash_function
| fm_hash_parameters hash_algo_id r :
    decode_alg_id (alg_parameters (h_pk_alg_id h)) = Val (hash_algo_id, r) ->
    alg_parameters hash_algo_id ≠ [] ->
    field_mismatch h Unknown_hash_function_parameter
| fm_no_cipher :
    oid2str_or_empty (h_cipher_algo_oid h) = "" ->
    field_mismatch h Unknown_encryption_algo
| fm_cipher :
    oid2str_or_empty (h_cipher_algo_oid h) ≠ aead_cipher_algo ->
    field_mismatch h Expected_encryption_algo.

Lemma field_mismatch_invalid h m :
  field_mismatch h m -> ~ header_fields_valid h.
Proof.
  intros Hm (Hf & Hs & Hs0 & Hpk & (ho & r & Hd & Hh & Hh0) & Hc & Hc0).
  destruct Hm; try congruence;
    match goal with
    | E : decode_alg_id _ = _ |- _ =>
        rewrite Hd in E; simplify_eq; cbn in *; congruence
    end.
Qed.

(** The checks of the fields: every field is as expected and the
    checks fall through; or a check fails with the message of its
    mismatch and the output is removed; or the parameters of
    [pk_alg_id] do not decode and the exception is thrown. *)
Lemma decrypt_validate_outcome outfilename h w :
  (header_fields_valid h
   /\ decrypt_validate outfilename h w = (Next aead_cipher_algo, w))
  \/ (exists m, field_mismatch h m
        /\ (decrypt_validate outfilename h w
            = (Return false, failed_world outfilename m w)
            \/ exists e, m = Caught_exception e
                 /\ decrypt_validate outfilename h w = (Throw e, w))).
Proof.
  remember (decrypt_validate outfilename h w) as X eqn:HX.
  unfold decrypt_validate, mbind, M_bind in HX.
  case_bool_decide as Hf; cbn [when mret M_ret] in HX.
  { right. eexists. split; [by apply fm_filename|by left]. }
  case_bool_decide as Hs0; cbn [when mret M_ret] in HX.
  { right. eexists. split; [by apply fm_no_sign_algo|by left]. }
  case_bool_decide as Hs; cbn [when mret M_ret] in HX.
  { right. eexists. split; [by apply fm_sign_algo|by left]. }
  case_bool_decide as Hpk; cbn [when mret M_ret] in HX.
  { right. eexists. split; [by apply fm_pk_algo|by left]. }
  unfold decode in HX.
  destruct (decode_alg_id _) as [[hid r]|e] eqn:Hd;
    cbn [lift mret M_ret throw] in HX.
  2:{ right. eexists. split; [by eapply fm_hash_decode|]. right. eauto. }
  case_bool_decide as Hh0; cbn [when mret M_ret] in HX.
  { right. eexists. split; [by eapply fm_no_hash|by left]. }
  case_bool_decide as Hh; cbn [when mret M_ret] in HX.
  { right. eexists. split; [by eapply fm_hash|by left]. }
  case_bool_decide as Hp; cbn [negb when mret M_ret] in HX.
  2:{ right. eexists. split; [by eapply fm_hash_parameters|by left]. }
  case_bool_decide as Hc0; cbn [when mret M_ret] in HX.
  { right. eexists. split; [by apply fm_no_cipher|by left]. }
  case_bool_decide as Hc; cbn [when mret M_ret] in HX.
  { right. eexists. split; [by apply fm_cipher|by left]. }
  left. rewrite Hc in HX. split; [|done].
  destruct hid as [ho hp]. cbn in *. subst hp.
  repeat split; try done; try congruence.
  exists ho, r. repeat split; congruence.
Qed.

End FieldChecks.

Section Fatal.
Context `{Constants} `{Botan} `{DER_Encoder}.

(** A fatal outcome of decrypt: it returns false, the output path is
    absent, and the message is the one event added to the trace. *)
Definition fatal (outfilename : string) (m : message) (w : World)
           (r : bool * World) : Prop :=
  r.1 = false
  /\ files r.2 !! outfilename = None
  /\ trace r.2 = trace w ++ [ERR_PRINT Decrypt m].

(** The conditions under which decrypt gets to its input: the output
    may be written, both keys load and the input file is there. *)
Definition decrypt_ready (sign_pub_key_fname dec_sec_key_fname passphrase
                            data_fname outfilename : string)
           (overwrite : bool) (w : World) (sign_pub_key : Public_Key)
           (dec_sec_key : Private_Key) (c : bytes) : Prop :=
  (files w !! outfilename = None \/ overwrite = true)
  /\ (outfilename ∉ unwritable w)
  /\ files (opened outfilename w) !! sign_pub_key_fname ≫= public_key_of
     = Some sign_pub_key
  /\ (files (opened outfilename w) !! dec_sec_key_fname
        ≫= fun k => private_key_of k passphrase) = Some dec_sec_key
  /\ files (opened outfilename w) !! data_fname = Some c.

Lemma decrypt_ready_run k1 k2 p d out ow w vk dk c :
  decrypt_ready k1 k2 p d out ow w vk dk c ->
  checkSignThenDecrypt_RSA1 k1 k2 p d out ow w
  = run_function
      (try_catch (decrypt_body vk dk d out (fresh_stream out))
                 is_std_exception
                 (fun e => failed out (Caught_exception e)))
      (opened out w).
Proof. intros (Hok & Hw & Hvk & Hdk & _). by apply decrypt_after_keys. Qed.

Lemma fatal_return out m w body :
  body (opened out w) = (Return false, failed_world out m (opened out w)) ->
  fatal out m w
        (run_function
           (try_catch body is_std_exception
                      (fun e => failed out (Caught_exception e)))
           (opened out w)).
Proof.
  intros Hb. unfold run_function, try_catch. rewrite Hb.
  unfold fatal, failed_world, set_files, add_event, opened.
  cbn [fst snd files trace]. by rewrite lookup_delete_eq.
Qed.

Lemma fatal_throw out e w w' body :
  body (opened out w) = (Throw e, w') ->
  trace w' = trace w ->
  fatal out (Caught_exception e) w
        (run_function
           (try_catch body is_std_exception
                      (fun e => failed out (Caught_exception e)))
           (opened out w)).
Proof.
  intros Hb Ht. unfold run_function, try_catch. rewrite Hb.
  unfold fatal, failed, mbind, M_bind, err_print, IOUtil.remove, return_,
    set_files, add_event.
  cbn [fst snd files trace is_std_exception]. by rewrite lookup_delete_eq, Ht.
Qed.

End Fatal.


Section Accepted.
Context `{Constants} `{Botan} `{DER_Encoder}.

Lemma accepted_not_failure vk c h ct m :
  accepted_headers vk c h ct -> header_failure vk c m -> False.
Proof.
  intros (magic & szbuf & r0 & r1 & sig & Hs & Hm & Hm0 & Hz & Hle & Hh
          & H2 & Hc) Hf.
  destruct Hf;
    repeat match goal with
           | E : snoop_header1 c = _ |- _ => rewrite Hs in E; simplify_eq
           | E : decode_header1 _ = _ |- _ => rewrite Hh in E; simplify_eq
           | E : decode_header2 _ = _ |- _ => rewrite H2 in E; simplify_eq
           end;
    try congruence; try lia.
Qed.

Lemma accepted_functional vk c h ct h' ct' :
  accepted_headers vk c h ct -> accepted_headers vk c h' ct' ->
  h' = h /\ ct' = ct.
Proof.
  intros (magic & szbuf & r0 & r1 & sig & Hs & _ & _ & _ & _ & Hh & H2 & _)
         (magic' & szbuf' & r0' & r1' & sig' & Hs' & _ & _ & _ & _ & Hh'
          & H2' & _).
  rewrite Hs in Hs'. simplify_eq. rewrite Hh in Hh'. rewrite H2 in H2'.
  by simplify_eq.
Qed.

Lemma decrypt_body_accepted vk dk data_fname outfilename o (w : World) c h ct :
  files w !! data_fname = Some c ->
  accepted_headers vk c h ct ->
  decrypt_body vk dk data_fname outfilename o w
  = (cipher_algo ← decrypt_validate outfilename h;
     decrypt_payload dk outfilename h cipher_algo ct o) w.
Proof.
  intros Hfile Hacc.
  destruct (decrypt_body_stage vk dk data_fname outfilename o w c Hfile)
    as [(m & Hf & _)|(h' & ct' & Hacc' & Hrun)].
  - destruct (accepted_not_failure _ _ _ _ _ Hacc Hf).
  - destruct (accepted_functional _ _ _ _ _ _ Hacc Hacc') as [-> ->].
    exact Hrun.
Qed.

Lemma write_trace o data w :
  exists o' w', write o data w = (Next o', w') /\ trace w' = trace w.
Proof.
  unfold write. destruct (of_fail o); [by eexists _, _|].
  destruct (_ && _); by eexists _, _.
Qed.

Lemma consume_data_trace st data is_final w :
  match consume_data st data is_final w with
  | (Next st', w') =>
      trace w' = trace w
      /\ (if is_final
          then st_aead st' = st_aead st
               /\ exists out, finish (st_aead st) data = Val out
          else st_aead st' = (update (st_aead st) data).2)
  | (Return _, _) => False
  | (Throw e, w') =>
      trace w' = trace w /\ is_final = true
      /\ finish (st_aead st) data = Exc e
  end.
Proof.
  unfold consume_data. destruct is_final; cbn [negb].
  - destruct (finish (st_aead st) data) as [out|e]; cbn [lift];
      [|by cbn].
    unfold mbind, M_bind. cbn [mret M_ret].
    destruct (write_trace (st_outfile st) out w) as (o' & w' & -> & Ht).
    cbn. eauto.
  - destruct (update (st_aead st) data) as [out a].
    unfold mbind, M_bind.
    destruct (write_trace (st_outfile st) out w) as (o' & w' & -> & Ht).
    done.
Qed.

(** When the AEAD rejects the stream, the sink throws its exception,
    whatever becomes of the writes. *)
Lemma consume_all_throws cs : forall st w e,
  (aead_run (st_aead st) cs).2 = Some e ->
  exists w', foldM (fun s c => consume_data s c.1 c.2) st cs w = (Throw e, w')
             /\ trace w' = trace w.
Proof.
  induction cs as [|[data is_final] cs IH]; intros st w e Hrun;
    [done|].
  cbn [foldM fst snd]. cbn [aead_run] in Hrun.
  pose proof (consume_data_trace st data is_final w) as Hstep.
  unfold mbind, M_bind.
  destruct (consume_data st data is_final w) as [[st'|b|e'] w'];
    [|done|].
  - destruct Hstep as [Ht Ha]. destruct is_final; cbn [negb] in Hrun.
    + destruct Ha as [Ha [out Hfin]]. rewrite Hfin in Hrun.
      destruct (aead_run (st_aead st) cs) as [outs r] eqn:Hr.
      cbn [snd] in Hrun. subst r.
      destruct (IH st' w' e) as (w'' & Hf & Ht'').
      { by rewrite Ha, Hr. }
      exists w''. split; [done|congruence].
    + destruct (update (st_aead st) data) as [out a] eqn:Hu.
      cbn [snd] in Ha.
      destruct (aead_run a cs) as [outs r] eqn:Hr.
      cbn [snd] in Hrun. subst r.
      destruct (IH st' w' e) as (w'' & Hf & Ht'').
      { by rewrite Ha, Hr. }
      exists w''. split; [done|congruence].
  - destruct Hstep as (Ht & -> & Hfin). cbn [negb] in Hrun.
    rewrite Hfin in Hrun. cbn in Hrun. simplify_eq. by exists w'.
Qed.

End Accepted.

Section PayloadOutcome.
Context `{Constants} `{Botan} `{DER_Encoder}.

(** The AEAD that decrypt starts for a header: the key is the one
    unwrapped or substituted, the associated data the [encrypted_key]
    octets of the header, the nonce that of the header. *)
Definition decrypt_aead (dec_sec_key : Private_Key) (h : Header1)
           (aead : AEAD_Mode) (r : RandomNumberGenerator)
  : result AEAD_Mode :=
  start (set_associated_data_vec
           (set_key aead (unwrapped_key dec_sec_key (h_encrypted_key h)
                                        (maximum_keylength aead) r))
           (h_encrypted_key h))
        (h_nonce h).

Lemma decrypt_payload_rejects dk out h ct o ad (w : World) sd e :
  AEAD_create aead_cipher_algo DECRYPTION = Some ad ->
  decrypt_aead dk h ad (rng w) = Val sd ->
  (aead_stream sd ct).2 = Some e ->
  exists w', decrypt_payload dk out h aead_cipher_algo ct o w = (Throw e, w')
             /\ trace w' = trace w.
Proof.
  intros Ha Hs Hr. unfold decrypt_payload, create_or_throw. rewrite Ha.
  unfold mbind at 1, M_bind at 1. cbn [mret M_ret]. cbn zeta.
  fold eme_name.
  rewrite (bind_Next _ _ _ _ _ (decrypt_or_random_run _ _ _ _)).
  unfold decrypt_aead in Hs.
  unfold mbind at 1, M_bind at 1. rewrite Hs. cbn [lift mret M_ret].
  unfold IOUtil.read_stream, mbind, M_bind.
  match goal with
  | |- context [foldM ?f ?st ?cs ?w0] =>
      destruct (consume_all_throws cs st w0 e Hr) as (w' & Hf & Ht)
  end.
  exists w'. split; [|exact Ht].
  by rewrite Hf.
Qed.

Lemma decrypt_payload_start_fails dk out h ct o ad (w : World) e :
  AEAD_create aead_cipher_algo DECRYPTION = Some ad ->
  decrypt_aead dk h ad (rng w) = Exc e ->
  exists w', decrypt_payload dk out h aead_cipher_algo ct o w = (Throw e, w')
             /\ trace w' = trace w.
Proof.
  intros Ha Hs. unfold decrypt_payload, create_or_throw. rewrite Ha.
  unfold mbind at 1, M_bind at 1. cbn [mret M_ret]. cbn zeta.
  fold eme_name.
  rewrite (bind_Next _ _ _ _ _ (decrypt_or_random_run _ _ _ _)).
  unfold decrypt_aead in Hs.
  unfold mbind at 1, M_bind at 1. rewrite Hs. cbn [lift throw].
  by eexists.
Qed.

Lemma decrypt_payload_succeeds dk out h ct o ad (w : World) sd c0 :
  AEAD_create aead_cipher_algo DECRYPTION = Some ad ->
  of_fail o = false -> of_path o = out -> disk_full w = false ->
  files w !! out = Some c0 ->
  decrypt_aead dk h ad (rng w) = Val sd ->
  (aead_stream sd ct).2 = None ->
  exists w', decrypt_payload dk out h aead_cipher_algo ct o w = (Next tt, w')
             /\ files w' = <[out := c0 ++ (aead_stream sd ct).1]> (files w).
Proof.
  intros Ha Hf Hp Hd Hc Hs Hr.
  pose proof (wp_decrypt_payload dk out h ct o ad c0 w
                (fun _ w' => files w'
                             = <[out := c0 ++ (aead_stream sd ct).1]> (files w))
                (fun _ _ => False) (fun _ _ => False) Ha Hf Hd Hp Hc) as Hwp.
  cbn zeta in Hwp. unfold decrypt_aead in Hs. rewrite Hs in Hwp.
  unfold wp in Hwp.
  destruct (decrypt_payload dk out h aead_cipher_algo ct o w)
    as [[[]|b|e] w'].
  - exists w'. split; [done|]. apply Hwp.
    + intros a w0 [= <-] _ Hfi _ _ _. exact Hfi.
    + intros a e w0 [= <-] He. congruence.
    + intros e w0 He. discriminate He.
  - exfalso. apply Hwp.
    + intros a w0 [= <-] _ Hfi _ _ _. exact Hfi.
    + intros a e w0 [= <-] He. congruence.
    + intros e w0 He. discriminate He.
  - exfalso. apply Hwp.
    + intros a w0 [= <-] _ Hfi _ _ _. exact Hfi.
    + intros a e' w0 [= <-] He. congruence.
    + intros e' w0 He. discriminate He.
Qed.

End PayloadOutcome.


Section DecryptClaims.
Context `{Constants} `{Botan} `{DER_Encoder}.

Lemma fatal_body k1 k2 p d out ow (w : World) vk dk c m :
  decrypt_ready k1 k2 p d out ow w vk dk c ->
  decrypt_body vk dk d out (fresh_stream out) (opened out w)
  = (Return false, failed_world out m (opened out w)) ->
  fatal out m w (checkSignThenDecrypt_RSA1 k1 k2 p d out ow w).
Proof.
  intros Hr Hb. rewrite (decrypt_ready_run _ _ _ _ _ _ _ _ _ _ Hr).
  by apply fatal_return.
Qed.

Lemma fatal_body_throw k1 k2 p d out ow (w : World) vk dk c e w' :
  decrypt_ready k1 k2 p d out ow w vk dk c ->
  decrypt_body vk dk d out (fresh_stream out) (opened out w) = (Throw e, w') ->
  trace w' = trace w ->
  fatal out (Caught_exception e) w
        (checkSignThenDecrypt_RSA1 k1 k2 p d out ow w).
Proof.
  intros Hr Hb Ht. rewrite (decrypt_ready_run _ _ _ _ _ _ _ _ _ _ Hr).
  by eapply fatal_throw.
Qed.

(** The fields of an accepted header that do not pass their checks
    make decrypt fatal, with the message of a mismatch. *)
Lemma fatal_field_mismatch k1 k2 p d out ow (w : World) vk dk c h ct :
  decrypt_ready k1 k2 p d out ow w vk dk c ->
  accepted_headers vk c h ct ->
  ~ header_fields_valid h ->
  exists m, field_mismatch h m
            /\ fatal out m w (checkSignThenDecrypt_RSA1 k1 k2 p d out ow w).
Proof.
  intros Hr Hacc Hinv.
  pose proof Hr as (_ & _ & _ & _ & Hfile).
  pose proof (decrypt_body_accepted vk dk d out (fresh_stream out) _ c h ct
                Hfile Hacc) as Hb.
  destruct (decrypt_validate_outcome out h (opened out w))
    as [[Hv _]|(m & Hm & [Hrun|(e & -> & Hrun)])]; [done|..].
  - exists m. split; [done|]. eapply fatal_body; [done|].
    rewrite Hb. rewrite (bind_Return _ _ _ _ _ Hrun). reflexivity.
  - eexists. split; [done|].
    eapply fatal_body_throw;
      [done|rewrite Hb; by rewrite (bind_Throw _ _ _ _ _ Hrun)|done].
Qed.

(** C8: a package magic other than the expected one, and every field of
    a verified header that fails its check (filename, signing algorithm,
    public-key algorithm, nested hash algorithm, cipher OID), make
    decrypt fatal: it returns false, the output is removed and the
    message of the mismatch is printed. *)
Theorem header_validation_fatal
        (sign_pub_key_fname dec_sec_key_fname passphrase data_fname
           outfilename : string) (overwrite : bool) (w : World)
        (sign_pub_key : Public_Key) (dec_sec_key : Private_Key) (c : bytes) :
  decrypt_ready sign_pub_key_fname dec_sec_key_fname passphrase data_fname
                outfilename overwrite w sign_pub_key dec_sec_key c ->
  let r := checkSignThenDecrypt_RSA1 sign_pub_key_fname dec_sec_key_fname
             passphrase data_fname outfilename overwrite w in
  (forall magic szbuf r0,
      snoop_header1 c = Val ((magic, szbuf), r0) ->
      string_of_list_byte magic ≠ package_magic ->
      exists m, m ∈ [Unknown_package_magic; Expected_package_magic]
                /\ fatal outfilename m w r)
  /\ (forall h ct,
         accepted_headers sign_pub_key c h ct ->
         ~ header_fields_valid h ->
         exists m, field_mismatch h m /\ fatal outfilename m w r).
Proof.
  intros Hr r. split.
  - intros magic szbuf r0 Hs Hm.
    pose proof Hr as (_ & _ & _ & _ & Hfile).
    pose proof (decrypt_snoop_run data_fname outfilename c _ Hfile) as Hrun.
    rewrite Hs in Hrun. cbn zeta in Hrun.
    case_bool_decide as Hm0.
    + exists Unknown_package_magic. split; [set_solver|].
      eapply fatal_body; [done|]. unfold decrypt_body.
      by rewrite (bind_Return _ _ _ _ _ Hrun).
    + rewrite bool_decide_eq_true_2 in Hrun by done.
      exists Expected_package_magic. split; [set_solver|].
      eapply fatal_body; [done|]. unfold decrypt_body.
      by rewrite (bind_Return _ _ _ _ _ Hrun).
  - intros h ct Hacc Hinv. by eapply fatal_field_mismatch.
Qed.

(** C10: when the Header-1 decoded from the input has an empty
    filename, decrypt is fatal: it returns false and the output is
    removed, with the message of the empty filename or of a header
    failure found before it. *)
Theorem empty_filename_rejected
        (sign_pub_key_fname dec_sec_key_fname passphrase data_fname
           outfilename : string) (overwrite : bool) (w : World)
        (sign_pub_key : Public_Key) (dec_sec_key : Private_Key)
        (c magic szbuf r0 : bytes) (h : Header1) (r1 : bytes) :
  decrypt_ready sign_pub_key_fname dec_sec_key_fname passphrase data_fname
                outfilename overwrite w sign_pub_key dec_sec_key c ->
  snoop_header1 c = Val ((magic, szbuf), r0) ->
  decode_header1 (take (N.to_nat (get_uint32 szbuf 0)) c) = Val (h, r1) ->
  h_filename h = [] ->
  exists m,
    m ∈ Unknown_filename :: header_stage_messages
    /\ fatal outfilename m w
             (checkSignThenDecrypt_RSA1 sign_pub_key_fname dec_sec_key_fname
                passphrase data_fname outfilename overwrite w).
Proof.
  intros Hr Hs Hh Hfn.
  pose proof Hr as (_ & _ & _ & _ & Hfile).
  destruct (decrypt_body_stage sign_pub_key dec_sec_key data_fname outfilename
              (fresh_stream outfilename) _ c Hfile)
    as [(m & Hf & Hrun)|(h' & ct & Hacc & Hrun)].
  - exists m. split.
    + apply list_elem_of_further. by eapply header_failure_message.
    + by eapply fatal_body.
  - assert (h' = h) as ->.
    { destruct Hacc as (?&?&?&?&?& Hs' &_&_&_&_& Hh' &_).
      rewrite Hs in Hs'. simplify_eq. rewrite Hh in Hh'. by simplify_eq. }
    exists Unknown_filename. split; [set_solver|].
    eapply fatal_body; [done|]. rewrite Hrun.
    erewrite bind_Return; [reflexivity|].
    unfold decrypt_validate. erewrite bind_Return; [reflexivity|].
    rewrite Hfn. reflexivity.
Qed.

(** C6: the signature is checked over the octets read from the input,
    as many as the size field declares; when no signature found after
    them verifies over them, decrypt is fatal with the message of a
    failure of the header stage, before any payload is processed. *)
Theorem tampered_header1_rejected
        (sign_pub_key_fname dec_sec_key_fname passphrase data_fname
           outfilename : string) (overwrite : bool) (w : World)
        (sign_pub_key : Public_Key) (dec_sec_key : Private_Key) (c : bytes) :
  decrypt_ready sign_pub_key_fname dec_sec_key_fname passphrase data_fname
                outfilename overwrite w sign_pub_key dec_sec_key c ->
  (forall magic szbuf r0 sig ct,
      snoop_header1 c = Val ((magic, szbuf), r0) ->
      decode_header2 (drop (N.to_nat (get_uint32 szbuf 0)) c) = Val (sig, ct) ->
      check_signature sign_pub_key rsa_sign_algo
                      (take (N.to_nat (get_uint32 szbuf 0)) c) sig = false) ->
  exists m,
    header_failure sign_pub_key c m
    /\ m ∈ header_stage_messages
    /\ fatal outfilename m w
             (checkSignThenDecrypt_RSA1 sign_pub_key_fname dec_sec_key_fname
                passphrase data_fname outfilename overwrite w).
Proof.
  intros Hr Hsig.
  pose proof Hr as (_ & _ & _ & _ & Hfile).
  destruct (decrypt_body_stage sign_pub_key dec_sec_key data_fname outfilename
              (fresh_stream outfilename) _ c Hfile)
    as [(m & Hf & Hrun)|(h' & ct & Hacc & Hrun)].
  - exists m. split; [done|]. split; [by eapply header_failure_message|].
    by eapply fatal_body.
  - destruct Hacc as (magic & szbuf & r0 & r1 & sig & Hs &_&_&_&_&_& H2 & Hc).
    rewrite (Hsig _ _ _ _ _ Hs H2) in Hc. discriminate Hc.
Qed.


Lemma decrypt_aead_binding
        (sign_pub_key_fname dec_sec_key_fname passphrase data_fname
           outfilename : string) (overwrite : bool) (w : World)
        (sign_pub_key : Public_Key) (dec_sec_key : Private_Key)
        (c : bytes) (h : Header1) (ct : bytes) (aead : AEAD_Mode) :
  decrypt_ready sign_pub_key_fname dec_sec_key_fname passphrase data_fname
                outfilename overwrite w sign_pub_key dec_sec_key c ->
  accepted_headers sign_pub_key c h ct ->
  header_fields_valid h ->
  disk_full w = false ->
  AEAD_create aead_cipher_algo DECRYPTION = Some aead ->
  let r := checkSignThenDecrypt_RSA1 sign_pub_key_fname dec_sec_key_fname
             passphrase data_fname outfilename overwrite w in
  match decrypt_aead dec_sec_key h aead (rng w) with
  | Exc e => fatal outfilename (Caught_exception e) w r
  | Val sd =>
      match (aead_stream sd ct).2 with
      | Some e => fatal outfilename (Caught_exception e) w r
      | None => r.1 = true
                /\ files r.2 !! outfilename = Some (aead_stream sd ct).1
      end
  end.
Proof.
  intros Hr Hacc Hv Hd Ha r.
  pose proof Hr as (_ & _ & _ & _ & Hfile).
  pose proof (decrypt_body_accepted sign_pub_key dec_sec_key data_fname
                outfilename (fresh_stream outfilename) _ c h ct Hfile Hacc)
    as Hb.
  rewrite (bind_Next _ _ _ _ _ (decrypt_validate_valid _ _ _ Hv)) in Hb.
  destruct (decrypt_aead dec_sec_key h aead (rng w)) as [sd|e] eqn:Hs.
  - destruct (aead_stream sd ct).2 as [e|] eqn:Hrun.
    + destruct (decrypt_payload_rejects dec_sec_key outfilename h ct
                  (fresh_stream outfilename) aead (opened outfilename w) sd e
                  Ha Hs Hrun) as (w' & Hp & Ht).
      eapply fatal_body_throw; [done| |exact Ht]. by rewrite Hb.
    + destruct (decrypt_payload_succeeds dec_sec_key outfilename h ct
                  (fresh_stream outfilename) aead (opened outfilename w) sd []
                  Ha eq_refl eq_refl Hd) as (w' & Hp & Hfi); [|exact Hs|exact Hrun|].
      { cbn [opened set_files files]. apply lookup_insert_eq. }
      subst r. rewrite (decrypt_ready_run _ _ _ _ _ _ _ _ _ _ Hr).
      unfold run_function, try_catch. rewrite Hb, Hp. cbn [fst snd].
      split; [done|]. rewrite Hfi. apply lookup_insert_eq.
  - destruct (decrypt_payload_start_fails dec_sec_key outfilename h ct
                (fresh_stream outfilename) aead (opened outfilename w) e
                Ha Hs) as (w' & Hp & Ht).
    eapply fatal_body_throw; [done| |exact Ht]. by rewrite Hb.
Qed.

End DecryptClaims.


Section CutTag.
Context `{Constants} `{Botan}.

(** The file that encrypt makes of its setup passes the header stage
    and the field checks of decrypt, whatever the payload. *)
Lemma made_file_accepted k1 k2 p d es w0 (w : World) vk ct :
  constants_wf -> registry_consistent -> d <> "" ->
  der_prepared w k1 k2 p es w0 ->
  headers_fit d es w0 ->
  check_signature vk rsa_sign_algo (der_header1_pass2 d es)
                  (header2_signature d es w0) = true ->
  exists h,
    accepted_headers vk (der_header1_pass2 d es
                         ++ der_header2 (header2_signature d es w0) ++ ct) h ct
    /\ header_fields_valid h.
Proof.
  intros Hcwf Hreg Hd0 Hprep [Hl1 Hl2] Hsig.
  destruct (header1_pass2_eq d es Hl1) as (szbuf & HH1 & Hsz & Hget).
  set (h := make_header1 d es szbuf) in *.
  set (sig := header2_signature d es w0) in *.
  assert (Hl1' : N.of_nat (length (der_encode_header1 h)) < 2 ^ 32)
    by (rewrite <- HH1; exact Hl1).
  assert (Hn : N.to_nat (get_uint32 szbuf 0) = length (der_encode_header1 h)).
  { rewrite Hget, HH1. apply Nat2N.id. }
  exists h. rewrite HH1 in *. split.
  - exists (h_package_magic h), szbuf, (der_header2 sig ++ ct), [], sig.
    rewrite Hn, take_app_length, drop_app_length.
    split; [by apply snoop_encode_header1|].
    split; [apply string_of_list_byte_of_string|].
    split.
    { cbn [h make_header1 h_package_magic].
      rewrite string_of_list_byte_of_string. apply Hcwf. }
    split; [exact Hsz|].
    split; [rewrite length_app; lia|].
    split.
    { rewrite <- (app_nil_r (der_encode_header1 h)) at 1.
      apply decode_encode_header1; [exact Hl1'|cbn; lia|cbn; lia]. }
    split; [by apply decode_encode_header2|].
    exact Hsig.
  - apply (made_header_valid d es szbuf _ _ _ _ _ Hcwf Hreg Hd0 Hprep).
    exact Hl1'.
Qed.

(** C1: a file that encrypt wrote is not decrypted when the tag does not
    lie within the final read of the payload: with a tag of [tag_size]
    octets and a plaintext of [n] octets such that
    [(n + tag_size) mod buffer_size < tag_size], the final read holds
    fewer octets than the tag, [finish] throws, and decrypt returns
    false with the exception caught and the output removed. *)
Theorem roundtrip_fails_when_tag_is_cut
        (enc_pub_key_fname sign_sec_key_fname passphrase data_fname
           outfilename : string) (overwrite : bool)
        (sign_pub_key_fname dec_sec_key_fname passphrase' outfilename'
           : string) (overwrite' : bool)
        (w w1 : World) (plaintext : bytes)
        (sign_pub_key : Public_Key) (dec_sec_key : Private_Key)
        (tag_size : nat) (aead : AEAD_Mode) :
  constants_wf -> registry_consistent ->
  der_encrypt enc_pub_key_fname sign_sec_key_fname passphrase data_fname
              outfilename overwrite w = (true, w1) ->
  files w !! data_fname = Some plaintext ->
  data_fname <> "" -> data_fname <> outfilename ->
  sign_sec_key_fname <> outfilename ->
  (forall sk, (files w !! sign_sec_key_fname
                 ≫= fun c => private_key_of c passphrase) = Some sk ->
              valid_sign_pair sk sign_pub_key) ->
  (forall es w0,
      @encrypt_prepare _ _ Botan_DER enc_pub_key_fname sign_sec_key_fname
                       passphrase (opened outfilename w) = (Next es, w0) ->
      headers_fit data_fname es w0 /\ appends_tag tag_size (es_aead es)) ->
  AEAD_create aead_cipher_algo DECRYPTION = Some aead ->
  (forall key ad nonce sd,
      start (set_associated_data_vec (set_key aead key) ad) nonce = Val sd ->
      needs_tag tag_size sd) ->
  files w1 !! sign_pub_key_fname ≫= public_key_of = Some sign_pub_key ->
  (files w1 !! dec_sec_key_fname ≫= fun c => private_key_of c passphrase')
  = Some dec_sec_key ->
  outfilename' <> outfilename -> outfilename' <> sign_pub_key_fname ->
  outfilename' <> dec_sec_key_fname ->
  files w1 !! outfilename' = None \/ overwrite' = true ->
  outfilename' ∉ unwritable w1 ->
  ((length plaintext + tag_size) mod buffer_size < tag_size)%nat ->
  exists e,
    fatal outfilename' (Caught_exception e) w1
          (checkSignThenDecrypt_RSA1 sign_pub_key_fname dec_sec_key_fname
                                     passphrase' outfilename outfilename'
                                     overwrite' w1).
Proof.
  intros Hcwf Hreg Hrun Hpt Hd0 Hdo Hk2 Hsig Hfit Ha Hneed Hvk Hdk
         Ho1 Ho2 Ho3 Hok' Hw' Hcut.
  destruct (encrypt_success _ _ _ _ _ _ _ _ Hrun Hdo)
    as (_ & _ & _ & es & w0 & pt & Heq & Hprep & Hpt' & Hst & Hfi & Hd1 & _).
  assert (pt = plaintext) as -> by congruence.
  destruct (Hfit es w0 Heq) as [Hhf Hlen].
  set (ct := (aead_stream (es_aead es) plaintext).1) in *.
  destruct (made_file_accepted enc_pub_key_fname sign_sec_key_fname passphrase
              data_fname es w0 (opened outfilename w) sign_pub_key ct
              Hcwf Hreg Hd0 Hprep Hhf) as (h & Hacc & Hv).
  { destruct Hprep as (?&?&?&?&?& _ & Hsk & _).
    cbn [opened set_files files] in Hsk.
    rewrite lookup_insert_ne in Hsk by done.
    unfold header2_signature. by apply Hsig. }
  assert (Hr : decrypt_ready sign_pub_key_fname dec_sec_key_fname passphrase'
                 outfilename outfilename' overwrite' w1 sign_pub_key
                 dec_sec_key
                 (der_header1_pass2 data_fname es
                  ++ der_header2 (header2_signature data_fname es w0) ++ ct)).
  { split; [exact Hok'|]. split; [exact Hw'|].
    cbn [opened set_files files].
    rewrite !lookup_insert_ne by done.
    split; [exact Hvk|]. split; [exact Hdk|].
    by rewrite Hfi, lookup_insert_eq. }
  pose proof (decrypt_aead_binding _ _ _ _ _ _ _ _ _ _ h ct aead
                Hr Hacc Hv Hd1 Ha) as Hb.
  cbn zeta in Hb.
  destruct (decrypt_aead dec_sec_key h aead (rng w1)) as [sd|e] eqn:Hs;
    [|by exists e].
  pose proof (aead_stream_cut tag_size (es_aead es) sd plaintext Hlen
                (Hneed _ _ _ _ Hs) Hst Hcut) as Hne.
  fold ct in Hne.
  destruct (aead_stream sd ct).2 as [e|]; [by exists e|done].
Qed.

End CutTag.


Section EarlyReturns.
Context `{Constants} `{Botan} `{DER_Encoder}.

(** The conditions under which encrypt returns from its preparation
    directly, with the diagnostics it prints before. *)
Inductive encrypt_early_return (enc_pub_key_fname sign_sec_key_fname
                                  passphrase : string) (w : World)
  : list message -> Prop :=
| er_enc_pub_key :
    files w !! enc_pub_key_fname ≫= public_key_of = None ->
    encrypt_early_return enc_pub_key_fname sign_sec_key_fname passphrase w []
| er_sign_sec_key enc_pub_key :
    files w !! enc_pub_key_fname ≫= public_key_of = Some enc_pub_key ->
    (files w !! sign_sec_key_fname ≫= fun c => private_key_of c passphrase)
    = None ->
    encrypt_early_return enc_pub_key_fname sign_sec_key_fname passphrase w []
| er_aead enc_pub_key sign_sec_key :
    files w !! enc_pub_key_fname ≫= public_key_of = Some enc_pub_key ->
    (files w !! sign_sec_key_fname ≫= fun c => private_key_of c passphrase)
    = Some sign_sec_key ->
    AEAD_create aead_cipher_algo ENCRYPTION = None ->
    encrypt_early_return enc_pub_key_fname sign_sec_key_fname passphrase w
                         [AEAD_algo_not_available]
| er_cipher_oid enc_pub_key sign_sec_key aead :
    files w !! enc_pub_key_fname ≫= public_key_of = Some enc_pub_key ->
    (files w !! sign_sec_key_fname ≫= fun c => private_key_of c passphrase)
    = Some sign_sec_key ->
    AEAD_create aead_cipher_algo ENCRYPTION = Some aead ->
    OID_from_string aead_cipher_algo = Val [] ->
    encrypt_early_return enc_pub_key_fname sign_sec_key_fname passphrase w
                         [No_OID_for_cipher_algo].

(** The conditions under which decrypt returns directly after the
    output file is open. *)
Inductive decrypt_early_return (sign_pub_key_fname dec_sec_key_fname
                                  passphrase : string) (w : World) : Prop :=
| er_sign_pub_key :
    files w !! sign_pub_key_fname ≫= public_key_of = None ->
    decrypt_early_return sign_pub_key_fname dec_sec_key_fname passphrase w
| er_dec_sec_key sign_pub_key :
    files w !! sign_pub_key_fname ≫= public_key_of = Some sign_pub_key ->
    (files w !! dec_sec_key_fname ≫= fun c => private_key_of c passphrase)
    = None ->
    decrypt_early_return sign_pub_key_fname dec_sec_key_fname passphrase w.

Lemma encrypt_prepare_early k1 k2 p (w : World) ms :
  encrypt_early_return k1 k2 p w ms ->
  encrypt_prepare k1 k2 p w
  = (Return false, fold_left (fun w m => add_event (ERR_PRINT Encrypt m) w) ms w).
Proof.
  intros [Hk|ek Hk Hs|ek sk Hk Hs Ha|ek sk a Hk Hs Ha Ho];
    unfold encrypt_prepare, mbind, M_bind, load_public_key, load_private_key;
    rewrite Hk; try rewrite Hs; try rewrite Ha; try reflexivity.
  unfold lift. rewrite Ho. reflexivity.
Qed.

Lemma trace_fold_events op ms (w : World) :
  trace (fold_left (fun w m => add_event (ERR_PRINT op m) w) ms w)
  = trace w ++ map (ERR_PRINT op) ms
  /\ files (fold_left (fun w m => add_event (ERR_PRINT op m) w) ms w)
     = files w.
Proof.
  revert w. induction ms as [|m ms IH]; intros w; cbn [fold_left map].
  - by rewrite app_nil_r.
  - destruct (IH (add_event (ERR_PRINT op m) w)) as [-> ->].
    cbn [add_event trace files]. by rewrite <- app_assoc.
Qed.

Lemma encrypt_early k1 k2 p d out ow (w : World) ms :
  files w !! out = None \/ ow = true ->
  out ∉ unwritable w ->
  encrypt_early_return k1 k2 p (opened out w) ms ->
  let r := encryptThenSign_RSA1 k1 k2 p d out ow w in
  r.1 = false /\ files r.2 !! out = Some []
  /\ trace r.2 = trace w ++ map (ERR_PRINT Encrypt) ms.
Proof.
  intros Hok Hw He. cbn zeta. rewrite encrypt_after_open by done.
  unfold run_function, encrypt_body, try_catch.
  rewrite (bind_Return _ _ _ _ _ (encrypt_prepare_early _ _ _ _ _ He)).
  cbn [fst snd].
  destruct (trace_fold_events Encrypt ms (opened out w)) as [-> ->].
  split; [done|]. split; [apply lookup_insert_eq|done].
Qed.

Lemma decrypt_early k1 k2 p d out ow (w : World) :
  files w !! out = None \/ ow = true ->
  out ∉ unwritable w ->
  decrypt_early_return k1 k2 p (opened out w) ->
  let r := checkSignThenDecrypt_RSA1 k1 k2 p d out ow w in
  r.1 = false /\ files r.2 !! out = Some [] /\ trace r.2 = trace w.
Proof.
  intros Hok Hw He. cbn zeta.
  assert (checkSignThenDecrypt_RSA1 k1 k2 p d out ow w = (false, opened out w))
    as ->.
  { destruct He as [Hk|vk Hk Hs].
    - by apply decrypt_key_load_failure.
    - unfold checkSignThenDecrypt_RSA1, run_function.
      rewrite (bind_Next _ _ _ _ _ (check_output_passes _ _ _ _ Hok)).
      rewrite (bind_Next _ _ _ _ _ (open_output_passes _ _ _ Hw)).
      unfold try_catch, mbind, M_bind, load_public_key, load_private_key.
      rewrite Hk, Hs. reflexivity. }
  split; [done|]. split; [apply lookup_insert_eq|done].
Qed.

(** C2: encrypt and decrypt return directly, with the output file open
    and never removed, when a key does not load, and encrypt also when
    the AEAD is not available or the cipher has no OID: the operation
    returns false and the output path exists, empty, on return. *)
Theorem early_return_leaves_output
        (key1_fname key2_fname passphrase data_fname outfilename : string)
        (overwrite : bool) (w : World) :
  files w !! outfilename = None \/ overwrite = true ->
  outfilename ∉ unwritable w ->
  (forall ms,
      encrypt_early_return key1_fname key2_fname passphrase
                           (opened outfilename w) ms ->
      let r := encryptThenSign_RSA1 key1_fname key2_fname passphrase
                 data_fname outfilename overwrite w in
      r.1 = false /\ files r.2 !! outfilename = Some []
      /\ trace r.2 = trace w ++ map (ERR_PRINT Encrypt) ms)
  /\ (decrypt_early_return key1_fname key2_fname passphrase
                           (opened outfilename w) ->
      let r := checkSignThenDecrypt_RSA1 key1_fname key2_fname passphrase
                 data_fname outfilename overwrite w in
      r.1 = false /\ files r.2 !! outfilename = Some []
      /\ trace r.2 = trace w).
Proof.
  intros Hok Hw. split.
  - intros ms He. by apply encrypt_early.
  - intros He. by apply decrypt_early.
Qed.

End EarlyReturns.

Section Guard.
Context `{Constants} `{Botan} `{DER_Encoder}.

(** C7: when the output path names an existing file and overwrite is
    false, encrypt and decrypt return false, print that the existing
    output is not overwritten, and leave every file as it was. *)
Theorem overwrite_guard
        (key1_fname key2_fname passphrase data_fname outfilename : string)
        (w : World) :
  is_Some (files w !! outfilename) ->
  (let '(r, w') := encryptThenSign_RSA1 key1_fname key2_fname passphrase
                                        data_fname outfilename false w in
   r = false /\ files w' = files w
   /\ trace w' = trace w ++ [ERR_PRINT Encrypt Not_overwriting_existing_output])
  /\
  (let '(r, w') := checkSignThenDecrypt_RSA1 key1_fname key2_fname passphrase
                                             data_fname outfilename false w in
   r = false /\ files w' = files w
   /\ trace w' = trace w ++ [ERR_PRINT Decrypt Not_overwriting_existing_output]).
Proof.
  intros Hex. split.
  - unfold encryptThenSign_RSA1, run_function.
    rewrite (bind_Return _ _ _ _ _ (check_output_refuses Encrypt _ _ Hex)).
    done.
  - unfold checkSignThenDecrypt_RSA1, run_function.
    rewrite (bind_Return _ _ _ _ _ (check_output_refuses Decrypt _ _ Hex)).
    done.
Qed.

End Guard.

Section Listener.
Context `{Constants} `{Botan} `{DER_Encoder}.

(** The worlds are related when the later one has the listener calls of
    the earlier one, and no other. *)
Definition same_listener_calls (w w' : World) : Prop :=
  listener_calls (trace w') = listener_calls (trace w).

#[local] Instance same_listener_calls_invariant :
  StepInvariant same_listener_calls.
Proof.
  split; unfold same_listener_calls.
  - done.
  - intros w1 w2 w3 H12 H23. by rewrite H23.
  - intros w op m. cbn [add_event trace]. unfold listener_calls.
    rewrite omap_app. cbn. by rewrite app_nil_r.
  - done.
  - done.
Qed.

(** C4: encrypt and decrypt call no listener: whatever the outcome, the
    listener calls of the trace after the operation are those before it;
    no notifyHeader, notifyProgress, notifyEnd or notifyError is added. *)
Theorem no_listener_calls
        (key1_fname key2_fname passphrase data_fname outfilename : string)
        (overwrite : bool) (w : World) :
  listener_calls
    (trace (encryptThenSign_RSA1 key1_fname key2_fname passphrase data_fname
                                 outfilename overwrite w).2)
  = listener_calls (trace w)
  /\ listener_calls
       (trace (checkSignThenDecrypt_RSA1 key1_fname key2_fname passphrase
                                         data_fname outfilename overwrite w).2)
     = listener_calls (trace w).
Proof.
  split.
  - apply (encrypt_preserves same_listener_calls).
  - apply (decrypt_preserves same_listener_calls).
Qed.

End Listener.

Section TwoPassClaim.
Context `{Constants} `{Botan}.

(** X21: the second encoding of Header-1 is as long
    as the first, whose length it carries in its size field: the length
    written (modulo 2^32) is the length of the header written. *)
Theorem two_pass_same_length (data_fname : string) (es : encrypt_setup) :
  length (der_header1_pass2 data_fname es)
  = length (der_header1_pass1 data_fname es)
  /\ exists szbuf,
      der_header1_pass2 data_fname es
      = der_encode_header1 (make_header1 data_fname es szbuf)
      /\ length szbuf = 4%nat
      /\ get_uint32 szbuf 0
         = to_uint32 (length (der_header1_pass2 data_fname es)).
Proof.
  split; [apply two_pass_length|].
  exists (put_uint32 (replicate 4 x00) 0
                     (to_uint32 (length (der_header1_pass1 data_fname es)))).
  split; [reflexivity|]. split; [by rewrite put_uint32_length|].
  rewrite get_put_uint32, two_pass_length. unfold to_uint32.
  by rewrite N.Div0.mod_mod.
Qed.

End TwoPassClaim.

Section AssociatedData.
Context `{Constants} `{Botan}.

(** C9: the AEAD of encrypt is started with the [encrypted_key] octets
    of the header it writes as associated data, and the payload written
    is what that AEAD makes of the plaintext; the AEAD of decrypt is
    started with the [encrypted_key] octets of the header it read, and
    decrypt succeeds exactly when that AEAD accepts the payload, whose
    output is then the file written. *)
Theorem aead_bound_to_encrypted_key :
  (forall (enc_pub_key_fname sign_sec_key_fname passphrase data_fname
             outfilename : string) (overwrite : bool) (w w1 : World),
      der_encrypt enc_pub_key_fname sign_sec_key_fname passphrase data_fname
                  outfilename overwrite w = (true, w1) ->
      data_fname <> outfilename ->
      exists es w0 plaintext aead szbuf,
        let h := make_header1 data_fname es szbuf in
        files w !! data_fname = Some plaintext
        /\ AEAD_create aead_cipher_algo ENCRYPTION = Some aead
        /\ start (set_associated_data_vec (set_key aead (es_file_key es))
                                          (h_encrypted_key h))
                 (h_nonce h) = Val (es_aead es)
        /\ files w1 !! outfilename
           = Some (der_encode_header1 h
                     ++ der_header2 (header2_signature data_fname es w0)
                     ++ (aead_stream (es_aead es) plaintext).1))
  /\
  (forall (sign_pub_key_fname dec_sec_key_fname passphrase data_fname
             outfilename : string) (overwrite : bool) (w : World)
          (sign_pub_key : Public_Key) (dec_sec_key : Private_Key)
          (c : bytes) (h : Header1) (ct : bytes) (aead : AEAD_Mode),
      decrypt_ready sign_pub_key_fname dec_sec_key_fname passphrase
                    data_fname outfilename overwrite w sign_pub_key
                    dec_sec_key c ->
      accepted_headers sign_pub_key c h ct ->
      header_fields_valid h ->
      disk_full w = false ->
      AEAD_create aead_cipher_algo DECRYPTION = Some aead ->
      let r := checkSignThenDecrypt_RSA1 sign_pub_key_fname dec_sec_key_fname
                 passphrase data_fname outfilename overwrite w in
      let key := unwrapped_key dec_sec_key (h_encrypted_key h)
                               (maximum_keylength aead) (rng w) in
      match start (set_associated_data_vec (set_key aead key)
                                           (h_encrypted_key h))
                  (h_nonce h) with
      | Exc e => fatal outfilename (Caught_exception e) w r
      | Val sd =>
          match (aead_stream sd ct).2 with
          | Some e => fatal outfilename (Caught_exception e) w r
          | None => r.1 = true
                    /\ files r.2 !! outfilename = Some (aead_stream sd ct).1
          end
      end).
Proof.
  split.
  - intros k1 k2 p d out ow w w1 Hrun Hdo.
    destruct (encrypt_success _ _ _ _ _ _ _ _ Hrun Hdo)
      as (_ & _ & _ & es & w0 & pt & _ & Hprep & Hpt & _ & Hfi & _).
    destruct Hprep as (ek & aead & hoid & poid & r2 & _ & _ & Ha & _ & _ & _
                       & _ & _ & _ & _ & _ & Hst & _).
    exists es, w0, pt, aead,
      (put_uint32 (replicate 4 x00) 0
                  (to_uint32 (length (der_header1_pass1 d es)))).
    cbn zeta. split; [exact Hpt|]. split; [exact Ha|]. split; [exact Hst|].
    rewrite Hfi. apply lookup_insert_eq.
  - intros k1 k2 p d out ow w vk dk c h ct aead Hr Hacc Hv Hd Ha.
    exact (decrypt_aead_binding k1 k2 p d out ow w vk dk c h ct aead
             Hr Hacc Hv Hd Ha).
Qed.

End AssociatedData.


(** * More of the two operations *)

Section Codec.
Context `{Constants} `{Botan}.

(** X1: the decoder chain of decrypt reads back the ten fields that the
    encoder chain of encrypt wrote, and leaves what follows. *)
Theorem header1_codec_roundtrip (h : Header1) (rest : bytes) :
  N.of_nat (length (der_encode_header1 h)) < 2 ^ 32 ->
  h_payload_version h < 2 ^ 32 ->
  h_payload_version_parent h < 2 ^ 32 ->
  decode_header1 (der_encode_header1 h ++ rest) = Val (h, rest)
  /\ snoop_header1 (der_encode_header1 h ++ rest)
     = Val ((h_package_magic h, h_header1_size_buffer h), rest).
Proof.
  intros Hlen Hv Hp. split.
  - by apply decode_encode_header1.
  - by apply snoop_encode_header1.
Qed.

(** X2: the decoder of Header-2 reads back the signature and leaves the
    payload that follows it. *)
Theorem header2_codec_roundtrip (signature payload : bytes) :
  N.of_nat (length (der_header2 signature)) < 2 ^ 32 ->
  decode_header2 (der_header2 signature ++ payload) = Val (signature, payload).
Proof. apply decode_encode_header2. Qed.

(** X3: in a file that begins with the Header-1 of encrypt, the size that
    decrypt snoops is the length of that Header-1: the octets it then
    reads are Header-1, and the stream is left at Header-2. *)
Theorem snooped_size_is_header1_length
        (data_fname : string) (es : encrypt_setup) (rest : bytes) :
  N.of_nat (length (der_header1_pass2 data_fname es)) < 2 ^ 32 ->
  let c := der_header1_pass2 data_fname es ++ rest in
  exists szbuf r0,
    snoop_header1 c = Val ((list_byte_of_string package_magic, szbuf), r0)
    /\ length szbuf = 4%nat
    /\ N.to_nat (get_uint32 szbuf 0) = length (der_header1_pass2 data_fname es)
    /\ take (N.to_nat (get_uint32 szbuf 0)) c = der_header1_pass2 data_fname es
    /\ drop (N.to_nat (get_uint32 szbuf 0)) c = rest.
Proof.
  intros Hlen c. subst c.
  destruct (header1_pass2_eq data_fname es Hlen) as (szbuf & Heq & Hsz & Hget).
  exists szbuf, rest. rewrite Hget, Nat2N.id.
  split.
  - rewrite Heq. rewrite snoop_encode_header1 by (by rewrite <- Heq).
    reflexivity.
  - split; [exact Hsz|]. split; [reflexivity|].
    split; [apply take_app_length|apply drop_app_length].
Qed.

End Codec.

Section OutputFile.
Context `{Constants} `{Botan} `{DER_Encoder}.

(** X4: when the output file cannot be opened, both operations return false
    and print that the output file is not open; a file that was at the
    output path, with overwrite set, has been removed by then. *)
Theorem output_not_open
        (key1_fname key2_fname passphrase data_fname outfilename : string)
        (overwrite : bool) (w : World) :
  files w !! outfilename = None \/ overwrite = true ->
  outfilename ∈ unwritable w ->
  (let r := encryptThenSign_RSA1 key1_fname key2_fname passphrase data_fname
              outfilename overwrite w in
   r.1 = false /\ files r.2 = delete outfilename (files w)
   /\ trace r.2 = trace w ++ [ERR_PRINT Encrypt Output_file_not_open])
  /\ (let r := checkSignThenDecrypt_RSA1 key1_fname key2_fname passphrase
                 data_fname outfilename overwrite w in
      r.1 = false /\ files r.2 = delete outfilename (files w)
      /\ trace r.2 = trace w ++ [ERR_PRINT Decrypt Output_file_not_open]).
Proof.
  intros Hok Hw.
  assert (Hw' : outfilename ∈ unwritable (set_files (delete outfilename) w))
    by exact Hw.
  split; cbn zeta.
  - unfold encryptThenSign_RSA1, run_function.
    rewrite (bind_Next _ _ _ _ _ (check_output_passes _ _ _ _ Hok)).
    rewrite (bind_Return _ _ _ _ _ (open_output_refused Encrypt _ _ Hw')).
    done.
  - unfold checkSignThenDecrypt_RSA1, run_function.
    rewrite (bind_Next _ _ _ _ _ (check_output_passes _ _ _ _ Hok)).
    rewrite (bind_Return _ _ _ _ _ (open_output_refused Decrypt _ _ Hw')).
    done.
Qed.

Lemma opened_with_file outfilename old (w : World) :
  opened outfilename (with_file outfilename old w) = opened outfilename w.
Proof.
  unfold opened, with_file, set_files. cbn. by rewrite insert_insert_eq.
Qed.

(** X5: with overwrite set, what a file at the output path held before has
    no effect: both operations run as they do when it holds [old]. *)
Theorem overwrite_starts_afresh
        (key1_fname key2_fname passphrase data_fname outfilename : string)
        (old : bytes) (w : World) :
  outfilename ∉ unwritable w ->
  encryptThenSign_RSA1 key1_fname key2_fname passphrase data_fname outfilename
                       true (with_file outfilename old w)
  = encryptThenSign_RSA1 key1_fname key2_fname passphrase data_fname
                         outfilename true w
  /\ checkSignThenDecrypt_RSA1 key1_fname key2_fname passphrase data_fname
                               outfilename true (with_file outfilename old w)
     = checkSignThenDecrypt_RSA1 key1_fname key2_fname passphrase data_fname
                                 outfilename true w.
Proof.
  intros Hw.
  assert (Hw' : outfilename ∉ unwritable (with_file outfilename old w))
    by exact Hw.
  split.
  - rewrite !encrypt_after_open by auto. by rewrite opened_with_file.
  - unfold checkSignThenDecrypt_RSA1, run_function.
    rewrite !(bind_Next _ _ _ _ _
                (check_output_passes Decrypt outfilename true _
                   (or_intror eq_refl))).
    rewrite !(bind_Next _ _ _ _ _ (open_output_passes Decrypt _ _ Hw)).
    rewrite !(bind_Next _ _ _ _ _ (open_output_passes Decrypt _ _ Hw')).
    by rewrite opened_with_file.
Qed.

End OutputFile.

Section DecryptInput.
Context `{Constants} `{Botan} `{DER_Encoder}.

(** The conditions under which decrypt has its output open and both
    keys loaded. *)
Definition decrypt_keys_ready (sign_pub_key_fname dec_sec_key_fname passphrase
                                 outfilename : string)
           (overwrite : bool) (w : World) (sign_pub_key : Public_Key)
           (dec_sec_key : Private_Key) : Prop :=
  (files w !! outfilename = None \/ overwrite = true)
  /\ (outfilename ∉ unwritable w)
  /\ files (opened outfilename w) !! sign_pub_key_fname ≫= public_key_of
     = Some sign_pub_key
  /\ (files (opened outfilename w) !! dec_sec_key_fname
        ≫= fun k => private_key_of k passphrase) = Some dec_sec_key.

Lemma keys_ready_input k1 k2 p d out ow (w : World) vk dk c :
  decrypt_keys_ready k1 k2 p out ow w vk dk ->
  files (opened out w) !! d = Some c ->
  decrypt_ready k1 k2 p d out ow w vk dk c.
Proof. intros (?&?&?&?) ?. by repeat split. Qed.

(** X6: an input file that is not there makes decrypt fatal: the exception
    of the input stream is not a decoding error, so it is the handler of
    the function that catches it, removes the output and returns false. *)
Theorem decrypt_missing_input
        (sign_pub_key_fname dec_sec_key_fname passphrase data_fname
           outfilename : string) (overwrite : bool) (w : World)
        (sign_pub_key : Public_Key) (dec_sec_key : Private_Key) :
  decrypt_keys_ready sign_pub_key_fname dec_sec_key_fname passphrase
                     outfilename overwrite w sign_pub_key dec_sec_key ->
  data_fname <> outfilename ->
  files w !! data_fname = None ->
  fatal outfilename (Caught_exception Stream_IO_Error) w
        (checkSignThenDecrypt_RSA1 sign_pub_key_fname dec_sec_key_fname
           passphrase data_fname outfilename overwrite w).
Proof.
  intros (Hok & Hw & Hvk & Hdk) Hne Hnone.
  rewrite (decrypt_after_keys _ _ _ _ _ _ _ _ _ Hok Hw Hvk Hdk).
  assert (Hsnoop : decrypt_snoop data_fname outfilename (opened outfilename w)
                   = (Throw Stream_IO_Error, opened outfilename w)).
  { unfold decrypt_snoop, try_catch, mbind, M_bind, DataSource_Stream, opened.
    cbn [files set_files]. rewrite lookup_insert_ne by done. rewrite Hnone.
    unfold is_Decoding_Error. by rewrite bool_decide_eq_false_2. }
  eapply fatal_throw;
    [unfold decrypt_body; by rewrite (bind_Throw _ _ _ _ _ Hsnoop)|reflexivity].
Qed.

Lemma snoop_fails_fatal k1 k2 p d out ow (w : World) vk dk c :
  decrypt_ready k1 k2 p d out ow w vk dk c ->
  snoop_header1 c = Exc Decoding_Error ->
  fatal out Header1a_invalid_input_file_format w
        (checkSignThenDecrypt_RSA1 k1 k2 p d out ow w).
Proof.
  intros Hr Hs. pose proof Hr as (_ & _ & _ & _ & Hfile).
  eapply fatal_body; [exact Hr|].
  pose proof (decrypt_snoop_run d out c _ Hfile) as Hrun.
  rewrite Hs in Hrun. cbn in Hrun.
  unfold decrypt_body. by rewrite (bind_Return _ _ _ _ _ Hrun).
Qed.

(** X7: an input file without octets makes decrypt fatal with the message
    of an invalid Header-1. *)
Theorem decrypt_empty_input
        (sign_pub_key_fname dec_sec_key_fname passphrase data_fname
           outfilename : string) (overwrite : bool) (w : World)
        (sign_pub_key : Public_Key) (dec_sec_key : Private_Key) :
  decrypt_keys_ready sign_pub_key_fname dec_sec_key_fname passphrase
                     outfilename overwrite w sign_pub_key dec_sec_key ->
  data_fname <> outfilename ->
  files w !! data_fname = Some [] ->
  fatal outfilename Header1a_invalid_input_file_format w
        (checkSignThenDecrypt_RSA1 sign_pub_key_fname dec_sec_key_fname
           passphrase data_fname outfilename overwrite w).
Proof.
  intros Hk Hne Hc.
  apply (snoop_fails_fatal _ _ _ _ _ _ _ sign_pub_key dec_sec_key []);
    [|reflexivity].
  apply keys_ready_input; [exact Hk|].
  unfold opened. cbn [files set_files]. by rewrite lookup_insert_ne.
Qed.

(** X8: decrypting a file onto itself loses it: the output is opened, and
    so emptied, before the input is read; the snoop then fails on the
    empty file and the file is removed. *)
Theorem decrypt_onto_input_loses_it
        (sign_pub_key_fname dec_sec_key_fname passphrase fname : string)
        (w : World) (sign_pub_key : Public_Key) (dec_sec_key : Private_Key)
        (c : bytes) :
  decrypt_keys_ready sign_pub_key_fname dec_sec_key_fname passphrase
                     fname true w sign_pub_key dec_sec_key ->
  files w !! fname = Some c ->
  let r := checkSignThenDecrypt_RSA1 sign_pub_key_fname dec_sec_key_fname
             passphrase fname fname true w in
  r.1 = false /\ files r.2 !! fname = None
  /\ trace r.2
     = trace w ++ [ERR_PRINT Decrypt Header1a_invalid_input_file_format].
Proof.
  intros Hk Hc. cbn zeta.
  apply (snoop_fails_fatal _ _ _ _ _ _ _ sign_pub_key dec_sec_key []);
    [|reflexivity].
  apply keys_ready_input; [exact Hk|].
  unfold opened. cbn [files set_files]. apply lookup_insert_eq.
Qed.

(** X9: a size field that declares more octets than the input holds makes
    decrypt fatal with the message of the Header-1 size. *)
Theorem decrypt_size_field_too_large
        (sign_pub_key_fname dec_sec_key_fname passphrase data_fname
           outfilename : string) (overwrite : bool) (w : World)
        (sign_pub_key : Public_Key) (dec_sec_key : Private_Key)
        (c magic szbuf r0 : bytes) :
  decrypt_ready sign_pub_key_fname dec_sec_key_fname passphrase data_fname
                outfilename overwrite w sign_pub_key dec_sec_key c ->
  snoop_header1 c = Val ((magic, szbuf), r0) ->
  string_of_list_byte magic = package_magic ->
  package_magic <> "" ->
  length szbuf = 4%nat ->
  (length c < N.to_nat (get_uint32 szbuf 0))%nat ->
  fatal outfilename Expected_header1_size w
        (checkSignThenDecrypt_RSA1 sign_pub_key_fname dec_sec_key_fname
           passphrase data_fname outfilename overwrite w).
Proof.
  intros Hr Hs Hm Hm0 Hsz Hshort. pose proof Hr as (_ & _ & _ & _ & Hfile).
  eapply fatal_body; [exact Hr|].
  pose proof (decrypt_snoop_run data_fname outfilename c _ Hfile) as Hrun.
  rewrite Hs in Hrun. cbn zeta in Hrun.
  rewrite bool_decide_eq_false_2 in Hrun by congruence.
  rewrite bool_decide_eq_false_2 in Hrun by (intros E; by apply E).
  rewrite bool_decide_eq_false_2 in Hrun by (intros E; by apply E).
  unfold decrypt_body.
  rewrite (bind_Next _ _ _ _ _ Hrun).
  rewrite (bind_Next _ _ _ _ _ (DataSource_Stream_run _ _ _ Hfile)).
  erewrite bind_Return; [reflexivity|].
  rewrite decrypt_headers_run. cbn zeta.
  rewrite take_ge by lia.
  destruct (N.eqb_spec (N.of_nat (length c)) (get_uint32 szbuf 0)) as [E|E];
    [lia|reflexivity].
Qed.

End DecryptInput.

Section Cleanly.
Context `{Constants} `{Botan} `{DER_Encoder}.
Context (outfilename : string).

(** A statement that leaves the function only with [false] and the
    output path absent. *)
Definition removed_on_return (b : bool) (w : World) : Prop :=
  b = false /\ files w !! outfilename = None.

Definition cleanly {A} (m : M A) : Prop :=
  forall w, wp m (fun _ _ => True) removed_on_return (fun _ _ => True) w.

Lemma cleanly_ret {A} (a : A) : cleanly (mret a).
Proof. by intros w. Qed.

Lemma cleanly_throw {A} (e : exception) : cleanly (throw e : M A).
Proof. by intros w. Qed.

Lemma cleanly_lift {A} (r : result A) : cleanly (lift r).
Proof. intros w. by destruct r. Qed.

Lemma cleanly_bind {A B} (m : M A) (k : A -> M B) :
  cleanly m -> (forall a, cleanly (k a)) -> cleanly (m ≫= k).
Proof.
  intros Hm Hk w. apply wp_bind.
  eapply wp_mono; [apply Hm|cbn beta..]; [|done..].
  intros a w' _. apply Hk.
Qed.

Lemma cleanly_when (c : bool) (body : M unit) :
  cleanly body -> cleanly (when c body).
Proof. intros Hb. destruct c; [done|apply cleanly_ret]. Qed.

Lemma cleanly_try_catch {A} (body : M A) catches handler :
  cleanly body -> (forall e, cleanly (handler e)) ->
  cleanly (try_catch body catches handler).
Proof.
  intros Hb Hh w. apply wp_try_catch.
  eapply wp_mono; [apply Hb|cbn beta..]; [done..|].
  intros e w' _. destruct (catches e); [apply Hh|done].
Qed.

Lemma cleanly_foldM {S A} (f : S -> A -> M S) (s : S) (l : list A) :
  (forall s a, cleanly (f s a)) -> cleanly (foldM f s l).
Proof.
  intros Hf. revert s. induction l as [|a l IH]; intros s.
  - apply cleanly_ret.
  - cbn [foldM]. apply cleanly_bind; auto.
Qed.

(** A statement that never leaves the function. *)
Lemma cleanly_stays {A} (m : M A) :
  (forall w, match (m w).1 with Return _ => False | _ => True end) ->
  cleanly m.
Proof.
  intros Hm w. specialize (Hm w). unfold wp.
  by destruct (m w) as [[a|b|e] w'].
Qed.

Lemma cleanly_err_print op m : cleanly (err_print op m).
Proof. by apply cleanly_stays. Qed.

Lemma cleanly_write o data : cleanly (write o data).
Proof.
  apply cleanly_stays. intros w. unfold write.
  destruct (of_fail o); [done|]. by destruct (_ && _).
Qed.

Lemma cleanly_failed {A} m : cleanly (failed outfilename m : M A).
Proof.
  intros w. unfold wp, failed, mbind, M_bind, err_print, IOUtil.remove, return_.
  split; [done|]. cbn [files set_files add_event]. apply lookup_delete_eq.
Qed.

Lemma cleanly_consume_data st data is_final :
  cleanly (consume_data st data is_final).
Proof.
  unfold consume_data. destruct (negb is_final).
  - destruct (update _ _) as [data' aead'].
    apply cleanly_bind; [apply cleanly_write|intros; apply cleanly_ret].
  - apply cleanly_bind; [apply cleanly_lift|intros data'].
    apply cleanly_bind; [apply cleanly_write|intros; apply cleanly_ret].
Qed.

Lemma cleanly_read_stream input st :
  cleanly (IOUtil.read_stream input consume_data st).
Proof.
  unfold IOUtil.read_stream.
  apply cleanly_bind; [|intros; apply cleanly_ret].
  apply cleanly_foldM. intros. apply cleanly_consume_data.
Qed.

Lemma cleanly_decrypt_snoop data_fname :
  cleanly (decrypt_snoop data_fname outfilename).
Proof.
  unfold decrypt_snoop.
  apply cleanly_try_catch; [|intros; apply cleanly_failed].
  apply cleanly_bind.
  { apply cleanly_stays. intros w. unfold DataSource_Stream.
    by destruct (files w !! data_fname). }
  intros input. apply cleanly_bind; [apply cleanly_lift|].
  intros [[magic szbuf] r].
  repeat (apply cleanly_bind;
          [apply cleanly_when, cleanly_failed|intros _]).
  apply cleanly_ret.
Qed.

Lemma cleanly_decrypt_headers vk header1_size input :
  cleanly (decrypt_headers vk outfilename header1_size input).
Proof.
  unfold decrypt_headers.
  apply cleanly_try_catch; [|intros; apply cleanly_failed]. cbn zeta.
  apply cleanly_bind; [apply cleanly_when, cleanly_failed|intros _].
  apply cleanly_bind; [apply cleanly_lift|intros [h r]].
  apply cleanly_bind; [apply cleanly_lift|intros [sig ct]].
  apply cleanly_bind; [apply cleanly_when, cleanly_failed|intros _].
  apply cleanly_ret.
Qed.

Lemma cleanly_decrypt_validate h :
  cleanly (decrypt_validate outfilename h).
Proof.
  unfold decrypt_validate. cbn zeta.
  repeat (apply cleanly_bind;
          [apply cleanly_when, cleanly_failed|intros _]).
  apply cleanly_bind; [apply cleanly_lift|intros [hash_algo_id r]].
  repeat (apply cleanly_bind;
          [apply cleanly_when, cleanly_failed|intros _]).
  apply cleanly_ret.
Qed.

Lemma cleanly_decrypt_payload dk h cipher_algo input o :
  cleanly (decrypt_payload dk outfilename h cipher_algo input o).
Proof.
  unfold decrypt_payload, create_or_throw.
  destruct (AEAD_create cipher_algo DECRYPTION) as [aead|].
  2:{ intros w. by apply wp_bind, wp_throw. }
  intros w. apply wp_bind, wp_ret. revert w. cbn zeta.
  apply cleanly_bind.
  { apply cleanly_stays. intros w. unfold decrypt_or_random, mbind, M_bind,
      system_random_vec.
    destruct (random_vec _ _). destruct (pk_decrypt _ _ _); [|done].
    by destruct (_ =? _)%nat. }
  intros file_key. apply cleanly_bind; [apply cleanly_lift|intros aead'].
  apply cleanly_bind; [apply cleanly_read_stream|intros [n st]].
  destruct (_ || _); [apply cleanly_failed|].
  apply cleanly_when, cleanly_err_print.
Qed.

Lemma cleanly_decrypt_body vk dk data_fname o :
  cleanly (decrypt_body vk dk data_fname outfilename o).
Proof.
  unfold decrypt_body.
  apply cleanly_bind; [apply cleanly_decrypt_snoop|intros n].
  apply cleanly_bind.
  { apply cleanly_stays. intros w. unfold DataSource_Stream.
    by destruct (files w !! data_fname). }
  intros input.
  apply cleanly_bind; [apply cleanly_decrypt_headers|intros [h ct]].
  apply cleanly_bind; [apply cleanly_decrypt_validate|intros cipher_algo].
  apply cleanly_decrypt_payload.
Qed.

End Cleanly.

Section DecryptFailure.
Context `{Constants} `{Botan} `{DER_Encoder}.

(** Once its output is open and both keys are loaded, decrypt leaves no
    output behind when it fails: whenever it returns false the output
    path is absent. *)
Lemma decrypt_failure_removes_output
        (sign_pub_key_fname dec_sec_key_fname passphrase data_fname
           outfilename : string) (overwrite : bool) (w : World)
        (sign_pub_key : Public_Key) (dec_sec_key : Private_Key) :
  decrypt_keys_ready sign_pub_key_fname dec_sec_key_fname passphrase
                     outfilename overwrite w sign_pub_key dec_sec_key ->
  let r := checkSignThenDecrypt_RSA1 sign_pub_key_fname dec_sec_key_fname
             passphrase data_fname outfilename overwrite w in
  r.1 = false -> files r.2 !! outfilename = None.
Proof.
  intros (Hok & Hw & Hvk & Hdk). cbn zeta.
  rewrite (decrypt_after_keys _ _ _ _ _ _ _ _ _ Hok Hw Hvk Hdk).
  set (P := fun (b : bool) (w' : World) =>
              b = false -> files w' !! outfilename = None).
  apply (run_function_wp _ P).
  apply wp_try_catch.
  eapply wp_mono; [apply (cleanly_decrypt_body outfilename)|cbn beta..].
  - intros a w' _ E. discriminate E.
  - by intros b w' [_ Hn] _.
  - intros e w' _. cbn [is_std_exception].
    unfold wp. rewrite failed_run. intros _.
    unfold failed_world. cbn [files set_files]. apply lookup_delete_eq.
Qed.

End DecryptFailure.

Section EncryptFailure.
Context `{Constants} `{Botan} `{DER_Encoder}.

(** The returns of the set-up of encrypt are its early returns. *)
Lemma wp_encrypt_prepare_returns k1 k2 p w :
  wp (encrypt_prepare k1 k2 p) (fun _ _ => True)
     (fun b _ => exists ms, encrypt_early_return k1 k2 p w ms)
     (fun _ _ => True) w.
Proof.
  unfold encrypt_prepare.
  apply wp_bind, wp_load_public_key.
  destruct (files w !! k1 ≫= public_key_of) as [ek|] eqn:Hek.
  2:{ apply wp_return. eexists. by apply er_enc_pub_key. }
  apply wp_bind, wp_load_private_key.
  destruct (files w !! k2 ≫= _) as [sk|] eqn:Hsk.
  2:{ apply wp_return. eexists. by eapply er_sign_sec_key. }
  destruct (AEAD_create aead_cipher_algo ENCRYPTION) as [aead|] eqn:Ha.
  2:{ apply wp_bind, wp_err_print, wp_return. eexists. by eapply er_aead. }
  apply wp_bind, wp_lift.
  destruct (OID_from_string aead_cipher_algo) as [coid|e] eqn:Hc; [|done].
  apply wp_bind, wp_when; intros Hne.
  { apply wp_bind, wp_err_print, wp_return.
    apply bool_decide_eq_true in Hne. subst coid.
    eexists. by eapply er_cipher_oid. }
  apply wp_bind, wp_lift.
  destruct (OID_from_string rsa_hash_algo) as [hoid|e]; [|done].
  cbn zeta. apply wp_bind, wp_lift.
  destruct (OID_from_string ("RSA/" +:+ rsa_padding_algo)) as [poid|e]; [|done].
  cbn zeta.
  apply wp_bind, wp_system_random_vec.
  apply wp_bind, wp_encrypt; [|done].
  intros ekey r2 He.
  apply wp_bind, wp_system_random_vec.
  apply wp_bind, wp_lift.
  by destruct (start _ _).
Qed.

Lemma cleanly_encrypt_headers out data_fname es o :
  cleanly out (encrypt_headers data_fname es o).
Proof.
  unfold encrypt_headers. cbn zeta.
  apply cleanly_bind; [apply cleanly_write|intros o1].
  apply cleanly_bind.
  { apply cleanly_stays. intros w. unfold sign. by destruct (sign_message _ _ _ _). }
  intros sig.
  apply cleanly_bind; [apply cleanly_write|intros o2]. apply cleanly_ret.
Qed.

Lemma cleanly_remove_return out :
  cleanly out (IOUtil.remove out;; return_ false : M unit).
Proof.
  intros w. unfold wp, mbind, M_bind, IOUtil.remove, return_.
  split; [done|]. cbn [files set_files]. apply lookup_delete_eq.
Qed.

Lemma cleanly_encrypt_payload out data_fname aead o n :
  cleanly out (encrypt_payload data_fname out aead o n).
Proof.
  unfold encrypt_payload. cbn zeta.
  apply cleanly_bind; [apply cleanly_when, cleanly_err_print|intros _].
  apply cleanly_bind.
  { unfold IOUtil.read_file.
    apply cleanly_bind; [by apply cleanly_stays|intros w0].
    destruct (files w0 !! data_fname);
      [apply cleanly_read_stream|apply cleanly_ret]. }
  intros [n' st]. destruct (_ || _).
  - apply cleanly_bind; [apply cleanly_err_print|intros _].
    apply cleanly_remove_return.
  - apply cleanly_when, cleanly_err_print.
Qed.

(** X11: when encrypt fails, the output path is absent, unless encrypt
    returned early from its set-up: a key that does not load, an AEAD
    that is not available or a cipher without OID. *)
Theorem encrypt_failure_output
        (enc_pub_key_fname sign_sec_key_fname passphrase data_fname
           outfilename : string) (overwrite : bool) (w : World) :
  files w !! outfilename = None \/ overwrite = true ->
  outfilename ∉ unwritable w ->
  let r := encryptThenSign_RSA1 enc_pub_key_fname sign_sec_key_fname
             passphrase data_fname outfilename overwrite w in
  r.1 = false ->
  files r.2 !! outfilename = None
  \/ exists ms, encrypt_early_return enc_pub_key_fname sign_sec_key_fname
                                     passphrase (opened outfilename w) ms.
Proof.
  intros Hok Hw. cbn zeta. rewrite encrypt_after_open by done.
  set (P := fun (b : bool) (w' : World) =>
    b = false ->
    files w' !! outfilename = None
    \/ exists ms, encrypt_early_return enc_pub_key_fname sign_sec_key_fname
                                       passphrase (opened outfilename w) ms).
  apply (run_function_wp _ P).
  assert (Hhandler : forall e w', wp
    (err_print Encrypt (Caught_exception e);; IOUtil.remove outfilename;;
     return_ false : M unit)
    (fun _ w' => P true w') P (fun _ w' => P false w') w').
  { intros e w'. unfold wp, mbind, M_bind, err_print, IOUtil.remove, return_.
    intros _. left. cbn [files set_files add_event]. apply lookup_delete_eq. }
  unfold encrypt_body. apply wp_try_catch, wp_bind.
  eapply wp_mono; [apply wp_encrypt_prepare_returns|cbn beta..].
  - intros es w0 _.
    eapply wp_mono;
      [apply (cleanly_bind outfilename);
       [apply cleanly_encrypt_headers|intros [o n];
        apply cleanly_encrypt_payload]|cbn beta..].
    + intros a w' _ E. discriminate E.
    + intros b w' [_ Hn] _. by left.
    + intros e w' _. apply Hhandler.
  - intros b w' He _. by right.
  - intros e w' _. apply Hhandler.
Qed.

End EncryptFailure.

Section DecryptSuccess.
Context `{Constants} `{Botan} `{DER_Encoder}.

Lemma fatal_fails out m (w : World) r : fatal out m w r -> r.1 = false.
Proof. by intros [? _]. Qed.

(** X12: decrypt returns true only for an input whose Header-2 signature
    verified over the Header-1 octets, whose header fields passed their
    checks, and whose payload the AEAD, started with the unwrapped key,
    the [encrypted_key] octets and the nonce of the header,
    authenticated. *)
Theorem decrypt_success_means_verified
        (sign_pub_key_fname dec_sec_key_fname passphrase data_fname
           outfilename : string) (overwrite : bool) (w : World)
        (sign_pub_key : Public_Key) (dec_sec_key : Private_Key) (c : bytes) :
  decrypt_ready sign_pub_key_fname dec_sec_key_fname passphrase data_fname
                outfilename overwrite w sign_pub_key dec_sec_key c ->
  (checkSignThenDecrypt_RSA1 sign_pub_key_fname dec_sec_key_fname passphrase
                             data_fname outfilename overwrite w).1 = true ->
  exists h ct aead sd,
    accepted_headers sign_pub_key c h ct
    /\ header_fields_valid h
    /\ AEAD_create aead_cipher_algo DECRYPTION = Some aead
    /\ start (set_associated_data_vec
                (set_key aead
                   (unwrapped_key dec_sec_key (h_encrypted_key h)
                                  (maximum_keylength aead) (rng w)))
                (h_encrypted_key h))
             (h_nonce h) = Val sd
    /\ (aead_stream sd ct).2 = None.
Proof.
  intros Hr Htrue. pose proof Hr as (_ & _ & _ & _ & Hfile).
  destruct (decrypt_body_stage sign_pub_key dec_sec_key data_fname outfilename
              (fresh_stream outfilename) _ c Hfile)
    as [(m & Hf & Hrun)|(h & ct & Hacc & Hrun)].
  { pose proof (fatal_fails _ _ _ _ (fatal_body _ _ _ _ _ _ _ _ _ _ _ Hr Hrun)).
    congruence. }
  destruct (decrypt_validate_outcome outfilename h (opened outfilename w))
    as [[Hv Hval]|(m & Hm & _)].
  2:{ destruct (fatal_field_mismatch _ _ _ _ _ _ _ _ _ _ _ _ Hr Hacc
                  (field_mismatch_invalid _ _ Hm)) as (m' & _ & Hfat).
      pose proof (fatal_fails _ _ _ _ Hfat). congruence. }
  rewrite (bind_Next _ _ _ _ _ Hval) in Hrun.
  destruct (AEAD_create aead_cipher_algo DECRYPTION) as [aead|] eqn:Ha.
  2:{ assert (Hthrow : decrypt_payload dec_sec_key outfilename h
                         aead_cipher_algo ct (fresh_stream outfilename)
                         (opened outfilename w)
                       = (Throw Lookup_Error, opened outfilename w)).
      { unfold decrypt_payload, create_or_throw. by rewrite Ha. }
      rewrite Hthrow in Hrun.
      pose proof (fatal_fails _ _ _ _
                    (fatal_body_throw _ _ _ _ _ _ _ _ _ _ _ _ Hr Hrun eq_refl)).
      congruence. }
  destruct (decrypt_aead dec_sec_key h aead (rng (opened outfilename w)))
    as [sd|e] eqn:Hs.
  2:{ destruct (decrypt_payload_start_fails dec_sec_key outfilename h ct
                  (fresh_stream outfilename) aead _ e Ha Hs)
        as (w' & Hp & Ht).
      rewrite Hp in Hrun.
      pose proof (fatal_fails _ _ _ _
                    (fatal_body_throw _ _ _ _ _ _ _ _ _ _ _ _ Hr Hrun Ht)).
      congruence. }
  destruct (aead_stream sd ct).2 as [e|] eqn:Hst.
  { destruct (decrypt_payload_rejects dec_sec_key outfilename h ct
                (fresh_stream outfilename) aead _ sd e Ha Hs Hst)
      as (w' & Hp & Ht).
    rewrite Hp in Hrun.
    pose proof (fatal_fails _ _ _ _
                  (fatal_body_throw _ _ _ _ _ _ _ _ _ _ _ _ Hr Hrun Ht)).
    congruence. }
  by exists h, ct, aead, sd.
Qed.

End DecryptSuccess.

Section DecryptFailureOutput.
Context `{Constants} `{Botan} `{DER_Encoder}.

(** X10: when decrypt fails, the output path is absent, unless decrypt
    returned early because a key did not load. *)
Theorem decrypt_failure_output
        (sign_pub_key_fname dec_sec_key_fname passphrase data_fname
           outfilename : string) (overwrite : bool) (w : World) :
  files w !! outfilename = None \/ overwrite = true ->
  outfilename ∉ unwritable w ->
  let r := checkSignThenDecrypt_RSA1 sign_pub_key_fname dec_sec_key_fname
             passphrase data_fname outfilename overwrite w in
  r.1 = false ->
  files r.2 !! outfilename = None
  \/ decrypt_early_return sign_pub_key_fname dec_sec_key_fname passphrase
                          (opened outfilename w).
Proof.
  intros Hok Hw r Hfalse.
  destruct (files (opened outfilename w) !! sign_pub_key_fname
              ≫= public_key_of) as [vk|] eqn:Hvk;
    [|right; by apply er_sign_pub_key].
  destruct (files (opened outfilename w) !! dec_sec_key_fname
              ≫= fun k => private_key_of k passphrase) as [dk|] eqn:Hdk;
    [|right; by eapply er_dec_sec_key].
  left.
  by apply (decrypt_failure_removes_output _ _ _ _ _ _ _ vk dk).
Qed.

End DecryptFailureOutput.

Section EncryptedFile.
Context `{Constants} `{Botan}.


End EncryptedFile.

Section Footprint.
Context `{Constants} `{Botan} `{DER_Encoder}.
Context (outfilename : string).

(** The files other than the output are the same in both worlds. *)
Definition elsewhere (w w' : World) : Prop :=
  forall path, path <> outfilename -> files w' !! path = files w !! path.

Lemma elsewhere_refl w : elsewhere w w.
Proof. by intros p. Qed.

Lemma elsewhere_trans w1 w2 w3 :
  elsewhere w1 w2 -> elsewhere w2 w3 -> elsewhere w1 w3.
Proof. intros H12 H23 p Hp. by rewrite H23, H12. Qed.

Lemma elsewhere_files w w' : files w' = files w -> elsewhere w w'.
Proof. intros E p _. by rewrite E. Qed.

(** A statement that changes no file but the output, and whose value,
    when it falls through, satisfies [P]. *)
Definition keeps {A} (P : A -> Prop) (m : M A) : Prop :=
  forall w, wp m (fun a w' => P a /\ elsewhere w w')
                 (fun _ w' => elsewhere w w') (fun _ w' => elsewhere w w') w.

Lemma keeps_files {A} (P : A -> Prop) (m : M A) :
  (forall w, files (m w).2 = files w
             /\ match (m w).1 with Next a => P a | _ => True end) ->
  keeps P m.
Proof.
  intros Hm w. destruct (Hm w) as [Hf HP]. unfold wp.
  destruct (m w) as [[a|b|e] w']; cbn in *;
    try split; try done; by apply elsewhere_files.
Qed.

Lemma keeps_ret {A} (P : A -> Prop) (a : A) : P a -> keeps P (mret a).
Proof. intros HP. by apply keeps_files. Qed.

Lemma keeps_lift {A} (r : result A) : keeps (fun _ => True) (lift r).
Proof. apply keeps_files. intros w. by destruct r. Qed.

Lemma keeps_weaken {A} (P Q : A -> Prop) (m : M A) :
  keeps P m -> (forall a, P a -> Q a) -> keeps Q m.
Proof.
  intros Hm HPQ w. eapply wp_mono; [apply Hm|cbn beta..]; [|done..].
  intros a w' [HP He]. split; [by apply HPQ|done].
Qed.

Lemma keeps_bind {A B} (P : A -> Prop) (Q : B -> Prop) (m : M A)
      (k : A -> M B) :
  keeps P m -> (forall a, P a -> keeps Q (k a)) -> keeps Q (m ≫= k).
Proof.
  intros Hm Hk w. apply wp_bind.
  eapply wp_mono; [apply Hm|cbn beta..]; [|done..].
  intros a w' [HP He].
  eapply wp_mono; [by apply Hk|cbn beta..].
  - intros b w'' [HQ He']. split; [done|]. by eapply elsewhere_trans.
  - intros b w'' He'. by eapply elsewhere_trans.
  - intros e w'' He'. by eapply elsewhere_trans.
Qed.

Lemma keeps_when (c : bool) (body : M unit) :
  keeps (fun _ => True) body -> keeps (fun _ => True) (when c body).
Proof. intros Hb. destruct c; [done|by apply keeps_ret]. Qed.

Lemma keeps_try_catch {A} (P : A -> Prop) (body : M A) catches handler :
  keeps P body -> (forall e, keeps P (handler e)) ->
  keeps P (try_catch body catches handler).
Proof.
  intros Hb Hh w. apply wp_try_catch.
  eapply wp_mono; [apply Hb|cbn beta..]; [done..|].
  intros e w' He. destruct (catches e); [|done].
  eapply wp_mono; [apply Hh|cbn beta..].
  - intros b w'' [HQ He']. split; [done|]. by eapply elsewhere_trans.
  - intros b w'' He'. by eapply elsewhere_trans.
  - intros e' w'' He'. by eapply elsewhere_trans.
Qed.

Lemma keeps_foldM {S A} (P : S -> Prop) (f : S -> A -> M S) (s : S)
      (l : list A) :
  (forall s a, P s -> keeps P (f s a)) -> P s -> keeps P (foldM f s l).
Proof.
  intros Hf. revert s. induction l as [|a l IH]; intros s HP.
  - by apply keeps_ret.
  - cbn [foldM]. eapply keeps_bind; [by apply Hf|]. intros s' HP'. by apply IH.
Qed.

Lemma keeps_err_print op m : keeps (fun _ => True) (err_print op m).
Proof. by apply keeps_files. Qed.

Lemma keeps_return {A} (P : A -> Prop) (b : bool) : keeps P (return_ b : M A).
Proof. by apply keeps_files. Qed.

Lemma keeps_remove : keeps (fun _ => True) (IOUtil.remove outfilename).
Proof.
  intros w. unfold wp, IOUtil.remove. split; [done|].
  intros p Hp. cbn [files set_files]. by rewrite lookup_delete_ne.
Qed.

Lemma keeps_failed {A} (P : A -> Prop) m :
  keeps P (failed outfilename m : M A).
Proof.
  unfold failed.
  eapply keeps_bind; [apply keeps_err_print|intros _ _].
  eapply keeps_bind; [apply keeps_remove|intros _ _]. apply keeps_return.
Qed.

Lemma keeps_ofstream_open :
  keeps (fun o => of_path o = outfilename) (ofstream_open outfilename).
Proof.
  intros w. unfold wp, ofstream_open.
  case_bool_decide; (split; [done|]); [apply elsewhere_refl|].
  intros p Hp. cbn [files set_files]. by rewrite lookup_insert_ne.
Qed.

Lemma keeps_write o data :
  of_path o = outfilename ->
  keeps (fun o' => of_path o' = outfilename) (write o data).
Proof.
  intros Ho w. unfold wp, write.
  destruct (of_fail o); [split; [done|apply elsewhere_refl]|].
  destruct (_ && _); (split; [done|]); [apply elsewhere_refl|].
  intros p Hp. cbn [files set_files]. rewrite Ho. by rewrite lookup_alter_ne.
Qed.

Definition on_output (st : sink_state) : Prop :=
  of_path (st_outfile st) = outfilename.

Lemma keeps_consume_data st data is_final :
  on_output st -> keeps on_output (consume_data st data is_final).
Proof.
  intros Ho. unfold consume_data. destruct (negb is_final).
  - destruct (update _ _) as [data' aead'].
    eapply keeps_bind; [by apply keeps_write|intros o' Ho'].
    by apply keeps_ret.
  - eapply keeps_bind; [apply keeps_lift|intros data' _].
    eapply keeps_bind; [by apply keeps_write|intros o' Ho'].
    by apply keeps_ret.
Qed.

Lemma keeps_read_stream input st :
  on_output st ->
  keeps (fun r => on_output r.2) (IOUtil.read_stream input consume_data st).
Proof.
  intros Ho. unfold IOUtil.read_stream.
  eapply keeps_bind;
    [apply (keeps_foldM on_output); [|done]|intros st' Ho'; by apply keeps_ret].
  intros. by apply keeps_consume_data.
Qed.

Lemma keeps_check_output op overwrite :
  keeps (fun _ => True) (check_output op outfilename overwrite).
Proof.
  unfold check_output.
  eapply keeps_bind; [by apply (keeps_files (fun _ => True))|intros ex _].
  apply keeps_when. destruct overwrite.
  - eapply keeps_bind; [apply keeps_remove|intros removed _].
    apply keeps_when.
    eapply keeps_bind; [apply keeps_err_print|intros _ _]. apply keeps_return.
  - eapply keeps_bind; [apply keeps_err_print|intros _ _]. apply keeps_return.
Qed.

Lemma keeps_open_output op :
  keeps (fun o => of_path o = outfilename) (open_output op outfilename).
Proof.
  unfold open_output.
  eapply keeps_bind; [apply keeps_ofstream_open|intros o Ho].
  eapply keeps_bind; [|intros _ _; by apply keeps_ret].
  apply keeps_when.
  eapply keeps_bind; [apply keeps_err_print|intros _ _]. apply keeps_return.
Qed.

Lemma keeps_encrypt_prepare k1 k2 p :
  keeps (fun _ => True) (encrypt_prepare k1 k2 p).
Proof.
  intros w.
  apply wp_encrypt_prepare.
  - intros es w' Hp. split; [done|].
    destruct Hp as (?&?&?&?&?&?&?&?&?&?&?&?&?&?&?&?&?& ->). by intros p'.
  - intros w' Hf _ _. by apply elsewhere_files.
  - intros e w' Hf _ _. by apply elsewhere_files.
Qed.

Lemma keeps_encrypt_headers data_fname es o :
  of_path o = outfilename ->
  keeps (fun r => of_path r.1 = outfilename) (encrypt_headers data_fname es o).
Proof.
  intros Ho. unfold encrypt_headers. cbn zeta.
  eapply keeps_bind; [by apply keeps_write|intros o1 Ho1].
  eapply keeps_bind.
  { apply (keeps_files (fun _ => True)). intros w. unfold sign.
    by destruct (sign_message _ _ _ _). }
  intros sig _.
  eapply keeps_bind; [by apply keeps_write|intros o2 Ho2]. by apply keeps_ret.
Qed.

Lemma keeps_encrypt_payload data_fname aead o n :
  of_path o = outfilename ->
  keeps (fun _ => True) (encrypt_payload data_fname outfilename aead o n).
Proof.
  intros Ho. unfold encrypt_payload. cbn zeta.
  eapply keeps_bind; [apply keeps_when, keeps_err_print|intros _ _].
  eapply keeps_bind.
  { unfold IOUtil.read_file.
    eapply keeps_bind; [by apply (keeps_files (fun _ => True))|intros w0 _].
    destruct (files w0 !! data_fname).
    - by apply keeps_read_stream.
    - by apply (keeps_ret (fun r => on_output r.2)). }
  intros [n' st] Hst. destruct (_ || _).
  - eapply keeps_bind; [apply keeps_err_print|intros _ _].
    eapply keeps_bind; [apply keeps_remove|intros _ _]. apply keeps_return.
  - apply keeps_when, keeps_err_print.
Qed.

Lemma keeps_DataSource_Stream path :
  keeps (fun _ => True) (DataSource_Stream path).
Proof.
  apply keeps_files. intros w. unfold DataSource_Stream.
  by destruct (files w !! path).
Qed.

Lemma keeps_decrypt_snoop data_fname :
  keeps (fun _ => True) (decrypt_snoop data_fname outfilename).
Proof.
  unfold decrypt_snoop.
  apply keeps_try_catch; [|intros; apply keeps_failed].
  eapply keeps_bind; [apply keeps_DataSource_Stream|intros input _].
  eapply keeps_bind; [apply keeps_lift|intros [[magic szbuf] r] _].
  repeat (eapply keeps_bind;
          [apply keeps_when, keeps_failed|intros _ _]).
  by apply keeps_ret.
Qed.

Lemma keeps_decrypt_headers vk header1_size input :
  keeps (fun _ => True) (decrypt_headers vk outfilename header1_size input).
Proof.
  unfold decrypt_headers.
  apply keeps_try_catch; [|intros; apply keeps_failed]. cbn zeta.
  eapply keeps_bind; [apply keeps_when, keeps_failed|intros _ _].
  eapply keeps_bind; [apply keeps_lift|intros [h r] _].
  eapply keeps_bind; [apply keeps_lift|intros [sig ct] _].
  eapply keeps_bind; [apply keeps_when, keeps_failed|intros _ _].
  by apply keeps_ret.
Qed.

Lemma keeps_decrypt_validate h :
  keeps (fun _ => True) (decrypt_validate outfilename h).
Proof.
  unfold decrypt_validate. cbn zeta.
  repeat (eapply keeps_bind;
          [apply keeps_when, keeps_failed|intros _ _]).
  eapply keeps_bind; [apply keeps_lift|intros [hash_algo_id r] _].
  repeat (eapply keeps_bind;
          [apply keeps_when, keeps_failed|intros _ _]).
  by apply keeps_ret.
Qed.

Lemma keeps_decrypt_payload dk h cipher_algo input o :
  of_path o = outfilename ->
  keeps (fun _ => True)
        (decrypt_payload dk outfilename h cipher_algo input o).
Proof.
  intros Ho. unfold decrypt_payload.
  eapply keeps_bind.
  { apply (keeps_files (fun _ => True)). intros w. unfold create_or_throw.
    by destruct (AEAD_create _ _). }
  intros [aead|] _.
  2:{ eapply keeps_bind; [apply keeps_err_print|intros _ _]. apply keeps_return. }
  cbn zeta.
  eapply keeps_bind.
  { apply (keeps_files (fun _ => True)). intros w.
    unfold decrypt_or_random, mbind, M_bind, system_random_vec.
    destruct (random_vec _ _). destruct (pk_decrypt _ _ _); [|done].
    by destruct (_ =? _)%nat. }
  intros file_key _.
  eapply keeps_bind; [apply keeps_lift|intros aead' _].
  eapply keeps_bind; [by apply keeps_read_stream|intros [n st] Hst].
  destruct (_ || _); [apply keeps_failed|].
  apply keeps_when, keeps_err_print.
Qed.

End Footprint.

Section OnlyOutput.
Context `{Constants} `{Botan} `{DER_Encoder}.

Lemma keeps_run outfilename (m : M unit) w :
  keeps outfilename (fun _ => True) m ->
  elsewhere outfilename w (run_function m w).2.
Proof.
  intros Hm. apply (run_function_wp _ (fun _ w' => elsewhere outfilename w w')).
  eapply wp_mono; [apply Hm|cbn beta..]; [by intros a w' [_ ?]|done..].
Qed.

(** X13: encrypt and decrypt change no file other than the output: the key
    files and the input, and every other file, hold after the operation
    what they held before, whatever the outcome. *)
Theorem only_output_file_changes
        (key1_fname key2_fname passphrase data_fname outfilename : string)
        (overwrite : bool) (w : World) (path : string) :
  path <> outfilename ->
  files (encryptThenSign_RSA1 key1_fname key2_fname passphrase data_fname
                              outfilename overwrite w).2 !! path
  = files w !! path
  /\ files (checkSignThenDecrypt_RSA1 key1_fname key2_fname passphrase
                                      data_fname outfilename overwrite w).2
       !! path
     = files w !! path.
Proof.
  intros Hp. split.
  - apply (keeps_run outfilename); [|exact Hp].
    eapply keeps_bind; [apply keeps_check_output|intros _ _].
    eapply keeps_bind; [apply keeps_open_output|intros o Ho].
    apply keeps_try_catch.
    + eapply keeps_bind; [apply keeps_encrypt_prepare|intros es _].
      eapply keeps_bind; [by apply keeps_encrypt_headers|intros [o' n] Ho'].
      by apply keeps_encrypt_payload.
    + intros e.
      eapply keeps_bind; [apply keeps_err_print|intros _ _].
      eapply keeps_bind; [apply keeps_remove|intros _ _]. apply keeps_return.
  - apply (keeps_run outfilename); [|exact Hp].
    eapply keeps_bind; [apply keeps_check_output|intros _ _].
    eapply keeps_bind; [apply keeps_open_output|intros o Ho].
    apply keeps_try_catch; [|intros; apply keeps_failed].
    eapply keeps_bind.
    { by apply (keeps_files outfilename (fun _ => True)). }
    intros [vk|] _; [|apply keeps_return].
    eapply keeps_bind.
    { by apply (keeps_files outfilename (fun _ => True)). }
    intros [dk|] _; [|apply keeps_return].
    eapply keeps_bind; [apply keeps_decrypt_snoop|intros n _].
    eapply keeps_bind; [apply keeps_DataSource_Stream|intros input _].
    eapply keeps_bind; [apply keeps_decrypt_headers|intros [h ct] _].
    eapply keeps_bind; [apply keeps_decrypt_validate|intros cipher_algo _].
    by apply keeps_decrypt_payload.
Qed.

End OnlyOutput.

Section Silent.
Context `{Constants} `{Botan} `{DER_Encoder}.

(** A statement that prints nothing when it falls through, with a value
    that satisfies [P], and that returns only [false]. *)
Definition silent {A} (P : A -> Prop) (m : M A) : Prop :=
  forall w, wp m (fun a w' => P a /\ trace w' = trace w)
                 (fun b _ => b = false) (fun _ _ => True) w.

(** A statement that does not fall through, and returns only [false]. *)
Definition leaves {A} (m : M A) : Prop :=
  forall w, wp m (fun _ _ => False) (fun b _ => b = false) (fun _ _ => True) w.

Lemma silent_leaves {A} (P : A -> Prop) (m : M A) : leaves m -> silent P m.
Proof. intros Hm w. eapply wp_mono; [apply Hm|cbn beta..]; done. Qed.

Lemma silent_trace {A} (P : A -> Prop) (m : M A) :
  (forall w, match m w with
             | (Next a, w') => P a /\ trace w' = trace w
             | (Return b, _) => b = false
             | (Throw _, _) => True
             end) ->
  silent P m.
Proof. intros Hm w. exact (Hm w). Qed.

Lemma silent_ret {A} (P : A -> Prop) (a : A) : P a -> silent P (mret a).
Proof. by intros HP w. Qed.

Lemma silent_lift {A} (r : result A) : silent (fun _ => True) (lift r).
Proof. intros w. by destruct r. Qed.

Lemma silent_bind {A B} (P : A -> Prop) (Q : B -> Prop) (m : M A)
      (k : A -> M B) :
  silent P m -> (forall a, P a -> silent Q (k a)) -> silent Q (m ≫= k).
Proof.
  intros Hm Hk w. apply wp_bind.
  eapply wp_mono; [apply Hm|cbn beta..]; [|done..].
  intros a w' [HP Ht].
  eapply wp_mono; [by apply Hk|cbn beta..]; [|done..].
  intros b w'' [HQ Ht']. split; [done|congruence].
Qed.

Lemma silent_weaken {A} (P Q : A -> Prop) (m : M A) :
  silent P m -> (forall a, P a -> Q a) -> silent Q m.
Proof.
  intros Hm HPQ w. eapply wp_mono; [apply Hm|cbn beta..]; [|done..].
  intros a w' [HP Ht]. split; [by apply HPQ|done].
Qed.

Lemma silent_when (c : bool) (body : M unit) :
  leaves body -> silent (fun _ => True) (when c body).
Proof. intros Hb. destruct c; [by apply silent_leaves|by apply silent_ret]. Qed.

Lemma silent_try_catch {A} (P : A -> Prop) (body : M A) catches handler :
  silent P body -> (forall e, leaves (handler e)) ->
  silent P (try_catch body catches handler).
Proof.
  intros Hb Hh w. apply wp_try_catch.
  eapply wp_mono; [apply Hb|cbn beta..]; [done..|].
  intros e w' _. destruct (catches e); [|done].
  eapply wp_mono; [apply Hh|cbn beta..]; done.
Qed.

Lemma silent_foldM {S A} (P : S -> Prop) (f : S -> A -> M S) (s : S)
      (l : list A) :
  (forall s a, P s -> silent P (f s a)) -> P s -> silent P (foldM f s l).
Proof.
  intros Hf. revert s. induction l as [|a l IH]; intros s HP.
  - by apply silent_ret.
  - cbn [foldM]. eapply silent_bind; [by apply Hf|]. intros s' HP'. by apply IH.
Qed.

Lemma leaves_print_return {A} op m :
  leaves (err_print op m;; return_ false : M A).
Proof. by intros w. Qed.

Lemma leaves_print_remove_return {A} op m out :
  leaves (err_print op m;; IOUtil.remove out;; return_ false : M A).
Proof. by intros w. Qed.

Lemma leaves_failed {A} out m : leaves (failed out m : M A).
Proof. by intros w. Qed.

(** A write that has not failed has advanced the position of a stream
    that had not failed. *)
Definition written (o : ofstream) (data : bytes) (o' : ofstream) : Prop :=
  of_fail o' = false ->
  of_fail o = false /\ of_pos o' = of_pos o + N.of_nat (length data).

Lemma silent_write o data : silent (written o data) (write o data).
Proof.
  apply silent_trace. intros w. unfold write, written.
  destruct (of_fail o) eqn:Hf; [by rewrite Hf|].
  destruct (_ && _); cbn [of_fail of_pos]; split; done.
Qed.

(** The payload counter agrees with the position of the stream, counted
    from the position [pos0] at which the payload began. *)
Definition counted (pos0 : N) (st : sink_state) : Prop :=
  st_out_bytes_payload st < 2 ^ 64
  /\ (of_fail (st_outfile st) = false ->
      (pos0 + st_out_bytes_payload st) mod 2 ^ 64
      = of_pos (st_outfile st) mod 2 ^ 64).

Lemma counted_step pos0 st o' (data' : bytes) aead' :
  counted pos0 st ->
  written (st_outfile st) data' o' ->
  counted pos0
    {| st_aead := aead'; st_outfile := o';
       st_out_bytes_payload :=
         (st_out_bytes_payload st + N.of_nat (length data')) mod 2 ^ 64 |}.
Proof.
  intros [Hlt Hc] Hw. split; cbn [st_out_bytes_payload st_outfile].
  - by apply N.mod_lt.
  - intros Hf. destruct (Hw Hf) as [Hf0 Hpos]. rewrite Hpos.
    rewrite N.Div0.add_mod_idemp_r, N.add_assoc.
    rewrite <- N.Div0.add_mod_idemp_l, (Hc Hf0), N.Div0.add_mod_idemp_l.
    reflexivity.
Qed.

Lemma silent_consume_data pos0 st data is_final :
  counted pos0 st -> silent (counted pos0) (consume_data st data is_final).
Proof.
  intros Hc. unfold consume_data. destruct (negb is_final).
  - destruct (update _ _) as [data' aead'].
    eapply silent_bind; [apply silent_write|intros o' Ho'].
    apply silent_ret. by apply counted_step.
  - eapply silent_bind; [apply silent_lift|intros data' _].
    eapply silent_bind; [apply silent_write|intros o' Ho'].
    apply silent_ret. by apply counted_step.
Qed.

Lemma silent_read_stream pos0 input st :
  counted pos0 st ->
  silent (fun r => r.1 = Z.of_nat (length input) /\ counted pos0 r.2)
         (IOUtil.read_stream input consume_data st).
Proof.
  intros Hc. unfold IOUtil.read_stream.
  eapply silent_bind;
    [apply (silent_foldM (counted pos0)); [|done]
    |intros st' Hc'; by apply silent_ret].
  intros. by apply silent_consume_data.
Qed.

Lemma counted_start aead o :
  counted (of_pos o)
          {| st_aead := aead; st_outfile := o; st_out_bytes_payload := 0 |}.
Proof.
  split; cbn [st_out_bytes_payload st_outfile]; [done|].
  intros _. by rewrite N.add_0_r.
Qed.

Lemma silent_check_output op out overwrite :
  silent (fun _ => True) (check_output op out overwrite).
Proof.
  unfold check_output.
  eapply silent_bind; [by apply (silent_trace (fun _ => True))|intros ex _].
  destruct ex; [|by apply silent_ret]. cbn [when]. destruct overwrite.
  - eapply silent_bind; [by apply (silent_trace (fun _ => True))|].
    intros removed _. apply silent_when, leaves_print_return.
  - apply silent_leaves, leaves_print_return.
Qed.

Lemma silent_open_output op out :
  silent (fun o => of_pos o = 0) (open_output op out).
Proof.
  unfold open_output.
  eapply silent_bind.
  { apply (silent_trace (fun o => of_pos o = 0)). intros w.
    unfold ofstream_open. by case_bool_decide. }
  intros o Ho.
  eapply silent_bind; [apply silent_when, leaves_print_return|intros _ _].
  by apply silent_ret.
Qed.

Lemma silent_encrypt_prepare k1 k2 p :
  silent (fun _ => True) (encrypt_prepare k1 k2 p).
Proof.
  intros w. apply wp_encrypt_prepare; [|done..].
  intros es w' Hp. split; [done|].
  by destruct Hp as (?&?&?&?&?&?&?&?&?&?&?&?&?&?&?&?&?& ->).
Qed.

(** The header octets counted are the position of the stream, when no
    write of a header has failed. *)
Lemma silent_encrypt_headers data_fname es o :
  of_pos o = 0 ->
  silent (fun r => of_fail r.1 = false -> r.2 = tellp r.1)
         (encrypt_headers data_fname es o).
Proof.
  intros Ho. unfold encrypt_headers. cbn zeta.
  eapply silent_bind; [apply silent_write|intros o1 Ho1].
  eapply silent_bind.
  { apply (silent_trace (fun _ => True)). intros w. unfold sign.
    by destruct (sign_message _ _ _ _). }
  intros sig _.
  eapply silent_bind; [apply silent_write|intros o2 Ho2].
  apply silent_ret. cbn [fst snd]. intros Hf.
  destruct (Ho2 Hf) as [Hf1 Hp2]. destruct (Ho1 Hf1) as [Hf0 Hp1].
  unfold tellp. rewrite Hf, Hp2, Hp1, Ho, N.add_0_l.
  by rewrite N.Div0.add_mod_idemp_l.
Qed.

Lemma silent_encrypt_payload data_fname out aead o n :
  (of_fail o = false -> n = tellp o) ->
  silent (fun _ => True) (encrypt_payload data_fname out aead o n).
Proof.
  intros Hn. destruct (of_fail o) eqn:Hf.
  { intros w. eapply wp_mono;
      [by apply wp_encrypt_payload_failed|cbn beta..]; done. }
  specialize (Hn eq_refl).
  unfold encrypt_payload. cbn zeta.
  rewrite Hn, N.eqb_refl. cbn [negb when].
  eapply silent_bind; [by apply (silent_ret (fun _ => True))|intros _ _].
  eapply (silent_bind (fun r => counted (of_pos o) r.2)).
  { unfold IOUtil.read_file.
    eapply silent_bind; [by apply (silent_trace (fun _ => True))|intros w0 _].
    destruct (files w0 !! data_fname) as [pt|].
    - eapply silent_weaken;
        [eapply (silent_read_stream (of_pos o)), counted_start|].
      by intros r [_ Hc].
    - apply silent_ret, counted_start. }
  intros [n' st] Hc. cbn [fst snd] in *.
  destruct ((n' <? 0)%Z || fail (st_outfile st)) eqn:Hfail.
  { apply silent_leaves, leaves_print_remove_return. }
  apply orb_false_iff in Hfail as [_ Hf']. unfold fail in Hf'.
  destruct Hc as [Hlt Hc]. specialize (Hc Hf').
  unfold tellp. rewrite Hf, Hf', N.Div0.add_mod_idemp_l, Hc, N.eqb_refl.
  by apply silent_ret.
Qed.

Lemma silent_DataSource_Stream path :
  silent (fun _ => True) (DataSource_Stream path).
Proof.
  apply silent_trace. intros w. unfold DataSource_Stream.
  by destruct (files w !! path).
Qed.

Lemma silent_decrypt_snoop data_fname out :
  silent (fun _ => True) (decrypt_snoop data_fname out).
Proof.
  unfold decrypt_snoop.
  apply silent_try_catch; [|intros; apply leaves_failed].
  eapply silent_bind; [apply silent_DataSource_Stream|intros input _].
  eapply silent_bind; [apply silent_lift|intros [[magic szbuf] r] _].
  repeat (eapply silent_bind;
          [apply silent_when, leaves_failed|intros _ _]).
  by apply silent_ret.
Qed.

Lemma silent_decrypt_headers vk out header1_size input :
  silent (fun _ => True) (decrypt_headers vk out header1_size input).
Proof.
  unfold decrypt_headers.
  apply silent_try_catch; [|intros; apply leaves_failed]. cbn zeta.
  eapply silent_bind; [apply silent_when, leaves_failed|intros _ _].
  eapply silent_bind; [apply silent_lift|intros [h r] _].
  eapply silent_bind; [apply silent_lift|intros [sig ct] _].
  eapply silent_bind; [apply silent_when, leaves_failed|intros _ _].
  by apply silent_ret.
Qed.

Lemma silent_decrypt_validate out h :
  silent (fun _ => True) (decrypt_validate out h).
Proof.
  unfold decrypt_validate. cbn zeta.
  repeat (eapply silent_bind;
          [apply silent_when, leaves_failed|intros _ _]).
  eapply silent_bind; [apply silent_lift|intros [hash_algo_id r] _].
  repeat (eapply silent_bind;
          [apply silent_when, leaves_failed|intros _ _]).
  by apply silent_ret.
Qed.

Lemma silent_decrypt_payload dk out h cipher_algo input o :
  of_pos o = 0 ->
  silent (fun _ => True) (decrypt_payload dk out h cipher_algo input o).
Proof.
  intros Ho. unfold decrypt_payload.
  eapply silent_bind.
  { apply (silent_trace (fun a => is_Some a)). intros w.
    unfold create_or_throw. by destruct (AEAD_create _ _). }
  intros [aead|] Ha; [|by destruct Ha]. cbn zeta.
  eapply silent_bind.
  { apply (silent_trace (fun _ => True)). intros w.
    unfold decrypt_or_random, mbind, M_bind, system_random_vec.
    destruct (random_vec _ _). destruct (pk_decrypt _ _ _); [|done].
    by destruct (_ =? _)%nat. }
  intros file_key _.
  eapply silent_bind; [apply silent_lift|intros aead' _].
  eapply silent_bind;
    [eapply (silent_read_stream (of_pos o)), counted_start|].
  intros [n st] [_ [Hlt Hc]]. cbn [fst snd] in *.
  destruct ((n <? 0)%Z || fail (st_outfile st)) eqn:Hfail.
  { apply silent_leaves, leaves_failed. }
  apply orb_false_iff in Hfail as [_ Hf']. unfold fail in Hf'.
  specialize (Hc Hf'). rewrite Ho, N.add_0_l in Hc.
  unfold tellp. rewrite Hf', <- Hc, (N.mod_small _ _ Hlt), N.eqb_refl.
  by apply silent_ret.
Qed.

Lemma silent_run (m : M unit) w :
  silent (fun _ => True) m ->
  (run_function m w).1 = true -> trace (run_function m w).2 = trace w.
Proof.
  intros Hm.
  apply (run_function_wp _ (fun b w' => b = true -> trace w' = trace w)).
  eapply wp_mono; [apply Hm|cbn beta..].
  - by intros a w' [_ ?].
  - by intros b w' ->.
  - done.
Qed.

(** X14: a successful encrypt or decrypt has printed no diagnostic: the
    counts of the octets written always agree with the position of the
    output stream, so the messages of their checks are never printed on
    a run that succeeds. *)
Theorem success_prints_nothing
        (key1_fname key2_fname passphrase data_fname outfilename : string)
        (overwrite : bool) (w : World) :
  ((encryptThenSign_RSA1 key1_fname key2_fname passphrase data_fname
                         outfilename overwrite w).1 = true ->
   trace (encryptThenSign_RSA1 key1_fname key2_fname passphrase data_fname
                               outfilename overwrite w).2 = trace w)
  /\ ((checkSignThenDecrypt_RSA1 key1_fname key2_fname passphrase data_fname
                                 outfilename overwrite w).1 = true ->
      trace (checkSignThenDecrypt_RSA1 key1_fname key2_fname passphrase
                                       data_fname outfilename overwrite w).2
      = trace w).
Proof.
  split.
  - apply silent_run.
    eapply silent_bind; [apply silent_check_output|intros _ _].
    eapply silent_bind; [apply silent_open_output|intros o Ho].
    apply silent_try_catch; [|intros; apply leaves_print_remove_return].
    eapply silent_bind; [apply silent_encrypt_prepare|intros es _].
    eapply silent_bind; [by apply silent_encrypt_headers|intros [o' n] Hn].
    by apply silent_encrypt_payload.
  - apply silent_run.
    eapply silent_bind; [apply silent_check_output|intros _ _].
    eapply silent_bind; [apply silent_open_output|intros o Ho].
    apply silent_try_catch; [|intros; apply leaves_failed].
    eapply silent_bind; [by apply (silent_trace (fun _ => True))|].
    intros [vk|] _; [|by apply silent_leaves].
    eapply silent_bind; [by apply (silent_trace (fun _ => True))|].
    intros [dk|] _; [|by apply silent_leaves].
    eapply silent_bind; [apply silent_decrypt_snoop|intros n _].
    eapply silent_bind; [apply silent_DataSource_Stream|intros input _].
    eapply silent_bind; [apply silent_decrypt_headers|intros [h ct] _].
    eapply silent_bind; [apply silent_decrypt_validate|intros cipher_algo _].
    by apply silent_decrypt_payload.
Qed.

End Silent.

Section EncryptedHeaders.
Context `{Constants} `{Botan}.

(** X18: two headers with the same encoding are the same header: the octets
    that are signed determine each of the ten fields. *)
Theorem header1_encoding_injective (h1 h2 : Header1) :
  N.of_nat (length (der_encode_header1 h1)) < 2 ^ 32 ->
  h_payload_version h1 < 2 ^ 32 -> h_payload_version_parent h1 < 2 ^ 32 ->
  h_payload_version h2 < 2 ^ 32 -> h_payload_version_parent h2 < 2 ^ 32 ->
  der_encode_header1 h1 = der_encode_header1 h2 ->
  h1 = h2.
Proof.
  intros Hl Hv1 Hp1 Hv2 Hp2 Heq.
  pose proof (decode_encode_header1 h1 [] Hl Hv1 Hp1) as H1.
  rewrite Heq in Hl, H1.
  pose proof (decode_encode_header1 h2 [] Hl Hv2 Hp2) as H2.
  congruence.
Qed.

(** X19: the file that a successful encrypt wrote passes the header stage
    and the field checks of decrypt under the verification key of the
    signing key: decrypt can then fail only in the payload stage. *)
Theorem encrypted_file_headers_accepted
        (enc_pub_key_fname sign_sec_key_fname passphrase data_fname
           outfilename : string) (overwrite : bool) (w w1 : World)
        (sign_pub_key : Public_Key) :
  constants_wf -> registry_consistent ->
  der_encrypt enc_pub_key_fname sign_sec_key_fname passphrase data_fname
              outfilename overwrite w = (true, w1) ->
  data_fname <> "" -> data_fname <> outfilename ->
  (forall sk, (files (opened outfilename w) !! sign_sec_key_fname
                 ≫= fun c => private_key_of c passphrase) = Some sk ->
              valid_sign_pair sk sign_pub_key) ->
  (forall es w0,
      @encrypt_prepare _ _ Botan_DER enc_pub_key_fname sign_sec_key_fname
                       passphrase (opened outfilename w) = (Next es, w0) ->
      headers_fit data_fname es w0) ->
  exists content h ct,
    files w1 !! outfilename = Some content
    /\ accepted_headers sign_pub_key content h ct
    /\ header_fields_valid h
    /\ h_filename h = list_byte_of_string data_fname.
Proof.
  intros Hcwf Hreg Hrun Hd0 Hdo Hsig Hfit.
  destruct (encrypt_success _ _ _ _ _ _ _ _ Hrun Hdo)
    as (_ & _ & _ & es & w0 & pt & Heq & Hprep & _ & _ & Hfi & _).
  destruct (Hfit es w0 Heq) as [Hl1 Hl2].
  destruct (header1_pass2_eq data_fname es Hl1) as (szbuf & HH1 & Hsz & Hget).
  set (h := make_header1 data_fname es szbuf) in *.
  set (sig := header2_signature data_fname es w0) in *.
  set (ct := (aead_stream (es_aead es) pt).1) in *.
  assert (Hl1' : N.of_nat (length (der_encode_header1 h)) < 2 ^ 32)
    by (rewrite <- HH1; exact Hl1).
  assert (Hn : N.to_nat (get_uint32 szbuf 0) = length (der_encode_header1 h)).
  { rewrite Hget, HH1. apply Nat2N.id. }
  exists (der_encode_header1 h ++ der_header2 sig ++ ct), h, ct.
  split; [by rewrite Hfi, lookup_insert_eq, HH1|].
  split; [|split; [|reflexivity]].
  - exists (h_package_magic h), szbuf, (der_header2 sig ++ ct), [], sig.
    rewrite Hn, take_app_length, drop_app_length.
    split; [by apply snoop_encode_header1|].
    split; [apply string_of_list_byte_of_string|].
    split.
    { cbn [h make_header1 h_package_magic].
      rewrite string_of_list_byte_of_string. apply Hcwf. }
    split; [exact Hsz|].
    split; [rewrite length_app; lia|].
    split.
    { rewrite <- (app_nil_r (der_encode_header1 h)) at 1.
      apply decode_encode_header1; [exact Hl1'|cbn; lia|cbn; lia]. }
    split; [by apply decode_encode_header2|].
    destruct Hprep as (?&?&?&?&?& _ & Hsk & _).
    unfold sig, header2_signature. rewrite <- HH1. by apply Hsig.
  - apply (made_header_valid data_fname es szbuf _ _ _ _ _ Hcwf Hreg Hd0 Hprep).
    exact Hl1'.
Qed.

End EncryptedHeaders.

Section EncryptException.
Context `{Constants} `{Botan} `{DER_Encoder}.

(** The set-up of encrypt prints nothing and changes no file before it
    throws. *)
Lemma wp_encrypt_prepare_throws k1 k2 p w :
  wp (encrypt_prepare k1 k2 p) (fun _ _ => True) (fun _ _ => True)
     (fun _ w' => trace w' = trace w /\ files w' = files w) w.
Proof.
  unfold encrypt_prepare.
  apply wp_bind, wp_load_public_key.
  destruct (files w !! k1 ≫= public_key_of) as [ek|]; [|done].
  apply wp_bind, wp_load_private_key.
  destruct (files w !! k2 ≫= _) as [sk|]; [|done].
  destruct (AEAD_create aead_cipher_algo ENCRYPTION) as [aead|]; [|done].
  apply wp_bind, wp_lift.
  destruct (OID_from_string aead_cipher_algo) as [coid|e]; [|done].
  apply wp_bind, wp_when; intros Hne; [done|].
  apply wp_bind, wp_lift.
  destruct (OID_from_string rsa_hash_algo) as [hoid|e]; [|done].
  cbn zeta. apply wp_bind, wp_lift.
  destruct (OID_from_string ("RSA/" +:+ rsa_padding_algo)) as [poid|e]; [|done].
  cbn zeta.
  apply wp_bind, wp_system_random_vec.
  apply wp_bind, wp_encrypt; [|done].
  intros ekey r2 He.
  apply wp_bind, wp_system_random_vec.
  apply wp_bind, wp_lift.
  by destruct (start _ _).
Qed.

(** X20: an exception thrown while encrypt sets up, by an OID lookup, by the
    encryption of the file key or by the start of the AEAD, is caught
    by the handler of the function: encrypt prints that it caught the
    exception, removes the output and returns false. *)
Theorem encrypt_setup_exception_caught
        (enc_pub_key_fname sign_sec_key_fname passphrase data_fname
           outfilename : string) (overwrite : bool) (w w' : World)
        (e : exception) :
  files w !! outfilename = None \/ overwrite = true ->
  outfilename ∉ unwritable w ->
  encrypt_prepare enc_pub_key_fname sign_sec_key_fname passphrase
                  (opened outfilename w) = (Throw e, w') ->
  let r := encryptThenSign_RSA1 enc_pub_key_fname sign_sec_key_fname
             passphrase data_fname outfilename overwrite w in
  r.1 = false /\ files r.2 !! outfilename = None
  /\ trace r.2 = trace w ++ [ERR_PRINT Encrypt (Caught_exception e)].
Proof.
  intros Hok Hw Hthrow. cbn zeta. rewrite encrypt_after_open by done.
  pose proof (wp_encrypt_prepare_throws enc_pub_key_fname sign_sec_key_fname
                passphrase (opened outfilename w)) as Hwp.
  unfold wp in Hwp. rewrite Hthrow in Hwp. destruct Hwp as [Ht _].
  unfold run_function, encrypt_body, try_catch.
  rewrite (bind_Throw _ _ _ _ _ Hthrow).
  cbn [is_std_exception].
  unfold mbind, M_bind, err_print, IOUtil.remove, return_.
  cbn [fst snd files trace set_files add_event].
  split; [done|]. split; [apply lookup_delete_eq|by rewrite Ht].
Qed.

End EncryptException.

(** * The JNI bridge of the listener

    [JNICipherpackListener] forwards each callback to the Java method it
    looked up by name and descriptor when it was constructed. *)

Module JNI.

(** The types of a method descriptor. *)
Inductive jtype : Type :=
| Tboolean | Tbyte | Tchar | Tshort | Tint | Tlong | Tfloat | Tdouble | Tvoid
| Tclass (name : string)
| Tarray (element : jtype).

Global Instance jtype_eq_dec : EqDecision jtype.
Proof. solve_decision. Defined.

(** The class name of an object type, up to its semicolon. *)
Fixpoint class_name (s : list ascii) : option (string * list ascii) :=
  match s with
  | [] => None
  | ";"%char :: s' => Some (EmptyString, s')
  | c :: s' =>
      match class_name s' with
      | Some (name, rest) => Some (String c name, rest)
      | None => None
      end
  end.

(** One field type at the head of a descriptor. *)
Fixpoint field_type (s : list ascii) : option (jtype * list ascii) :=
  match s with
  | "Z"%char :: s' => Some (Tboolean, s')
  | "B"%char :: s' => Some (Tbyte, s')
  | "C"%char :: s' => Some (Tchar, s')
  | "S"%char :: s' => Some (Tshort, s')
  | "I"%char :: s' => Some (Tint, s')
  | "J"%char :: s' => Some (Tlong, s')
  | "F"%char :: s' => Some (Tfloat, s')
  | "D"%char :: s' => Some (Tdouble, s')
  | "V"%char :: s' => Some (Tvoid, s')
  | "L"%char :: s' =>
      match class_name s' with
      | Some (name, rest) => Some (Tclass name, rest)
      | None => None
      end
  | "["%char :: s' =>
      match field_type s' with
      | Some (t, rest) => Some (Tarray t, rest)
      | None => None
      end
  | _ => None
  end.

(** The parameter types up to the closing parenthesis. *)
Fixpoint parameters (fuel : nat) (s : list ascii)
  : option (list jtype * list ascii) :=
  match fuel with
  | O => None
  | S fuel' =>
      match s with
      | ")"%char :: s' => Some ([], s')
      | _ =>
          match field_type s with
          | Some (t, rest) =>
              match parameters fuel' rest with
              | Some (ts, rest') => Some (t :: ts, rest')
              | None => None
              end
          | None => None
          end
      end
  end.

(** A method descriptor: its parameter types and its return type. *)
Definition method_descriptor (d : string) : option (list jtype * jtype) :=
  match list_ascii_of_string d with
  | "("%char :: s =>
      match parameters (S (length s)) s with
      | Some (ts, rest) =>
          match field_type rest with
          | Some (r, []) => Some (ts, r)
          | _ => None
          end
      | None => None
      end
  | _ => None
  end.

Definition JNI_FALSE : N := 0.
Definition JNI_TRUE : N := 1.

Section Listener.
(** [org.cipherpack.PackHeader], as [to_jPackHeader] makes it. *)
Context {PackHeader : Type}.

(** The values passed to a Java method. *)
Inductive jvalue : Type :=
| jboolean (v : N)
| jlong (v : Z)
| jstring (s : string)
| jPackHeader (h : PackHeader)
| jbyteArray (data : bytes).

Definition jtype_of (v : jvalue) : jtype :=
  match v with
  | jboolean _ => Tboolean
  | jlong _ => Tlong
  | jstring _ => Tclass "java/lang/String"
  | jPackHeader _ => Tclass "org/cipherpack/PackHeader"
  | jbyteArray _ => Tarray Tbyte
  end.

(** [b ? JNI_TRUE : JNI_FALSE]. *)
Definition to_jboolean (b : bool) : jvalue :=
  jboolean (if b then JNI_TRUE else JNI_FALSE).

(** [static_cast<jlong>] of a [uint64_t]. *)
Definition to_jlong (n : N) : jvalue :=
  let m := Z.of_N (n mod 2 ^ 64) in
  jlong (if (m <? 2 ^ 63)%Z then m else (m - 2 ^ 64)%Z).

(** A method as [jau::search_method] found it: its name and the
    descriptor it was looked up with. *)
Record jmethodID := { method_name : string; method_args : string }.

Definition _notifyErrorMethodArgs : string := "(ZLjava/lang/String;)V".
Definition _notifyHeaderMethodArgs : string :=
  "(ZLorg/cipherpack/PackHeader;Z)V".
Definition _notifyProgressMethodArgs : string := "(ZJJ)V".
Definition _notifyEndMethodArgs : string := "(ZLorg/cipherpack/PackHeader;Z)V".
Definition _getSendContentMethodArgs : string := "(Z)Z".
Definition _contentProcessedMethodArgs : string := "(ZZ[BZ)Z".

Record JNICipherpackListener := {
  iname : Z;
  mNotifyError : jmethodID;
  mNotifyHeader : jmethodID;
  mNotifyProgress : jmethodID;
  mNotifyEnd : jmethodID;
  mGetSendContent : jmethodID;
  mContentProcessed : jmethodID
}.

(** The constructor: the instance number drawn from the counter, and
    the six methods looked up. The counter is an [int]. *)
Definition construct (iname_next : Z) : JNICipherpackListener * Z :=
  ({| iname := iname_next;
      mNotifyError :=
        {| method_name := "notifyError";
           method_args := _notifyErrorMethodArgs |};
      mNotifyHeader :=
        {| method_name := "notifyHeader";
           method_args := _notifyHeaderMethodArgs |};
      mNotifyProgress :=
        {| method_name := "notifyProgress";
           method_args := _notifyProgressMethodArgs |};
      mNotifyEnd :=
        {| method_name := "notifyEnd"; method_args := _notifyEndMethodArgs |};
      mGetSendContent :=
        {| method_name := "getSendContent";
           method_args := _getSendContentMethodArgs |};
      mContentProcessed :=
        {| method_name := "contentProcessed";
           method_args := _contentProcessedMethodArgs |} |},
   ((iname_next + 1 + 2 ^ 31) mod 2 ^ 32 - 2 ^ 31)%Z).

(** A [Call...Method] on the Java listener: the method and the values
    passed after it. *)
Record method_call := { callee : jmethodID; passed : list jvalue }.

Definition notifyError (l : JNICipherpackListener) (decrypt_mode : bool)
           (msg : string) : method_call :=
  {| callee := mNotifyError l;
     passed := [to_jboolean decrypt_mode; jstring msg] |}.

Definition notifyHeader (l : JNICipherpackListener) (decrypt_mode : bool)
           (header : PackHeader) (verified : bool) : method_call :=
  {| callee := mNotifyHeader l;
     passed := [to_jboolean decrypt_mode; jPackHeader header;
                to_jboolean verified] |}.

Definition notifyProgress (l : JNICipherpackListener) (decrypt_mode : bool)
           (content_size bytes_processed : N) : method_call :=
  {| callee := mNotifyProgress l;
     passed := [to_jboolean decrypt_mode; to_jlong content_size;
                to_jlong bytes_processed] |}.

Definition notifyEnd (l : JNICipherpackListener) (decrypt_mode : bool)
           (header : PackHeader) (success : bool) : method_call :=
  {| callee := mNotifyEnd l;
     passed := [to_jboolean decrypt_mode; jPackHeader header;
                to_jboolean success] |}.

Definition getSendContent (l : JNICipherpackListener) (decrypt_mode : bool)
  : method_call :=
  {| callee := mGetSendContent l; passed := [to_jboolean decrypt_mode] |}.

Definition contentProcessed (l : JNICipherpackListener)
           (decrypt_mode is_header : bool) (data : bytes) (is_final : bool)
  : method_call :=
  {| callee := mContentProcessed l;
     passed := [to_jboolean decrypt_mode; jbyteArray data;
                to_jboolean is_final] |}.

(** [JNI_TRUE == res], the result of the two callbacks that return. *)
Definition returned (res : N) : bool := bool_decide (JNI_TRUE = res).

(** The values passed are of the parameter types of the descriptor. *)
Definition well_typed (c : method_call) : bool :=
  match method_descriptor (method_args (callee c)) with
  | Some (ts, _) => bool_decide (map jtype_of (passed c) = ts)
  | None => false
  end.

End Listener.

End JNI.

Section Bridge.
Import JNI.
Context {PackHeader : Type}.

(** X16: the five callbacks [notifyError], [notifyHeader], [notifyProgress],
    [notifyEnd] and [getSendContent] pass to their Java methods values
    of the parameter types of the descriptors the methods were looked
    up with. *)
Theorem callbacks_match_descriptors
        (iname_next : Z) (decrypt_mode flag : bool) (msg : string)
        (header : PackHeader) (content_size bytes_processed : N) :
  let l := (construct iname_next).1 in
  well_typed (notifyError (PackHeader := PackHeader) l decrypt_mode msg) = true
  /\ well_typed (notifyHeader l decrypt_mode header flag) = true
  /\ well_typed (notifyProgress (PackHeader := PackHeader) l decrypt_mode
                                content_size bytes_processed) = true
  /\ well_typed (notifyEnd l decrypt_mode header flag) = true
  /\ well_typed (getSendContent (PackHeader := PackHeader) l decrypt_mode)
     = true.
Proof. cbn zeta. repeat split; reflexivity. Qed.

(** X17: [contentProcessed] passes three values, the mode, the data and the
    final flag, to a Java method whose descriptor has four parameters:
    [is_header] is not passed, and the values passed are not of the
    parameter types of the method. *)
Theorem contentProcessed_drops_is_header
        (iname_next : Z) (decrypt_mode is_header : bool) (data : bytes)
        (is_final : bool) :
  let l := (construct iname_next).1 in
  let c := contentProcessed (PackHeader := PackHeader) l decrypt_mode
                            is_header data is_final in
  method_descriptor (method_args (callee c))
  = Some ([Tboolean; Tboolean; Tarray Tbyte; Tboolean], Tboolean)
  /\ map jtype_of (passed c) = [Tboolean; Tarray Tbyte; Tboolean]
  /\ well_typed c = false
  /\ c = contentProcessed l decrypt_mode (negb is_header) data is_final.
Proof. cbn zeta. repeat split; reflexivity. Qed.

End Bridge.


(** * Scenarios over the sample instance *)

Module Scenario.
Import Sample.

Definition hello : bytes := [x68; x65; x6c; x6c; x6f].

(** The world after [hello] has been encrypted into [data.enc]. *)
Definition sealed : @World botan := (encrypted hello).2.

(** The octets of a file, or none. *)
Definition content (path : string) (w : @World botan) : bytes :=
  default [] (files w !! path).

(** A world with one bit of a file inverted. *)
Definition tampered (path : string) (pos : nat) (bit : N) (w : @World botan)
  : @World botan :=
  set_files (alter (flip_bit_at pos bit) path) w.

(** Decrypt with a private key that is not the one of the encryption
    key. *)
Definition unsealed_with_other_key (w : @World botan) : bool * @World botan :=
  @checkSignThenDecrypt_RSA1 constants botan
    "sign.pub" "other.sec" "" "data.enc" "data.out" false w.

(** What the decoders find in an input. *)
Definition size_field (c : bytes) : bytes :=
  match snoop_header1 c with
  | Val ((_, szbuf), _) => szbuf
  | Exc _ => []
  end.
Definition magic_field (c : bytes) : bytes :=
  match snoop_header1 c with
  | Val ((magic, _), _) => magic
  | Exc _ => []
  end.
Definition snoop_rest (c : bytes) : bytes :=
  match snoop_header1 c with
  | Val (_, r) => r
  | Exc _ => []
  end.
Definition header1_size_of (c : bytes) : nat :=
  N.to_nat (get_uint32 (size_field c) 0).
Definition empty_header : Header1 :=
  {| h_package_magic := []; h_header1_size_buffer := []; h_filename := [];
     h_payload_version := 0; h_payload_version_parent := 0;
     h_sign_algo := [];
     h_pk_alg_id := {| alg_oid := []; alg_parameters := [] |};
     h_cipher_algo_oid := []; h_encrypted_key := []; h_nonce := [] |}.
Definition header_of (c : bytes) : Header1 :=
  match decode_header1 (take (header1_size_of c) c) with
  | Val (h, _) => h
  | Exc _ => empty_header
  end.
Definition header_rest (c : bytes) : bytes :=
  match decode_header1 (take (header1_size_of c) c) with
  | Val (_, r) => r
  | Exc _ => []
  end.
Definition signature_of (c : bytes) : bytes :=
  match decode_header2 (drop (header1_size_of c) c) with
  | Val (sig, _) => sig
  | Exc _ => []
  end.
Definition payload_of (c : bytes) : bytes :=
  match decode_header2 (drop (header1_size_of c) c) with
  | Val (_, ct) => ct
  | Exc _ => []
  end.

(** What encrypt prepares before it writes the headers of [sealed]. *)
Definition empty_setup : @encrypt_setup botan :=
  {| es_sign_sec_key := (key2 : @Private_Key botan);
     es_pk_alg_id := {| alg_oid := []; alg_parameters := [] |};
     es_cipher_algo_oid := []; es_file_key := []; es_encrypted_key := [];
     es_nonce := [];
     es_aead := ({| a_dir := ENCRYPTION; a_key := []; a_ad := [];
                    a_nonce := []; a_pos := 0; a_mac := 0 |}
                 : @AEAD_Mode botan) |}.

Definition prepared_run : flow (@encrypt_setup botan) * @World botan :=
  @encrypt_prepare constants botan Botan_DER "enc.pub" "sign.sec" ""
                   (opened "data.enc" (world hello)).

Definition setup : @encrypt_setup botan :=
  match prepared_run.1 with
  | Next es => es
  | _ => empty_setup
  end.

(** A plaintext of fourteen octets: with the tag of two octets the
    payload fills one buffer of sixteen, and the final read is empty. *)
Definition fourteen : bytes := replicate 14 x61.

Definition cut_sealed : @World botan := (encrypted fourteen).2.

Definition cut_setup : @encrypt_setup botan :=
  match (@encrypt_prepare constants botan Botan_DER "enc.pub" "sign.sec" ""
           (opened "data.enc" (world fourteen))).1 with
  | Next es => es
  | _ => empty_setup
  end.

(** The AEAD of the sample registry before a key is set, and the one
    that decrypts what [setup] encrypted. *)
Definition fresh_aead (dir : Cipher_Dir) : aead :=
  {| a_dir := dir; a_key := []; a_ad := []; a_nonce := [];
     a_pos := 0; a_mac := 0 |}.

Definition decrypting_aead : aead :=
  {| a_dir := DECRYPTION; a_key := es_file_key setup;
     a_ad := es_encrypted_key setup; a_nonce := es_nonce setup;
     a_pos := 0; a_mac := fold_left mac_step (es_encrypted_key setup) 7 |}.

(** The AEAD a start has returned. *)
Definition started (r : result (@AEAD_Mode botan)) : aead :=
  match r with
  | Val a => a
  | Exc _ => fresh_aead DECRYPTION
  end.

(** Constants that differ from the sample ones in the signing
    algorithm. *)
Definition other_constants : Constants := {|
  package_magic := @package_magic constants;
  rsa_sign_algo := "EMSA4(SHA-256)";
  rsa_padding_algo := @rsa_padding_algo constants;
  rsa_hash_algo := @rsa_hash_algo constants;
  aead_cipher_algo := @aead_cipher_algo constants;
  ChaCha_Nonce_Size := @ChaCha_Nonce_Size constants;
  buffer_size := @buffer_size constants
|}.

(** A world in which the plaintext is read from the path with the empty
    name, so that the [data_filename] written is empty. *)
Definition nameless_world : @World botan :=
  set_files (<["" := hello]>) (world hello).

Definition nameless_sealed : @World botan :=
  (@encryptThenSign_RSA1 constants botan Botan_DER
     "enc.pub" "sign.sec" "" "" "data.enc" false nameless_world).2.

End Scenario.

(** * The sample runs *)

Section SampleFacts.
Import Sample Scenario.

Lemma sample_constants_wf : @constants_wf constants.
Proof. repeat split; discriminate. Qed.

Lemma sample_registry_consistent : @registry_consistent botan.
Proof.
  intros s o. cbn [OID_from_string oid2str_or_empty botan].
  unfold str2oid, oid_table. cbn [list_find fst snd].
  repeat case_decide; cbn; intros [= <-]; subst; reflexivity.
Qed.

Lemma sample_valid_enc_pair k : @valid_enc_pair botan k k.
Proof.
  intros eme m r c r'. cbn [pk_encrypt pk_decrypt botan].
  unfold wrap, unwrap. intros [= <- _].
  rewrite take_app_length, bool_decide_eq_true_2 by done.
  by rewrite drop_app_length, rev_involutive.
Qed.

Lemma sample_valid_sign_pair k : @valid_sign_pair botan k k.
Proof.
  intros emsa m r. cbn [check_signature sign_message botan].
  unfold verify, make_signature. cbn [fst]. by apply bool_decide_eq_true_2.
Qed.

Lemma sealed_run : encrypted hello = (true, sealed).
Proof.
  unfold sealed.
  assert ((encrypted hello).1 = true) as <- by (vm_compute; reflexivity).
  apply surjective_pairing.
Qed.

Lemma sealed_setup es w0 :
  @encrypt_prepare constants botan Botan_DER "enc.pub" "sign.sec" ""
                   (opened "data.enc" (world hello)) = (Next es, w0) ->
  es = setup /\ w0 = prepared_run.2.
Proof. intros Hes. unfold setup, prepared_run. by rewrite Hes. Qed.

End SampleFacts.

Section SampleAEAD.
Import Sample.

(** One octet through the sample cipher, and the state after it. *)
Definition cipher_octet (a : aead) (b : byte) : byte :=
  match a_dir a with
  | ENCRYPTION => u8 (Byte.to_N b + keystream a (a_pos a))
  | DECRYPTION => u8 (Byte.to_N b + 256 - keystream a (a_pos a))
  end.

Definition absorbed (a : aead) (b : byte) : aead :=
  {| a_dir := a_dir a; a_key := a_key a; a_ad := a_ad a;
     a_nonce := a_nonce a; a_pos := a_pos a + 1;
     a_mac := mac_step (a_mac a)
                (match a_dir a with
                 | ENCRYPTION => cipher_octet a b
                 | DECRYPTION => b
                 end) |}.

Lemma process_cons a b data :
  process a (b :: data)
  = (cipher_octet a b :: (process (absorbed a b) data).1,
     (process (absorbed a b) data).2).
Proof.
  cbn [process]. fold (cipher_octet a b). fold (absorbed a b).
  by destruct (process (absorbed a b) data).
Qed.

Lemma process_length data : forall a, length (process a data).1 = length data.
Proof.
  induction data as [|b data IH]; intros a; [done|].
  rewrite process_cons. cbn. by rewrite IH.
Qed.

Lemma process_dir data : forall a, a_dir (process a data).2 = a_dir a.
Proof.
  induction data as [|b data IH]; intros a; [done|].
  rewrite process_cons. cbn [snd]. by rewrite IH.
Qed.

Lemma process_app x : forall a y,
  process a (x ++ y)
  = ((process a x).1 ++ (process (process a x).2 y).1,
     (process (process a x).2 y).2).
Proof.
  induction x as [|b x IH]; intros a y.
  - cbn. by destruct (process a y).
  - cbn [app]. rewrite !process_cons, IH. reflexivity.
Qed.

(** The sample AEAD over the reads of a stream is the cipher over the
    stream: encryption appends the tag of the state reached. *)
Lemma encrypting_run pieces : forall (a : aead) last,
  a_dir a = ENCRYPTION ->
  @aead_run botan a (reads pieces last)
  = ((process a (concat pieces ++ last)).1
     ++ tag_of (process a (concat pieces ++ last)).2, None).
Proof.
  induction pieces as [|p pieces IH]; intros a last Hd.
  - cbn [reads map app aead_run negb concat finish botan].
    unfold aead_finish. rewrite Hd.
    destruct (process a last) as [out a']. cbn. by rewrite app_nil_r.
  - cbn [reads map app aead_run negb concat update botan].
    fold (reads pieces last).
    destruct (process a p) as [out a'] eqn:Hp.
    rewrite IH by (by rewrite <- Hd, <- (process_dir p a), Hp).
    rewrite <- app_assoc, (process_app p), Hp. cbn [fst snd].
    by rewrite app_assoc.
Qed.

(** Decryption takes the tag from the end of the final read. *)
Lemma decrypting_run pieces : forall (a : aead) last,
  a_dir a = DECRYPTION ->
  @aead_run botan a (reads pieces last)
  = if (length last <? tag_size)%nat
    then ((process a (concat pieces)).1, Some Invalid_Argument)
    else
      let data := concat pieces ++ take (length last - tag_size) last in
      if bool_decide (drop (length last - tag_size) last
                      = tag_of (process a data).2)
      then ((process a data).1, None)
      else ((process a (concat pieces)).1, Some Invalid_Authentication_Tag).
Proof.
  induction pieces as [|p pieces IH]; intros a last Hd.
  - cbn [reads map app aead_run negb concat finish botan].
    unfold aead_finish. rewrite Hd.
    destruct (length last <? tag_size)%nat; [done|]. cbn zeta.
    destruct (process a (take _ last)) as [out a']. cbn [fst snd].
    case_bool_decide; [by rewrite app_nil_r|done].
  - cbn [reads map app aead_run negb concat update botan].
    fold (reads pieces last).
    destruct (process a p) as [out a'] eqn:Hp.
    rewrite IH by (by rewrite <- Hd, <- (process_dir p a), Hp).
    destruct (length last <? tag_size)%nat.
    { by rewrite (process_app p), Hp. }
    cbn zeta. rewrite <- !app_assoc, !(process_app p), Hp. cbn [fst snd].
    by case_bool_decide.
Qed.

(** An encrypting and a decrypting state at the same place of the same
    stream. *)
Definition paired (a d : aead) : Prop :=
  a_dir a = ENCRYPTION /\ a_dir d = DECRYPTION
  /\ a_key a = a_key d /\ a_nonce a = a_nonce d
  /\ a_pos a = a_pos d /\ a_mac a = a_mac d.

Lemma u8_inverse (b : byte) (k : N) :
  k < 256 -> u8 (Byte.to_N (u8 (Byte.to_N b + k)) + 256 - k) = b.
Proof.
  intros Hk. rewrite to_N_u8. pose proof (to_N_lt b) as Hb.
  transitivity (u8 (Byte.to_N b)); [|apply u8_to_N].
  assert (E : ((Byte.to_N b + k) mod 256 + 256 - k) mod 256
              = Byte.to_N b mod 256).
  { destruct (N.ltb_spec (Byte.to_N b + k) 256) as [Hs|Hs].
    - rewrite (N.mod_small _ _ Hs).
      replace (Byte.to_N b + k + 256 - k) with (Byte.to_N b + 1 * 256) by lia.
      by rewrite N.Div0.mod_add.
    - replace (Byte.to_N b + k) with (Byte.to_N b + k - 256 + 1 * 256) by lia.
      rewrite N.Div0.mod_add, (N.mod_small (_ - 256)) by lia.
      f_equal. lia. }
  unfold u8. by rewrite E.
Qed.

Lemma paired_process x : forall a d,
  paired a d ->
  (process d (process a x).1).1 = x
  /\ paired (process a x).2 (process d (process a x).1).2.
Proof.
  induction x as [|b x IH]; intros a d Hp; [done|].
  rewrite process_cons. cbn [fst snd]. rewrite process_cons. cbn [fst snd].
  destruct Hp as (Ha & Hd & Hk & Hn & Hpos & Hm).
  assert (Hb : cipher_octet d (cipher_octet a b) = b).
  { unfold cipher_octet. rewrite Ha, Hd.
    unfold keystream. rewrite <- Hk, <- Hn, <- Hpos.
    apply u8_inverse. by apply N.mod_lt. }
  destruct (IH (absorbed a b) (absorbed d (cipher_octet a b))) as [Hx Hp'].
  { unfold paired, absorbed. cbn. rewrite Ha, Hd, Hk, Hn, Hpos, Hm. done. }
  by rewrite Hb, Hx.
Qed.

Lemma paired_tag a d : paired a d -> tag_of a = tag_of d.
Proof. intros (_ & _ & Hk & _ & _ & Hm). unfold tag_of. by rewrite Hk, Hm. Qed.

Lemma sample_appends_tag (a : aead) :
  a_dir a = ENCRYPTION -> @appends_tag botan tag_size a.
Proof.
  intros Hd pieces last out. rewrite (encrypting_run pieces a last Hd).
  intros [= <-]. rewrite length_app, process_length. done.
Qed.

Lemma sample_needs_tag (d : aead) :
  a_dir d = DECRYPTION -> @needs_tag botan tag_size d.
Proof.
  intros Hd pieces last Hl. rewrite (decrypting_run pieces d last Hd).
  apply Nat.ltb_lt in Hl. by rewrite Hl.
Qed.

Lemma sample_inverts (a d : aead) : paired a d -> @inverts botan tag_size a d.
Proof.
  intros Hp pieces last out pieces' last' Hrun Hcut Hl.
  pose proof Hp as (Ha & Hd & _).
  rewrite (encrypting_run pieces a last Ha) in Hrun. injection Hrun as <-.
  set (pt := concat pieces ++ last) in *.
  rewrite <- (take_drop (length last' - tag_size) last'), app_assoc in Hcut.
  apply app_inj_2 in Hcut as [Hc Ht];
    [|rewrite length_drop; unfold tag_size, tag_of in *; cbn; lia].
  rewrite (decrypting_run pieces' d last' Hd).
  apply Nat.ltb_ge in Hl. rewrite Hl. cbn zeta. rewrite Hc, Ht.
  destruct (paired_process pt a d Hp) as [Hx Hp'].
  rewrite Hx, bool_decide_eq_true_2; [done|]. by apply paired_tag.
Qed.

Lemma started_decrypting (a : aead) key ad nonce sd :
  a_dir a = DECRYPTION ->
  aead_start (aead_set_ad (aead_set_key a key) ad) nonce = Val sd ->
  a_dir sd = DECRYPTION.
Proof.
  intros Hd. unfold aead_start.
  destruct (length nonce =? 12)%nat; [|done]. by intros [= <-].
Qed.

End SampleAEAD.

Import Sample Scenario.

Ltac conjuncts := repeat match goal with |- _ /\ _ => split end.

Ltac evaluate :=
  first [ vm_compute; reflexivity
        | vm_compute; discriminate
        | apply Nat.leb_le; vm_compute; reflexivity
        | vm_compute; intros [=] ].

Lemma cut_sealed_run : encrypted fourteen = (true, cut_sealed).
Proof.
  unfold cut_sealed.
  assert ((encrypted fourteen).1 = true) as <- by (vm_compute; reflexivity).
  apply surjective_pairing.
Qed.

Lemma roundtrip_fails_when_tag_is_cut_witness :
  exists e,
    fatal "data.out" (Caught_exception e) cut_sealed (decrypted cut_sealed).
Proof.
  apply (@roundtrip_fails_when_tag_is_cut constants botan
           "enc.pub" "sign.sec" "" "data" "data.enc" false
           "sign.pub" "enc.sec" "" "data.out" false
           (world fourteen) cut_sealed fourteen key2 key1
           tag_size (fresh_aead DECRYPTION)).
  - exact sample_constants_wf.
  - exact sample_registry_consistent.
  - exact cut_sealed_run.
  - evaluate.
  - discriminate.
  - discriminate.
  - discriminate.
  - intros sk Hsk. vm_compute in Hsk. injection Hsk as <-.
    apply sample_valid_sign_pair.
  - intros es w0 Hes.
    assert (es = cut_setup) as -> by (unfold cut_setup; by rewrite Hes).
    assert (w0 = (@encrypt_prepare constants botan Botan_DER "enc.pub"
                    "sign.sec" "" (opened "data.enc" (world fourteen))).2)
      as -> by (by rewrite Hes).
    split.
    + split; evaluate.
    + apply sample_appends_tag. evaluate.
  - evaluate.
  - intros key ad nonce sd Hsd. apply sample_needs_tag.
    by apply (started_decrypting (fresh_aead DECRYPTION) key ad nonce).
  - evaluate.
  - evaluate.
  - discriminate.
  - discriminate.
  - discriminate.
  - left. evaluate.
  - evaluate.
  - apply Nat.ltb_lt. evaluate.
Defined.

(** The run on the failing input: a plaintext of fourteen octets is
    encrypted, and decrypt of the result fails with the exception of
    [finish] caught; plaintexts of thirteen and sixteen octets come
    back. *)
Lemma fourteen_octets_do_not_come_back :
  (encrypted fourteen).1 = true
  /\ (decrypted cut_sealed).1 = false
  /\ files (decrypted cut_sealed).2 !! "data.out" = None
  /\ trace (decrypted cut_sealed).2
     = [ERR_PRINT Decrypt (Caught_exception Invalid_Argument)]
  /\ (decrypted (encrypted (replicate 13 x61)).2).1 = true
  /\ files (decrypted (encrypted (replicate 13 x61)).2).2 !! "data.out"
     = Some (replicate 13 x61)
  /\ (decrypted (encrypted (replicate 16 x61)).2).1 = true
  /\ files (decrypted (encrypted (replicate 16 x61)).2).2 !! "data.out"
     = Some (replicate 16 x61).
Proof. conjuncts; evaluate. Qed.

Lemma roundtrip_when_tag_in_final_read_witness :
  exists w2 content h rest,
    decrypted sealed = (true, w2)
    /\ files w2 !! "data.out" = Some hello
    /\ files sealed !! "data.enc" = Some content
    /\ decode_header1 content = Val (h, rest)
    /\ h_filename h = list_byte_of_string "data"
    /\ h_payload_version h = 1
    /\ h_payload_version_parent h = 0.
Proof.
  apply (@roundtrip_when_tag_in_final_read constants botan
           "enc.pub" "sign.sec" "" "data" "data.enc" false
           "sign.pub" "enc.sec" "" "data.out" false
           (world hello) sealed hello key2 key1 tag_size).
  - exact sample_constants_wf.
  - exact sample_registry_consistent.
  - exact sealed_run.
  - evaluate.
  - apply Nat.leb_le. evaluate.
  - discriminate.
  - discriminate.
  - discriminate.
  - discriminate.
  - intros ek Hek. vm_compute in Hek. injection Hek as <-.
    apply sample_valid_enc_pair.
  - intros sk Hsk. vm_compute in Hsk. injection Hsk as <-.
    apply sample_valid_sign_pair.
  - intros es w0 Hes. destruct (sealed_setup es w0 Hes) as [-> ->]. split.
    + split; evaluate.
    + split; [apply sample_appends_tag; evaluate|].
      exists (fresh_aead DECRYPTION), decrypting_aead.
      split; [evaluate|]. split; [evaluate|]. split; [evaluate|].
      apply sample_inverts. unfold paired. conjuncts; evaluate.
  - evaluate.
  - evaluate.
  - discriminate.
  - discriminate.
  - discriminate.
  - left. evaluate.
  - evaluate.
Defined.

Lemma early_return_leaves_output_witness :
  (let r := @encryptThenSign_RSA1 constants botan Botan_DER
              "missing.pub" "sign.sec" "" "data" "data.enc" false (world hello) in
   r.1 = false /\ files r.2 !! "data.enc" = Some []
   /\ trace r.2 = trace (world hello) ++ map (ERR_PRINT Encrypt) [])
  /\ (let r := @checkSignThenDecrypt_RSA1 constants botan
                 "missing.pub" "sign.sec" "" "data" "data.enc" false
                 (world hello) in
      r.1 = false /\ files r.2 !! "data.enc" = Some []
      /\ trace r.2 = trace (world hello)).
Proof.
  destruct (@early_return_leaves_output constants botan Botan_DER
              "missing.pub" "sign.sec" "" "data" "data.enc" false (world hello))
    as [Henc Hdec].
  - left. evaluate.
  - evaluate.
  - split.
    + apply Henc. apply er_enc_pub_key. evaluate.
    + apply Hdec. apply er_sign_pub_key. evaluate.
Defined.

Lemma listener_contract_violated :
  (encrypted hello).1 = true
  /\ listener_order true (listener_calls (trace (encrypted hello).2)) = false
  /\ (unsealed_with_other_key sealed).1 = false
  /\ listener_order false
       (listener_calls (trace (unsealed_with_other_key sealed).2)) = false.
Proof. conjuncts; evaluate. Qed.

Lemma magic_bit_flip_is_bad_magic :
  let w := tampered "data.enc" 5 0 sealed in
  (5 < header1_size_of (content "data.enc" sealed))%nat
  /\ drop (header1_size_of (content "data.enc" sealed)) (content "data.enc" w)
     = drop (header1_size_of (content "data.enc" sealed))
            (content "data.enc" sealed)
  /\ (decrypted w).1 = false
  /\ trace (decrypted w).2 = [ERR_PRINT Decrypt Expected_package_magic].
Proof.
  cbn zeta. split; [apply Nat.ltb_lt; evaluate|]. conjuncts; evaluate.
Qed.

Lemma overwrite_guard_witness :
  (let '(r, w') := @encryptThenSign_RSA1 constants botan Botan_DER
                     "enc.pub" "sign.sec" "" "data" "enc.sec" false
                     (world hello) in
   r = false /\ files w' = files (world hello)
   /\ trace w' = trace (world hello)
                 ++ [ERR_PRINT Encrypt Not_overwriting_existing_output])
  /\ (let '(r, w') := @checkSignThenDecrypt_RSA1 constants botan
                        "enc.pub" "sign.sec" "" "data" "enc.sec" false
                        (world hello) in
      r = false /\ files w' = files (world hello)
      /\ trace w' = trace (world hello)
                    ++ [ERR_PRINT Decrypt Not_overwriting_existing_output]).
Proof.
  apply (@overwrite_guard constants botan Botan_DER
           "enc.pub" "sign.sec" "" "data" "enc.sec" (world hello)).
  vm_compute. eexists. reflexivity.
Defined.

Ltac ready := split; [left; evaluate|conjuncts; evaluate].

Lemma sealed_accepted (c : Constants) :
  @package_magic c = @package_magic constants ->
  @accepted_headers c botan key2 (content "data.enc" sealed)
                    (header_of (content "data.enc" sealed))
                    (payload_of (content "data.enc" sealed)).
Proof.
  intros Hm.
  exists (magic_field (content "data.enc" sealed)),
    (size_field (content "data.enc" sealed)),
    (snoop_rest (content "data.enc" sealed)),
    (header_rest (content "data.enc" sealed)),
    (signature_of (content "data.enc" sealed)).
  rewrite Hm. conjuncts; evaluate.
Qed.

Lemma sealed_fields_valid :
  @header_fields_valid constants botan (header_of (content "data.enc" sealed)).
Proof.
  unfold header_fields_valid. conjuncts; try evaluate.
  exists [x60; x86; x48; x01; x65; x03; x04; x02; x01], [].
  conjuncts; evaluate.
Qed.


Lemma tampered_header1_rejected_witness :
  let w := tampered "data.enc" 145 0 sealed in
  exists m,
    @header_failure constants botan key2 (content "data.enc" w) m
    /\ m ∈ header_stage_messages
    /\ @fatal botan "data.out" m w (decrypted w).
Proof.
  cbn zeta. unfold decrypted.
  apply (@tampered_header1_rejected constants botan
           "sign.pub" "enc.sec" "" "data.enc" "data.out" false
           (tampered "data.enc" 145 0 sealed) key2 key1
           (content "data.enc" (tampered "data.enc" 145 0 sealed))).
  - ready.
  - intros magic szbuf r0 sig ct Hs H2.
    vm_compute in Hs. injection Hs as <- <- <-.
    vm_compute in H2. injection H2 as <- <-.
    evaluate.
Defined.

Lemma header_validation_fatal_witness :
  (let w := tampered "data.enc" 5 0 sealed in
   exists m, m ∈ [Unknown_package_magic; Expected_package_magic]
             /\ @fatal botan "data.out" m w (decrypted w))
  /\ (exists m,
         @field_mismatch other_constants botan
                         (header_of (content "data.enc" sealed)) m
         /\ @fatal botan "data.out" m sealed
                   (@checkSignThenDecrypt_RSA1 other_constants botan
                      "sign.pub" "enc.sec" "" "data.enc" "data.out" false
                      sealed)).
Proof.
  split.
  - cbn zeta. unfold decrypted.
    refine (proj1 (@header_validation_fatal constants botan
              "sign.pub" "enc.sec" "" "data.enc" "data.out" false
              (tampered "data.enc" 5 0 sealed) key2 key1
              (content "data.enc" (tampered "data.enc" 5 0 sealed)) _)
              (magic_field (content "data.enc" (tampered "data.enc" 5 0 sealed)))
              (size_field (content "data.enc" (tampered "data.enc" 5 0 sealed)))
              (snoop_rest (content "data.enc" (tampered "data.enc" 5 0 sealed)))
              _ _).
    + ready.
    + evaluate.
    + evaluate.
  - refine (proj2 (@header_validation_fatal other_constants botan
              "sign.pub" "enc.sec" "" "data.enc" "data.out" false
              sealed key2 key1 (content "data.enc" sealed) _)
              (header_of (content "data.enc" sealed))
              (payload_of (content "data.enc" sealed)) _ _).
    + ready.
    + by apply sealed_accepted.
    + intros (_ & Hs & _). vm_compute in Hs. discriminate Hs.
Defined.

Lemma empty_filename_rejected_witness :
  exists m,
    m ∈ Unknown_filename :: header_stage_messages
    /\ @fatal botan "data.out" m nameless_sealed (decrypted nameless_sealed).
Proof.
  unfold decrypted.
  apply (@empty_filename_rejected constants botan
           "sign.pub" "enc.sec" "" "data.enc" "data.out" false
           nameless_sealed key2 key1
           (content "data.enc" nameless_sealed)
           (magic_field (content "data.enc" nameless_sealed))
           (size_field (content "data.enc" nameless_sealed))
           (snoop_rest (content "data.enc" nameless_sealed))
           (header_of (content "data.enc" nameless_sealed))
           (header_rest (content "data.enc" nameless_sealed))).
  - ready.
  - evaluate.
  - evaluate.
  - evaluate.
Defined.

Lemma aead_bound_to_encrypted_key_witness :
  (exists (es : @encrypt_setup botan) (ad : aead) (h : Header1) (sig : bytes),
      @AEAD_create botan (@aead_cipher_algo constants) ENCRYPTION = Some ad
      /\ @start botan
           (@set_associated_data_vec botan
              (@set_key botan ad (es_file_key es)) (h_encrypted_key h))
           (h_nonce h) = Val (es_aead es)
      /\ files sealed !! "data.enc"
         = Some (der_encode_header1 h ++ der_header2 sig
                   ++ (@aead_stream constants botan (es_aead es) hello).1))
  /\ (decrypted sealed).1 = true
  /\ files (decrypted sealed).2 !! "data.out"
     = Some (@aead_stream constants botan decrypting_aead
               (payload_of (content "data.enc" sealed))).1.
Proof.
  destruct (@aead_bound_to_encrypted_key constants botan) as [Henc Hdec].
  split.
  - destruct (Henc "enc.pub" "sign.sec" "" "data" "data.enc" false
                (world hello) sealed sealed_run ltac:(discriminate))
      as (es & w0 & pt & ad & szbuf & Hpt & Ha & Hst & Hfi).
    vm_compute in Hpt. injection Hpt as <-.
    exists es, ad, (@make_header1 constants botan "data" es szbuf),
      (@header2_signature constants botan "data" es w0).
    split; [exact Ha|]. split; [exact Hst|exact Hfi].
  - pose proof (Hdec "sign.pub" "enc.sec" "" "data.enc" "data.out" false
                  sealed key2 key1 (content "data.enc" sealed)
                  (header_of (content "data.enc" sealed))
                  (payload_of (content "data.enc" sealed))
                  (fresh_aead DECRYPTION)
                  ltac:(ready) (sealed_accepted constants eq_refl)
                  sealed_fields_valid ltac:(evaluate) ltac:(evaluate)) as W.
    cbn zeta in W.
    match type of W with
    | match ?s with _ => _ end =>
        assert (Hs : s = Val decrypting_aead) by evaluate; rewrite Hs in W
    end.
    match type of W with
    | match ?s with _ => _ end =>
        assert (Hr : s = None) by evaluate; rewrite Hr in W
    end.
    exact W.
Defined.

(** * More sample runs *)

Module Cases.
Import Sample Scenario.

(** The sample world with an output path that cannot be opened. *)
Definition locked_world : @World botan :=
  @Build_World botan (files (world hello)) {["data.enc"]} false 5 [].

(** The sealed world with, as [big.enc], the Header-1 of the encrypted
    file with a size field that declares 65535 octets, and with a file
    without octets as [empty.enc]. *)
Definition oversized_header : Header1 :=
  let h := header_of (content "data.enc" sealed) in
  {| h_package_magic := h_package_magic h;
     h_header1_size_buffer := [xff; xff; x00; x00];
     h_filename := h_filename h;
     h_payload_version := h_payload_version h;
     h_payload_version_parent := h_payload_version_parent h;
     h_sign_algo := h_sign_algo h;
     h_pk_alg_id := h_pk_alg_id h;
     h_cipher_algo_oid := h_cipher_algo_oid h;
     h_encrypted_key := h_encrypted_key h;
     h_nonce := h_nonce h |}.

Definition oversized_world : @World botan :=
  with_file "big.enc" (der_encode_header1 oversized_header) sealed.

Definition empty_world : @World botan := with_file "empty.enc" [] sealed.

Definition decrypt_file (data_fname : string) (w : @World botan)
  : bool * @World botan :=
  @checkSignThenDecrypt_RSA1 constants botan
    "sign.pub" "enc.sec" "" data_fname "data.out" false w.

End Cases.

Import Cases.

Ltac keys_ready := split; [left; evaluate|conjuncts; evaluate].

Lemma header1_codec_roundtrip_witness :
  let h := header_of (content "data.enc" sealed) in
  decode_header1 (der_encode_header1 h ++ [x00]) = Val (h, [x00])
  /\ snoop_header1 (der_encode_header1 h ++ [x00])
     = Val ((h_package_magic h, h_header1_size_buffer h), [x00]).
Proof.
  cbn zeta.
  apply (header1_codec_roundtrip (header_of (content "data.enc" sealed)) [x00]);
    evaluate.
Defined.

Lemma header2_codec_roundtrip_witness :
  decode_header2 (der_header2 [x01; x02] ++ [x03]) = Val ([x01; x02], [x03]).
Proof. apply (header2_codec_roundtrip [x01; x02] [x03]). evaluate. Defined.

Lemma snooped_size_is_header1_length_witness :
  let c := @header1_pass2 constants botan Botan_DER "data" setup ++ [x07] in
  exists szbuf r0,
    snoop_header1 c
    = Val ((list_byte_of_string (@package_magic constants), szbuf), r0)
    /\ length szbuf = 4%nat
    /\ N.to_nat (get_uint32 szbuf 0)
       = length (@header1_pass2 constants botan Botan_DER "data" setup)
    /\ take (N.to_nat (get_uint32 szbuf 0)) c
       = @header1_pass2 constants botan Botan_DER "data" setup
    /\ drop (N.to_nat (get_uint32 szbuf 0)) c = [x07].
Proof.
  apply (@snooped_size_is_header1_length constants botan "data" setup [x07]).
  evaluate.
Defined.

Lemma output_not_open_witness :
  (let r := @encryptThenSign_RSA1 constants botan Botan_DER
              "enc.pub" "sign.sec" "" "data" "data.enc" false locked_world in
   r.1 = false /\ files r.2 = delete "data.enc" (files locked_world)
   /\ trace r.2 = trace locked_world ++ [ERR_PRINT Encrypt Output_file_not_open])
  /\ (let r := @checkSignThenDecrypt_RSA1 constants botan
                 "enc.pub" "sign.sec" "" "data" "data.enc" false locked_world in
      r.1 = false /\ files r.2 = delete "data.enc" (files locked_world)
      /\ trace r.2
         = trace locked_world ++ [ERR_PRINT Decrypt Output_file_not_open]).
Proof.
  apply (@output_not_open constants botan Botan_DER
           "enc.pub" "sign.sec" "" "data" "data.enc" false locked_world).
  - left. evaluate.
  - vm_compute. reflexivity.
Defined.

Lemma overwrite_starts_afresh_witness :
  @encryptThenSign_RSA1 constants botan Botan_DER
    "enc.pub" "sign.sec" "" "data" "data.enc" true
    (with_file "data.enc" [x00] (world hello))
  = @encryptThenSign_RSA1 constants botan Botan_DER
      "enc.pub" "sign.sec" "" "data" "data.enc" true (world hello)
  /\ @checkSignThenDecrypt_RSA1 constants botan
       "enc.pub" "sign.sec" "" "data" "data.enc" true
       (with_file "data.enc" [x00] (world hello))
     = @checkSignThenDecrypt_RSA1 constants botan
         "enc.pub" "sign.sec" "" "data" "data.enc" true (world hello).
Proof.
  apply (@overwrite_starts_afresh constants botan Botan_DER
           "enc.pub" "sign.sec" "" "data" "data.enc" [x00] (world hello)).
  evaluate.
Defined.

Lemma decrypt_missing_input_witness :
  @fatal botan "data.out" (Caught_exception Stream_IO_Error) sealed
         (decrypt_file "nothing.enc" sealed).
Proof.
  apply (@decrypt_missing_input constants botan
           "sign.pub" "enc.sec" "" "nothing.enc" "data.out" false sealed
           key2 key1).
  - keys_ready.
  - discriminate.
  - evaluate.
Defined.

Lemma decrypt_empty_input_witness :
  @fatal botan "data.out" Header1a_invalid_input_file_format empty_world
         (decrypt_file "empty.enc" empty_world).
Proof.
  apply (@decrypt_empty_input constants botan
           "sign.pub" "enc.sec" "" "empty.enc" "data.out" false empty_world
           key2 key1).
  - keys_ready.
  - discriminate.
  - evaluate.
Defined.

Lemma decrypt_onto_input_loses_it_witness :
  let r := @checkSignThenDecrypt_RSA1 constants botan
             "sign.pub" "enc.sec" "" "data.enc" "data.enc" true sealed in
  r.1 = false /\ files r.2 !! "data.enc" = None
  /\ trace r.2
     = trace sealed ++ [ERR_PRINT Decrypt Header1a_invalid_input_file_format].
Proof.
  apply (@decrypt_onto_input_loses_it constants botan
           "sign.pub" "enc.sec" "" "data.enc" sealed key2 key1
           (content "data.enc" sealed)).
  - split; [by right|conjuncts; evaluate].
  - evaluate.
Defined.

Lemma decrypt_size_field_too_large_witness :
  @fatal botan "data.out" Expected_header1_size oversized_world
         (decrypt_file "big.enc" oversized_world).
Proof.
  apply (@decrypt_size_field_too_large constants botan
           "sign.pub" "enc.sec" "" "big.enc" "data.out" false oversized_world
           key2 key1 (content "big.enc" oversized_world)
           (magic_field (content "big.enc" oversized_world))
           (size_field (content "big.enc" oversized_world))
           (snoop_rest (content "big.enc" oversized_world))).
  - ready.
  - evaluate.
  - evaluate.
  - discriminate.
  - evaluate.
  - apply Nat.ltb_lt. evaluate.
Defined.


Lemma decrypt_failure_output_witness :
  files (unsealed_with_other_key sealed).2 !! "data.out" = None
  \/ @decrypt_early_return botan "sign.pub" "other.sec" ""
                           (opened "data.out" sealed).
Proof.
  apply (@decrypt_failure_output constants botan
           "sign.pub" "other.sec" "" "data.enc" "data.out" false sealed).
  - left. evaluate.
  - evaluate.
  - evaluate.
Defined.

Lemma encrypt_failure_output_witness :
  let r := @encryptThenSign_RSA1 constants botan Botan_DER
             "enc.pub" "sign.sec" "" "nothing" "data.enc" false (world hello) in
  files r.2 !! "data.enc" = None
  \/ exists ms, @encrypt_early_return constants botan "enc.pub" "sign.sec" ""
                                      (opened "data.enc" (world hello)) ms.
Proof.
  apply (@encrypt_failure_output constants botan Botan_DER
           "enc.pub" "sign.sec" "" "nothing" "data.enc" false (world hello)).
  - left. evaluate.
  - evaluate.
  - evaluate.
Defined.

Lemma decrypt_success_means_verified_witness :
  exists h ct ad sd,
    @accepted_headers constants botan key2 (content "data.enc" sealed) h ct
    /\ @header_fields_valid constants botan h
    /\ @AEAD_create botan (@aead_cipher_algo constants) DECRYPTION = Some ad
    /\ @start botan
         (@set_associated_data_vec botan
            (@set_key botan ad
               (@unwrapped_key constants botan key1 (h_encrypted_key h)
                               (@maximum_keylength botan ad) (rng sealed)))
            (h_encrypted_key h))
         (h_nonce h) = Val sd
    /\ (@aead_stream constants botan sd ct).2 = None.
Proof.
  apply (@decrypt_success_means_verified constants botan
           "sign.pub" "enc.sec" "" "data.enc" "data.out" false sealed
           key2 key1 (content "data.enc" sealed)).
  - ready.
  - evaluate.
Defined.

Lemma only_output_file_changes_witness :
  files (encrypted hello).2 !! "enc.sec" = files (world hello) !! "enc.sec"
  /\ files (@checkSignThenDecrypt_RSA1 constants botan
              "enc.pub" "sign.sec" "" "data" "data.enc" false (world hello)).2
       !! "enc.sec"
     = files (world hello) !! "enc.sec".
Proof.
  apply (@only_output_file_changes constants botan Botan_DER
           "enc.pub" "sign.sec" "" "data" "data.enc" false (world hello)
           "enc.sec").
  discriminate.
Defined.

Lemma success_prints_nothing_witness :
  trace (encrypted hello).2 = trace (world hello)
  /\ trace (decrypted sealed).2 = trace sealed.
Proof.
  split.
  - apply (proj1 (@success_prints_nothing constants botan Botan_DER
                    "enc.pub" "sign.sec" "" "data" "data.enc" false
                    (world hello))).
    evaluate.
  - apply (proj2 (@success_prints_nothing constants botan Botan_DER
                    "sign.pub" "enc.sec" "" "data.enc" "data.out" false
                    sealed)).
    evaluate.
Defined.


Lemma header1_encoding_injective_witness :
  header_of (content "data.enc" sealed) = header_of (content "data.enc" sealed).
Proof.
  apply (header1_encoding_injective (header_of (content "data.enc" sealed))
           (header_of (content "data.enc" sealed))); evaluate.
Defined.

Lemma encrypted_file_headers_accepted_witness :
  exists c h ct,
    files sealed !! "data.enc" = Some c
    /\ @accepted_headers constants botan key2 c h ct
    /\ @header_fields_valid constants botan h
    /\ h_filename h = list_byte_of_string "data".
Proof.
  apply (@encrypted_file_headers_accepted constants botan
           "enc.pub" "sign.sec" "" "data" "data.enc" false (world hello)
           sealed key2).
  - exact sample_constants_wf.
  - exact sample_registry_consistent.
  - exact sealed_run.
  - discriminate.
  - discriminate.
  - intros sk Hsk. vm_compute in Hsk. injection Hsk as <-.
    apply sample_valid_sign_pair.
  - intros es w0 Hes. destruct (sealed_setup es w0 Hes) as [-> ->].
    split; evaluate.
Defined.

Module MoreCases.
Import Sample Scenario.

(** Constants that name a hash function the sample registry does not
    know. *)
Definition unknown_hash_constants : Constants := {|
  package_magic := @package_magic constants;
  rsa_sign_algo := @rsa_sign_algo constants;
  rsa_padding_algo := @rsa_padding_algo constants;
  rsa_hash_algo := "SHA-1";
  aead_cipher_algo := @aead_cipher_algo constants;
  ChaCha_Nonce_Size := @ChaCha_Nonce_Size constants;
  buffer_size := @buffer_size constants
|}.

End MoreCases.
Import MoreCases.

Definition throws {A} (r : flow A * @World botan) (e : exception) : bool :=
  match r.1 with
  | Throw e' => bool_decide (e' = e)
  | _ => false
  end.

Lemma throws_run {A} (r : flow A * @World botan) (e : exception) :
  throws r e = true -> r = (Throw e, r.2).
Proof.
  unfold throws. destruct r as [[a|b|e'] w]; try discriminate.
  intros E. apply bool_decide_eq_true in E. by subst.
Qed.

Lemma encrypt_setup_exception_caught_witness :
  let r := @encryptThenSign_RSA1 unknown_hash_constants botan Botan_DER
             "enc.pub" "sign.sec" "" "data" "data.enc" false (world hello) in
  r.1 = false /\ files r.2 !! "data.enc" = None
  /\ trace r.2
     = trace (world hello) ++ [ERR_PRINT Encrypt (Caught_exception Lookup_Error)].
Proof.
  apply (@encrypt_setup_exception_caught unknown_hash_constants botan Botan_DER
           "enc.pub" "sign.sec" "" "data" "data.enc" false (world hello)
           (@encrypt_prepare unknown_hash_constants botan Botan_DER
              "enc.pub" "sign.sec" "" (opened "data.enc" (world hello))).2
           Lookup_Error).
  - left. evaluate.
  - evaluate.
  - apply throws_run. evaluate.
Defined.
